(** * mister_ed: attack engine and attack-augmented training / evaluation

    A shallow embedding of [adversarial_attacks_refactor.py] (the single-step
    and multi-step attacks) and of [adversarial_training.py] (the
    attack-parameter wrapper, the training loop, the evaluation loop).

    Python objects with identity (tensors, parameters) live in a store and
    are handled through their location; a method that mutates state is a
    computation in a state-and-exception monad over that store.  Calls whose
    effect is only visible outside (console, checkpoint sink, device flag),
    and the gradient and update steps, are written to a call log that the
    code itself cannot read back. *)

From stdpp Require Import base option list sorting strings gmap.
From Stdlib Require Import QArith Qround Lqa.

Local Open Scope nat_scope.
Local Open Scope list_scope.

(** ** Numbers held by tensors

    Tensor entries are machine floats.  The attacks only add, scale, take
    signs and clear; no algebraic law of these operations is used, so the
    entry type stays abstract. *)
Class Float (F : Type) := {
  f_zero : F;
  f_add : F → F → F;
  f_mul : F → F → F;
  f_sign : F → F;
}.

(** Python exceptions that the modelled code can meet.  [Diverges] is not
    one of Python's: it marks a run that does not come back (the redraw loop
    of [random.sample] below); nothing in the code can catch it. *)
Inductive exn :=
  | TypeError | ValueError | AttributeError | AssertionError
  | IndexError | KeyError | ReferenceError | ZeroDivisionError | InvalidAttack
  | Diverges.

(** Objects are identified by their position in the store. *)
Abbreviation loc := nat (only parsing).

(** What the modelled code sends to the outside world.  A print is recorded
    by its format string; the numbers filled in are not kept. *)
Inductive event :=
  | EvPrint (line : string)
  | EvSetGpu (use_gpu : bool)
  | EvBackward
  | EvUpdateParams (ps : list loc)
  | EvOptimStep (ps : list loc)
  | EvOptimZeroGrad (ps : list loc)
  | EvCheckpoint (epoch : nat).

(** A tensor is its rows along dimension 0: a float tensor has one flattened
    example per row, a long tensor one integer per row. *)
Inductive tensor (F : Type) :=
  | FloatTensor (rows : list (list F))
  | LongTensor (xs : list Z).
Arguments FloatTensor {F} rows.
Arguments LongTensor {F} xs.

(** A stored tensor: its data and its [.grad] buffer ([None] until a
    backward pass reaches it). *)
Record cell (F : Type) := Cell { data : tensor F; grad : option (tensor F) }.
Arguments Cell {F} data grad.
Arguments data {F} c.
Arguments grad {F} c.

Record world (F : Type) := World {
  heap : list (cell F);           (* objects by identity; never freed *)
  training : bool;                (* classifier mode: train() / eval() *)
  reference : option (tensor F);  (* batch fixed by loss.setup_attack_batch *)
  py_rng : nat → nat;             (* draws of Python's random module *)
  torch_rng : nat → nat;          (* draws of torch's generator *)
}.
Arguments World {F} heap training reference py_rng torch_rng.
Arguments heap {F} w.
Arguments training {F} w.
Arguments reference {F} w.
Arguments py_rng {F} w.
Arguments torch_rng {F} w.

(** The monad: state, exceptions, and the call log (oldest event first). *)
Inductive outcome (F A : Type) :=
  | Ok (a : A) (w : world F)
  | Raise (e : exn) (w : world F).
Arguments Ok {F A} a w.
Arguments Raise {F A} e w.

Definition M (F A : Type) : Type := world F → list event * outcome F A.

(** ** Collaborators from torch and from [utils.pytorch_utils]

    Neither is part of the sources at hand; they are taken as given.  The
    last field is a bound of the model, not a collaborator. *)
Class Torch (F : Type) := {
  (* the update rule of [optim.Adam] with learning rate [lr]: from the
     gradients seen at every step so far (latest last) and the current
     values of the parameter group, the new values *)
  adam_rule : Q → list (list (option (tensor F))) → list (tensor F) → list (tensor F);
  (* [utils.accuracy(output, labels, topk=(1,))[0][0]]: percentage correct *)
  accuracy : tensor F → tensor F → Q;
  (* [utils.accuracy_int(output, labels, topk=1)]: number correct *)
  accuracy_int : tensor F → tensor F → Z;
  (* [torch.cuda.is_available()] *)
  cuda_is_available : bool;
  (* how many draws in a row the redraw loop of [random.sample] is followed
     through before the run is given up as not coming back *)
  patience : nat;
}.

Section Model.
Context {F : Type} `{Float F} `{Torch F}.

Definition shape0 (t : tensor F) : nat :=
  match t with
  | FloatTensor rows => length rows
  | LongTensor xs => length xs
  end.

Definition numel (t : tensor F) : nat :=
  match t with
  | FloatTensor rows => length (concat rows)
  | LongTensor xs => length xs
  end.

(** Pointwise arithmetic on float tensors (long tensors are left alone: the
    attacks never do arithmetic on them). *)
Definition tmap (f : F → F) (t : tensor F) : tensor F :=
  match t with
  | FloatTensor rows => FloatTensor (map (map f) rows)
  | LongTensor xs => LongTensor xs
  end.

Definition tzip (f : F → F → F) (a b : tensor F) : tensor F :=
  match a, b with
  | FloatTensor ra, FloatTensor rb => FloatTensor (zip_with (zip_with f) ra rb)
  | _, _ => a
  end.

Definition torch_sign : tensor F → tensor F := tmap f_sign.
Definition scale (c : F) : tensor F → tensor F := tmap (f_mul c).
Definition tadd : tensor F → tensor F → tensor F := tzip f_add.
Definition zeros_like : tensor F → tensor F := tmap (λ _, f_zero).

Definition set_heap (f : list (cell F) → list (cell F)) (w : world F) : world F :=
  World (f (heap w)) (training w) (reference w) (py_rng w) (torch_rng w).
Definition set_training (b : bool) (w : world F) : world F :=
  World (heap w) b (reference w) (py_rng w) (torch_rng w).
Definition set_reference (r : option (tensor F)) (w : world F) : world F :=
  World (heap w) (training w) r (py_rng w) (torch_rng w).
Definition set_py_rng (r : nat → nat) (w : world F) : world F :=
  World (heap w) (training w) (reference w) r (torch_rng w).
Definition set_torch_rng (r : nat → nat) (w : world F) : world F :=
  World (heap w) (training w) (reference w) (py_rng w) r.

Definition ret {A} (a : A) : M F A := λ w, ([], Ok a w).
Definition bind {A B} (m : M F A) (f : A → M F B) : M F B :=
  λ w, match m w with
       | (ev, Ok a w') => let '(ev', o) := f a w' in (ev ++ ev', o)
       | (ev, Raise e w') => (ev, Raise e w')
       end.
Global Instance M_ret : MRet (M F) := @ret.
Global Instance M_bind : MBind (M F) := λ A B f m, bind m f.
Definition raise {A} (e : exn) : M F A := λ w, ([], Raise e w).
Definition modify (f : world F → world F) : M F unit := λ w, ([], Ok tt (f w)).
Definition gets {A} (f : world F → A) : M F A := λ w, ([], Ok (f w) w).
Definition emit (e : event) : M F unit := λ w, ([e], Ok tt w).

(** What a run returned, if it returned. *)
Definition result_of {A} (r : list event * outcome F A) : option A :=
  match r.2 with
  | Ok a _ => Some a
  | Raise _ _ => None
  end.

(** The world a run ended in, returning or raising. *)
Definition final {A} (r : list event * outcome F A) : world F :=
  match r.2 with
  | Ok _ w => w
  | Raise _ w => w
  end.

(** [for x in xs: body x] *)
Fixpoint for_each {A} (xs : list A) (body : A → M F unit) : M F unit :=
  match xs with
  | [] => ret tt
  | x :: xs' => body x;; for_each xs' body
  end.

Definition lift {A} (r : exn + A) : M F A :=
  match r with
  | inl e => raise e
  | inr a => mret a
  end.

(** [for i, x in enumerate(xs, i0)] threading the loop-carried value. *)
Fixpoint for_enum {A St} (xs : list A) (i : nat) (body : nat → A → St → M F St)
    (s : St) : M F St :=
  match xs with
  | [] => mret s
  | x :: xs' => s' ← body i x s; for_enum xs' (S i) body s'
  end.

(** [a / b] on floats. *)
Definition py_div (a b : Q) : M F Q :=
  if decide (Qnum b = 0)%Z then raise ZeroDivisionError else mret (a / b)%Q.

(** [x >= 1] as Python 2 orders it: [None] is below every number. *)
Definition ge_1 (x : option Z) : bool :=
  match x with
  | Some v => bool_decide (1 ≤ v)%Z
  | None => false
  end.

(** [level >= 1 and i % every == every - 1]: the right operand is only
    evaluated when the left one holds. *)
Definition cadence (level every : option Z) (i : nat) : M F bool :=
  if ge_1 level
  then match every with
       | None => raise TypeError
       | Some e => if decide (e = 0)%Z then raise ZeroDivisionError
                   else mret (bool_decide (Z.of_nat i `mod` e = e - 1)%Z)
       end
  else mret false.

(** ** Store primitives *)
Definition alloc (t : tensor F) : M F loc :=
  λ w, ([], Ok (length (heap w)) (set_heap (λ h, h ++ [Cell t None]) w)).

Definition load (l : loc) : M F (cell F) :=
  λ w, match heap w !! l with
       | Some c => ([], Ok c w)
       | None => ([], Raise ReferenceError w)
       end.

Definition read (l : loc) : M F (tensor F) := c ← load l; mret (data c).

(** In-place change of the object at [l]. *)
Definition modify_cell (l : loc) (f : cell F → exn + cell F) : M F unit :=
  λ w, match heap w !! l with
       | Some c =>
           match f c with
           | inr c' => ([], Ok tt (set_heap (λ h, <[l:=c']> h) w))
           | inl e => ([], Raise e w)
           end
       | None => ([], Raise ReferenceError w)
       end.

(** ** torch operations used by the code *)

(** [t.index_select(0, idx)]: a new tensor with the rows of [t] at [idx];
    an index outside the tensor is an error. *)
Definition rows_select {A} (rows : list A) (idx : list Z) : option (list A) :=
  mapM (λ i : Z, if decide (0 ≤ i)%Z then rows !! Z.to_nat i else None) idx.

Definition select_rows (t : tensor F) (idx : tensor F) : option (tensor F) :=
  match idx with
  | LongTensor ix =>
      match t with
      | FloatTensor rows => FloatTensor <$> rows_select rows ix
      | LongTensor xs => LongTensor <$> rows_select xs ix
      end
  | FloatTensor _ => None
  end.

Definition index_select (src : loc) (idx : option loc) : M F loc :=
  match idx with
  | None => raise TypeError
  | Some il =>
      bind (read src) (λ t,
      bind (read il) (λ i,
      match select_rows t i with
      | Some r => alloc r
      | None => raise IndexError
      end))
  end.

(** [torch.cat([a, b], dim=0)]: a new tensor; a [None] in the list, or
    tensors of different types, are rejected with a TypeError. *)
Definition cat_rows (a b : tensor F) : option (tensor F) :=
  match a, b with
  | FloatTensor ra, FloatTensor rb => Some (FloatTensor (ra ++ rb))
  | LongTensor xa, LongTensor xb => Some (LongTensor (xa ++ xb))
  | _, _ => None
  end.

Definition torch_cat (a b : option loc) : M F loc :=
  match a, b with
  | Some la, Some lb =>
      bind (read la) (λ ta,
      bind (read lb) (λ tb,
      match cat_rows ta tb with
      | Some t => alloc t
      | None => raise TypeError
      end))
  | _, _ => raise TypeError
  end.

(** [t.cuda()]: a copy on the device. *)
Definition cuda (l : loc) : M F loc := read l ≫= alloc.

(** [[f(x) for x in xs]] with effects, left to right. *)
Fixpoint map_M {A B} (f : A → M F B) (xs : list A) : M F (list B) :=
  match xs with
  | [] => mret []
  | x :: xs' => y ← f x; ys ← map_M f xs'; mret (y :: ys)
  end.

(** [for i in xrange(n)] threading the loop-carried value. *)
Fixpoint for_range {St} (n : nat) (start : nat) (body : nat → St → M F St) (s : St) : M F St :=
  match n with
  | 0 => mret s
  | S n' => s' ← body start s; for_range n' (S start) body s'
  end.

(** ** Python's floats, [int], [range], [sorted] and [random.sample] *)

(** A finite double is a rational number, and an operation on doubles is
    the exact operation followed by rounding to the nearest double, a tie
    going to the even significand.  Doubles have 53 significant bits and are
    spaced no finer than 2^-1074; overflow to infinity is left out (no
    product below comes near 2^1024). *)

(** The exponent [e] with [2^e <= q < 2^(e+1)], for a positive [q]. *)
Definition floor_log2 (q : Q) : Z :=
  let j := Z.log2_up (Z.pos (Qden q)) in
  (Z.log2 (Qnum q * 2 ^ j / Z.pos (Qden q)) - j)%Z.

Definition Qpow2 (s : Z) : Q :=
  if decide (0 ≤ s)%Z then inject_Z (2 ^ s) else (1 / inject_Z (2 ^ (- s)))%Q.

(** The nearest integer, a tie going to the even one. *)
Definition round_half_even (q : Q) : Z :=
  let f := Qfloor q in
  match (q - inject_Z f ?= 1 # 2)%Q with
  | Lt => f
  | Gt => (f + 1)%Z
  | Eq => if Z.even f then f else (f + 1)%Z
  end.

(** The nearest multiple of [2^s]. *)
Definition round_at (s : Z) (q : Q) : Q :=
  (inject_Z (round_half_even (q / Qpow2 s)) * Qpow2 s)%Q.

(** The double nearest to [q]. *)
Definition fl (q : Q) : Q :=
  match Qnum q with
  | Z0 => 0%Q
  | Zpos _ => round_at (Z.max (floor_log2 q - 52) (-1074)) q
  | Zneg _ => (- round_at (Z.max (floor_log2 (- q) - 52) (-1074)) (- q))%Q
  end.

(** [x * n] for a float [x] and an int [n]: the int becomes a float, and
    the product is rounded. *)
Definition float_times_int (x : Q) (n : Z) : Q := fl (x * fl (inject_Z n)).

(** [int(x)] on a float truncates toward zero. *)
Definition py_int (q : Q) : Z := (Qnum q ÷ Z.pos (Qden q))%Z.

Definition range (n : nat) : list nat := seq 0 n.

Definition sorted (l : list nat) : list nat := merge_sort (≤) l.

(** A draw [int(random() * m)] is position [t] of the generator's stream,
    reduced below [m]. *)

(** The first branch of [random.sample]: [k] times, draw a position [j]
    among the [m] items not yet chosen, output [pool[j]] and move the last
    unchosen item into the vacancy. *)
Fixpoint sample_pool (k m : nat) (pool : list nat) (rng : nat → nat) : list nat :=
  match k with
  | 0 => []
  | S k' =>
      let j := rng 0 mod m in
      match pool !! j, pool !! (m - 1) with
      | Some x, Some y => x :: sample_pool k' (m - 1) (<[j:=y]> pool) (λ i, rng (S i))
      | _, _ => []
      end
  end.

(** The second branch: [j = int(random() * n)], drawn again [while j in
    selected].  From position [t] of the stream on: the first index not yet
    selected and the position after it; [None] once [fuel] draws in a row
    were all selected already. *)
Fixpoint draw_fresh (fuel n : nat) (selected : list nat) (rng : nat → nat) (t : nat)
    : option (nat * nat) :=
  match fuel with
  | 0 => None
  | S fuel' =>
      let j := rng t mod n in
      if decide (j ∈ selected) then draw_fresh fuel' n selected rng (S t)
      else Some (j, S t)
  end.

(** [for i in xrange(k)]: a fresh index, [selected.add(j)], [result[i] =
    population[j]].  The result and the number of draws consumed. *)
Fixpoint sample_set (fuel k n : nat) (population selected : list nat)
    (rng : nat → nat) (t : nat) : option (list nat * nat) :=
  match k with
  | 0 => Some ([], t)
  | S k' =>
      match draw_fresh fuel n selected rng t with
      | Some (j, t1) =>
          match population !! j, sample_set fuel k' n population (j :: selected) rng t1 with
          | Some x, Some (rest, t2) => Some (x :: rest, t2)
          | _, _ => None
          end
      | None => None
      end
  end.

(** [setsize]: 21, plus [4 ** _ceil(_log(k * 3, 4))] when [k > 5].  The
    power is the least power of 4 not below [3k] (the logarithm is taken in
    floats by the library and exactly here; [3k] is never a power of 4, and
    for the sizes a batch can have it is not within rounding distance of
    one). *)
Definition setsize (k : nat) : nat :=
  if decide (5 < k) then 21 + 4 ^ ((Nat.log2_up (k * 3) + 1) / 2) else 21.

(** The list [random.sample] builds from a list [population] and a count
    [0 <= k <= n], with the number of draws it consumes: the pool branch
    when [n <= setsize], the redraw branch otherwise.  [None]: the redraw
    loop went through the model's patience. *)
Definition sample (population : list nat) (k : nat) (rng : nat → nat)
    : option (list nat * nat) :=
  let n := length population in
  if decide (n ≤ setsize k)
  then Some (sample_pool k n population rng, k)
  else sample_set patience k n population [] rng 0.

(** The world once [t] draws of Python's generator are consumed. *)
Definition after_draws (t : nat) (w : world F) : world F :=
  set_py_rng (λ i, py_rng w (t + i)) w.

(** [random.sample(population, k)]: ValueError unless [0 <= k <= n]. *)
Definition random_sample (population : list nat) (k : Z) : M F (list nat) :=
  λ w, if decide (0 ≤ k ≤ Z.of_nat (length population))%Z
       then match sample population (Z.to_nat k) (py_rng w) with
            | Some (s, t) => ([], Ok s (after_draws t w))
            | None => ([], Raise Diverges w)
            end
       else ([], Raise ValueError w).

(** ** Autograd

    A [Variable] is a value together with the leaves it was computed from
    and the map from a gradient on the value to gradients on those leaves.
    A leaf built by [Variable(t)] shares the storage of [t]; the gradient it
    would receive lands on the wrapper, which the callers drop, and is not
    tracked. *)
Record var := Var {
  v_data : tensor F;
  v_storage : option loc;
  v_leaves : list loc;
  v_vjp : tensor F → list (tensor F);
}.

(** [Variable(x)] (the name is reserved here, hence [mk_Variable]);
    [Variable(None)] is an empty Variable: no rows, no storage of a tensor
    behind it. *)
Definition mk_Variable (x : option loc) : M F var :=
  match x with
  | Some l => t ← read l; mret (Var t (Some l) [] (λ _, []))
  | None => mret (Var (FloatTensor []) None [] (λ _, []))
  end.

(** [v.data]: the tensor under the Variable (a computed Variable owns a
    buffer of its own). *)
Definition var_data (v : var) : M F loc :=
  match v_storage v with
  | Some l => mret l
  | None => alloc (v_data v)
  end.

(** [utils.safe_var(x)]: wraps a tensor, passes a Variable through. *)
Definition safe_var (x : loc + var) : M F var :=
  match x with
  | inl l => mk_Variable (Some l)
  | inr v => mret v
  end.

(** A scalar with its graph: the leaves and the gradient each would get. *)
Record scalar := Scalar {
  s_value : F;
  s_grads : list (loc * tensor F);
}.

Definition accumulate (lg : loc * tensor F) : M F unit :=
  modify_cell lg.1 (λ c, inr (Cell (data c) (Some (match grad c with
                                                   | None => lg.2
                                                   | Some g0 => tadd g0 lg.2
                                                   end)))).

(** [torch.autograd.backward(loss)] / [loss.backward()]: every leaf of the
    graph accumulates its gradient into its [.grad]. *)
Definition autograd_backward (loss : scalar) : M F unit :=
  for_each (s_grads loss) accumulate;;
  emit EvBackward.

(** ** The classifier and the normalizer (pluggable, given) *)
Record Classifier := {
  net_id : nat;                   (* object identity, compared by [==] *)
  net_params : list loc;
  (* mode, weights, batch: logits *)
  net_fn : bool → list (tensor F) → tensor F → tensor F;
  (* mode, weights, batch, gradient on the logits: gradients on the weights *)
  net_vjp : bool → list (tensor F) → tensor F → tensor F → list (tensor F);
}.

Record Normalizer := { norm_fn : tensor F → tensor F }.

Definition net_eval : M F unit := modify (set_training false).
Definition net_train : M F unit := modify (set_training true).

Definition weights (net : Classifier) : M F (list (tensor F)) :=
  map_M read (net_params net).

(** [classifier_net.forward(x)] on an input that carries no gradient of its
    own: the logits, with the weights as leaves. *)
Definition net_forward (net : Classifier) (x : tensor F) : M F var :=
  mode ← gets training;
  ws ← weights net;
  mret (Var (net_fn net mode ws x) None (net_params net) (net_vjp net mode ws x)).

(** [classifier_net.cuda()] moves the weights in place; devices are not
    modelled, so nothing changes. *)
Definition net_cuda : M F unit := mret tt.

(** [normalizer.differentiable_call()] sets a flag of the normalizer that
    does not change what it computes. *)
Definition differentiable_call : M F unit := mret tt.

(** ** Optimizers of [torch.optim] *)
Record Optimizer := {
  opt_params : list loc;
  opt_rule : list (list (option (tensor F))) → list (tensor F) → list (tensor F);
  opt_seen : list (list (option (tensor F)));
}.

Definition optim_Adam (params : list loc) (lr : Q) : Optimizer :=
  {| opt_params := params; opt_rule := adam_rule lr; opt_seen := [] |}.

Definition clear_grad (l : loc) : M F unit :=
  modify_cell l (λ c, inr (Cell (data c) (zeros_like <$> grad c))).

Definition set_data (lt : loc * tensor F) : M F unit :=
  modify_cell lt.1 (λ c, inr (Cell lt.2 (grad c))).

Definition optimizer_zero_grad (o : Optimizer) : M F unit :=
  for_each (opt_params o) clear_grad;;
  emit (EvOptimZeroGrad (opt_params o)).

Definition optimizer_step (o : Optimizer) : M F Optimizer :=
  cs ← map_M load (opt_params o);
  let seen := opt_seen o ++ [grad <$> cs] in
  for_each (zip (opt_params o) (opt_rule o seen (data <$> cs))) set_data;;
  emit (EvOptimStep (opt_params o));;
  mret {| opt_params := opt_params o; opt_rule := opt_rule o; opt_seen := seen |}.

(** ** Threat model and perturbation *)

(** Modelled from the spec: the threat model factory of
    [adversarial_perturbations] ("callable taking a reference batch,
    returning a fresh Perturbation bound to that batch's shape").  The
    geometry is the threat model's own: the default parameters for a batch,
    the perturbed batch, its gradient map and the random restart. *)
Record ThreatModel := {
  tm_init : tensor F → list (tensor F);
  tm_apply : list (tensor F) → tensor F → tensor F;
  tm_vjp : list (tensor F) → tensor F → tensor F → list (tensor F);
  tm_random : nat → list (tensor F) → list (tensor F);
}.

(** Modelled from the spec: the Perturbation object of
    [adversarial_perturbations] ("owns a set of learnable parameters";
    capability set [apply], [parameters], [update_params], [zero_grad],
    [random_init], [attach_originals]). *)
Record Perturbation := {
  pert_model : ThreatModel;
  pert_params : list loc;
  originals : option loc;
}.

(** Modelled from the spec: [threat_model(examples)], a fresh Perturbation
    whose parameters are newly created. *)
Definition threat_model_call (tm : ThreatModel) (examples : loc) : M F Perturbation :=
  t ← read examples;
  ps ← map_M alloc (tm_init tm t);
  mret {| pert_model := tm; pert_params := ps; originals := None |}.

(** Modelled from the spec: [perturbation.parameters()]. *)
Definition parameters (p : Perturbation) : list loc := pert_params p.

(** Modelled from the spec: [perturbation(batch)], "produces perturbed
    inputs of identical shape"; the result depends on the parameters. *)
Definition perturbation_call (p : Perturbation) (x : var) : M F var :=
  vals ← map_M read (pert_params p);
  mret (Var (tm_apply (pert_model p) vals (v_data x)) None
            (pert_params p)
            (tm_vjp (pert_model p) vals (v_data x))).

(** Modelled from the spec: [update_params(fn)], "an update op driven by a
    caller-supplied per-parameter transform": every parameter moves by
    [fn] of its gradient. *)
Definition update_one (fn : tensor F → tensor F) (l : loc) : M F unit :=
  modify_cell l (λ c, match grad c with
                      | Some g => inr (Cell (tadd (data c) (fn g)) (grad c))
                      | None => inl AssertionError
                      end).

Definition update_params (p : Perturbation) (fn : tensor F → tensor F) : M F unit :=
  for_each (pert_params p) (update_one fn);;
  emit (EvUpdateParams (pert_params p)).

(** Modelled from the spec: [zero_grad()], "a gradient-clearing op". *)
Definition zero_grad (p : Perturbation) : M F unit :=
  for_each (pert_params p) clear_grad.

(** Modelled from the spec: [random_init()], "randomize the perturbation's
    parameters within its feasible region". *)
Definition random_init (p : Perturbation) : M F unit :=
  r ← gets (λ w, torch_rng w 0);
  modify (λ w, set_torch_rng (λ i, torch_rng w (S i)) w);;
  vals ← map_M read (pert_params p);
  for_each (zip (pert_params p) (tm_random (pert_model p) r vals)) set_data.

(** Modelled from the spec: [attach_originals(batch)], "records the
    un-perturbed source for later retrieval". *)
Definition attach_originals (p : Perturbation) (examples : loc) : Perturbation :=
  {| pert_model := pert_model p; pert_params := pert_params p;
     originals := Some examples |}.

(** ** The attack loss *)

(** Modelled from the spec: the loss function of [loss_functions] ("given
    model outputs and labels (plus a previously fixed reference batch),
    produces a scalar; supports a setup/cleanup pair that fixes and releases
    per-batch reference state").  It runs the classifier itself, so its
    value and gradients depend on the classifier's mode and weights. *)
Record AttackLoss := {
  loss_fn : option (tensor F) → bool → list (tensor F) → tensor F → tensor F → F;
  loss_grad_input :
    option (tensor F) → bool → list (tensor F) → tensor F → tensor F → tensor F;
  loss_grad_weights :
    option (tensor F) → bool → list (tensor F) → tensor F → tensor F → list (tensor F);
}.

Definition setup_attack_batch (x : var) : M F unit :=
  modify (set_reference (Some (v_data x))).

Definition cleanup_attack_batch : M F unit := modify (set_reference None).

Definition loss_forward (net : Classifier) (L : AttackLoss) (x labels : var) : M F scalar :=
  ref ← gets reference;
  mode ← gets training;
  ws ← weights net;
  mret (Scalar (loss_fn L ref mode ws (v_data x) (v_data labels))
               (zip (v_leaves x)
                    (v_vjp x (loss_grad_input L ref mode ws (v_data x) (v_data labels)))
                ++ zip (net_params net)
                       (loss_grad_weights L ref mode ws (v_data x) (v_data labels)))).

End Model.

Arguments var F : clear implicits.
Arguments scalar F : clear implicits.
Arguments Classifier F : clear implicits.
Arguments Normalizer F : clear implicits.
Arguments Optimizer F : clear implicits.
Arguments ThreatModel F : clear implicits.
Arguments Perturbation F : clear implicits.
Arguments AttackLoss F : clear implicits.

(** * adversarial_attacks_refactor.py *)

Module AdversarialAttack.
Section Defs.
Context {F : Type} `{Float F} `{Torch F}.

(** [class AdversarialAttack], with the [loss_fxn] that both subclasses
    add.  The [use_gpu] flag and the [validator] slot do not influence what
    the attacks compute and are not kept. *)
Record t := {
  classifier_net : Classifier F;
  normalizer : Normalizer F;
  threat_model : ThreatModel F;
  loss_fxn : AttackLoss F;
}.

Definition eval (self : t)
    (ground_examples adversarials labels : loc + var F) : M F (Q * Q) :=
  ground_examples ← safe_var ground_examples;
  adversarials ← safe_var adversarials;
  labels ← safe_var labels;
  let normed_ground := norm_fn (normalizer self) (v_data ground_examples) in
  ground_output ← net_forward (classifier_net self) normed_ground;
  let normed_advs := norm_fn (normalizer self) (v_data adversarials) in
  adv_output ← net_forward (classifier_net self) normed_advs;
  let start_prec := accuracy (v_data ground_output) (v_data labels) in
  let adv_prec := accuracy (v_data adv_output) (v_data labels) in
  mret (start_prec, adv_prec).

Definition eval_attack_only (self : t)
    (adversarials labels : loc + var F) : M F Z :=
  adversarials ← safe_var adversarials;
  labels ← safe_var labels;
  let normed_advs := norm_fn (normalizer self) (v_data adversarials) in
  adv_output ← net_forward (classifier_net self) normed_advs;
  mret (accuracy_int (v_data adv_output) (v_data labels)).

(** [setup] *)
Definition setup (self : t) : M F unit :=
  net_eval;;
  differentiable_call.

Definition print_eval_str (self : t)
    (ground_examples adversarials labels : loc + var F) : M F unit :=
  og_adv ← eval self ground_examples adversarials labels;
  emit (EvPrint "Went from %s correct to %s correct").

(** [iter_no] is an int or a string. *)
Definition validation_loop (self : t)
    (examples labels : var F) (iter_no : nat + string) : M F unit :=
  let normed_input := norm_fn (normalizer self) (v_data examples) in
  new_output ← net_forward (classifier_net self) normed_input;
  let new_prec := accuracy (v_data new_output) (v_data labels) in
  let print_str :=
    match iter_no with
    | inl _ => "(iteration %02d):  %s correct"
    | inr _ => "(%s):  %s correct"
    end%string in
  emit (EvPrint print_str).

End Defs.
Arguments t F : clear implicits.
End AdversarialAttack.

Module FGSM.
Section Defs.
Context {F : Type} `{Float F} `{Torch F}.
Import AdversarialAttack.

Definition attack (self : AdversarialAttack.t F) (examples labels : loc)
    (step_size : F) (verbose : bool) : M F (Perturbation F) :=
  net_eval;;
  perturbation ← threat_model_call (threat_model self) examples;
  var_examples ← mk_Variable (Some examples);
  var_labels ← mk_Variable (Some labels);
  setup_attack_batch var_examples;;
  adv ← perturbation_call perturbation var_examples;
  loss ← loss_forward (classifier_net self) (loss_fxn self) adv var_labels;
  autograd_backward loss;;
  let update_fxn := λ grad_data, scale step_size (torch_sign grad_data) in
  update_params perturbation update_fxn;;
  (if verbose
   then adv ← perturbation_call perturbation var_examples;
        validation_loop self adv var_labels (inr "Post FGSM"%string)
   else mret tt);;
  cleanup_attack_batch;;
  let perturbation := attach_originals perturbation examples in
  mret perturbation.

End Defs.
End FGSM.

Module PGD.
Section Defs.
Context {F : Type} `{Float F} `{Torch F}.
Import AdversarialAttack.

(** One pass of the loop of [attack]; the optimizer is the loop-carried
    object. *)
Definition iteration (self : AdversarialAttack.t F) (perturbation : Perturbation F)
    (var_examples var_labels : var F) (update_fxn : tensor F → tensor F)
    (signed : bool) (validator : var F → var F → nat + string → M F unit)
    (iter_no : nat) (optimizer : Optimizer F) : M F (Optimizer F) :=
  zero_grad perturbation;;
  adv ← perturbation_call perturbation var_examples;
  loss ← loss_forward (classifier_net self) (loss_fxn self) adv var_labels;
  autograd_backward loss;;
  optimizer ← (if signed
               then update_params perturbation update_fxn;; mret optimizer
               else optimizer_step optimizer);
  adv ← perturbation_call perturbation var_examples;
  validator adv var_labels (inl iter_no);;
  mret optimizer.

Definition attack (self : AdversarialAttack.t F) (examples labels : loc)
    (step_size : F) (num_iterations : Z) (random_init_flag signed verbose : bool)
    : M F (Perturbation F) :=
  net_eval;;
  let validator :=
    if negb verbose then (λ ex label iter_no, mret tt) else validation_loop self in
  perturbation ← threat_model_call (threat_model self) examples;
  var_examples ← mk_Variable (Some examples);
  var_labels ← mk_Variable (Some labels);
  setup_attack_batch var_examples;;
  validator var_examples var_labels (inr "START"%string);;
  (if random_init_flag
   then random_init perturbation;;
        adv ← perturbation_call perturbation var_examples;
        validator adv var_labels (inr "RANDOM"%string)
   else mret tt);;
  let optimizer := optim_Adam (parameters perturbation) (5 # 10000) in
  let update_fxn := λ grad_data, scale step_size (torch_sign grad_data) in
  for_range (Z.to_nat num_iterations) 0
    (iteration self perturbation var_examples var_labels update_fxn signed validator)
    optimizer;;
  zero_grad perturbation;;
  cleanup_attack_batch;;
  let perturbation := attach_originals perturbation examples in
  mret perturbation.

End Defs.
End PGD.

(** * adversarial_training.py *)

(** Modelled from the spec: the RunningAverage of [utils.pytorch_utils]
    ("accumulates a weighted mean over an unbounded sequence of (value,
    count) observations"; "the final average equals
    Σ(value_i·count_i)/Σcount_i"). *)
Module AverageMeter.
Record t := { am_sum : Q; am_count : Z; am_avg : Q }.

Definition init : t := {| am_sum := 0; am_count := 0; am_avg := 0 |}.

Definition update (m : t) (val : Q) (n : Z) : exn + t :=
  let sum' := (am_sum m + val * inject_Z n)%Q in
  let count' := (am_count m + n)%Z in
  if decide (count' = 0)%Z then inl ZeroDivisionError
  else inr {| am_sum := sum'; am_count := count';
              am_avg := (sum' / inject_Z count')%Q |}.
End AverageMeter.

(** The attack classes of module [adversarial_attacks], which is not among
    the sources: the wrapper only dispatches on the class and calls the
    methods below. *)
Inductive attack_class := IsFGSM | IsBIM | IsLInfPGD | IsCWL2 | IsOther.

Record AttackObject (F : Type) := {
  ao_class : attack_class;
  ao_classifier_net : Classifier F;
  (* [attack(inputs, labels, **attack_kwargs)] *)
  ao_attack : loc → loc → M F loc;
  (* [CWL2.filter_outputs(output, cutoff_metric=cutoff)] *)
  ao_filter_outputs : loc → M F loc;
  ao_eval : loc + var F → loc + var F → loc + var F → M F (Q * Q);
  ao_eval_attack_only : loc + var F → loc + var F → M F Z;
}.
Arguments ao_class {F} a.
Arguments ao_classifier_net {F} a.
Arguments ao_attack {F} a.
Arguments ao_filter_outputs {F} a.
Arguments ao_eval {F} a.
Arguments ao_eval_attack_only {F} a.

Module AdversarialAttackParameters.
Section Defs.
Context {F : Type} `{Float F} `{Torch F}.

Record t := {
  adv_attack_obj : AttackObject F;
  proportion_attacked : Q;
  output_filter : loc → M F loc;
}.

(** [__init__] *)
Definition init (adv_attack_obj : AttackObject F) (proportion_attacked : Q)
    : exn + t :=
  match ao_class adv_attack_obj with
  | IsFGSM | IsBIM | IsLInfPGD =>
      inr {| adv_attack_obj := adv_attack_obj;
             proportion_attacked := proportion_attacked;
             output_filter := λ d, mret d |}
  | IsCWL2 =>
      inr {| adv_attack_obj := adv_attack_obj;
             proportion_attacked := proportion_attacked;
             output_filter := ao_filter_outputs adv_attack_obj |}
  | IsOther => inl InvalidAttack
  end.

(** The attack object's [use_gpu] attribute is outside the store; the
    assignment is logged. *)
Definition set_gpu (self : t) (use_gpu : bool) : M F unit :=
  emit (EvSetGpu use_gpu).

(** [selected_idxs] as the list built on lines 93-94. *)
Definition select (self : t) (num_elements : nat) : M F (list nat) :=
  s ← random_sample (range num_elements)
        (py_int (float_times_int (proportion_attacked self) (Z.of_nat num_elements)));
  mret (sorted s).

Definition attack (self : t) (inputs labels : loc)
    : M F (option loc * option loc * option loc) :=
  t_inputs ← read inputs;
  let num_elements := shape0 t_inputs in
  selected_idxs ← select self num_elements;
  (* inputs.new(selected_idxs).long() *)
  selected_idxs ← alloc (LongTensor (Z.of_nat <$> selected_idxs));
  t_idxs ← read selected_idxs;
  if decide (numel t_idxs = 0) then mret (None, None, None)
  else
    adv_inputs ← index_select inputs (Some selected_idxs);
    pre_adv_labels ← index_select labels (Some selected_idxs);
    adv_examples ← ao_attack (adv_attack_obj self) adv_inputs pre_adv_labels;
    adv_examples ← output_filter self adv_examples;
    mret (Some adv_examples, Some pre_adv_labels, Some selected_idxs).

Definition eval (self : t) (ground_inputs : loc) (adv_inputs : option loc)
    (labels : loc) (idxs : option loc) : M F (Q * Q) :=
  selected_grounds ← index_select ground_inputs idxs;
  selected_labels ← index_select labels idxs;
  match adv_inputs with
  | Some adv => ao_eval (adv_attack_obj self) (inl selected_grounds) (inl adv)
                        (inl selected_labels)
  | None => raise TypeError
  end.

Definition eval_attack_only (self : t) (adv_inputs labels : var F) : M F Z :=
  ao_eval_attack_only (adv_attack_obj self) (inr adv_inputs) (inr labels).

End Defs.
Arguments t F : clear implicits.
End AdversarialAttackParameters.

Module AdversarialTraining.
Section Defs.
Context {F : Type} `{Float F} `{Torch F}.
Import AdversarialAttackParameters.

Record t := {
  classifier_net : Classifier F;
  normalizer : Normalizer F;
  experiment_name : string;
  architecture_name : string;
  verbosity_level : option Z;
  verbosity_minibatch : option Z;
  verbosity_adv : option Z;
  verbosity_epoch : option Z;
}.

(** The [loss_fxn] argument of [train] (given): its value on logits and
    labels, and its gradient on the logits. *)
Record Loss := {
  loss_value : tensor F → tensor F → F;
  loss_grad : tensor F → tensor F → tensor F;
}.

Definition loss_forward (loss_fxn : Loss) (outputs labels : var F) : scalar F :=
  Scalar (loss_value loss_fxn (v_data outputs) (v_data labels))
         (zip (v_leaves outputs)
              (v_vjp outputs (loss_grad loss_fxn (v_data outputs) (v_data labels)))).

Definition set_verbosity (self : t) (verbosity : option string) : exn + t :=
  match verbosity with
  | None => inl AssertionError
  | Some v =>
      let level :=
        if String.eqb v "low" then Some 0%Z
        else if String.eqb v "medium" then Some 1%Z
        else if String.eqb v "high" then Some 2%Z
        else if String.eqb v "snoop" then Some 420%Z
        else None in
      let minibatch :=
        if String.eqb v "medium" then Some 2000%Z
        else if String.eqb v "high" then Some 100%Z
        else if String.eqb v "snoop" then Some 1%Z
        else None in
      let epoch :=
        if String.eqb v "low" then Some 100%Z
        else if String.eqb v "medium" then Some 10%Z
        else if String.eqb v "high" then Some 1%Z
        else if String.eqb v "snoop" then Some 1%Z
        else None in
      match level with
      | None => inl AssertionError
      | Some _ =>
          inr {| classifier_net := classifier_net self;
                 normalizer := normalizer self;
                 experiment_name := experiment_name self;
                 architecture_name := architecture_name self;
                 verbosity_level := level;
                 verbosity_minibatch := minibatch;
                 verbosity_adv := minibatch;
                 verbosity_epoch := epoch |}
      end
  end.

Definition _attack_subroutine (self : t)
    (attack_parameters : option (AdversarialAttackParameters.t F))
    (inputs labels : loc) (epoch_num minibatch_num : nat) : M F (loc * loc) :=
  match attack_parameters with
  | None => mret (inputs, labels)
  | Some attack_parameters =>
      adv_data ← attack attack_parameters inputs labels;
      let '(adv_inputs, adv_labels, adv_idxs) := adv_data in
      report ← cadence (verbosity_level self) (verbosity_adv self) minibatch_num;
      (if report : bool
       then accuracy ← eval attack_parameters inputs adv_inputs labels adv_idxs;
            emit (EvPrint "[%d, %5d] accuracy: (%.3f, %.3f)")
       else mret tt);;
      inputs ← torch_cat (Some inputs) adv_inputs;
      labels ← torch_cat (Some labels) adv_labels;
      mret (inputs, labels)
  end.

(** [optimizer or optim.Adam(self.classifier_net.parameters(), lr=0.001)] *)
Definition outer_optimizer (self : t) (optimizer : option (Optimizer F)) : Optimizer F :=
  match optimizer with
  | Some o => o
  | None => optim_Adam (net_params (classifier_net self)) (1 # 1000)
  end.

(** The body of the minibatch loop of [train]; the loop carries the
    optimizer and [running_loss]. *)
Definition minibatch_step (self : t) (loss_fxn : Loss)
    (attack_parameters : option (AdversarialAttackParameters.t F))
    (use_gpu : bool) (epoch i : nat) (data : tensor F * tensor F)
    (st : Optimizer F * F) : M F (Optimizer F * F) :=
  let '(optimizer, running_loss) := st in
  inputs ← alloc data.1;
  labels ← alloc data.2;
  inputs ← (if use_gpu then cuda inputs else mret inputs);
  labels ← (if use_gpu then cuda labels else mret labels);
  (* Build adversarial examples *)
  il ← _attack_subroutine self attack_parameters inputs labels epoch i;
  let '(inputs, labels) := il in
  (* Now proceed with standard training *)
  differentiable_call;;
  net_train;;
  inputs ← mk_Variable (Some inputs);
  labels ← mk_Variable (Some labels);
  optimizer_zero_grad optimizer;;
  outputs ← net_forward (classifier_net self) (norm_fn (normalizer self) (v_data inputs));
  let loss := loss_forward loss_fxn outputs labels in
  autograd_backward loss;;
  optimizer ← optimizer_step optimizer;
  let running_loss := f_add running_loss (s_value loss) in
  report ← cadence (verbosity_level self) (verbosity_minibatch self) i;
  if report : bool
  then emit (EvPrint "[%d, %5d] loss: %.3f");; mret (optimizer, f_zero)
  else mret (optimizer, running_loss).

(** The body of the epoch loop of [train]. *)
Definition epoch_step (self : t) (data_loader : nat → list (tensor F * tensor F))
    (loss_fxn : Loss) (attack_parameters : option (AdversarialAttackParameters.t F))
    (use_gpu : bool) (epoch : nat) (optimizer : Optimizer F) : M F (Optimizer F) :=
  st ← for_enum (data_loader epoch) 0
         (minibatch_step self loss_fxn attack_parameters use_gpu epoch)
         (optimizer, f_zero);
  (match verbosity_epoch self with
   | None => if decide (0 < epoch) then raise TypeError else mret tt
   | Some e =>
       if decide (0 < epoch)
       then if decide (e = 0)%Z then raise ZeroDivisionError
            else if decide (Z.of_nat epoch `mod` e = 0)%Z
                 then emit (EvPrint "COMPLETED EPOCH %04d... checkpointing here");;
                      emit (EvCheckpoint epoch)
                 else mret tt
       else mret tt
   end);;
  mret st.1.

Definition train (self : t) (data_loader : nat → list (tensor F * tensor F))
    (num_epochs : Z) (loss_fxn : Loss) (optimizer : option (Optimizer F))
    (attack_parameters : option (AdversarialAttackParameters.t F))
    (use_gpu : bool) (verbosity : option string) : M F unit :=
  net_train;;
  (match attack_parameters with
   | Some ap =>
       if decide (net_id (ao_classifier_net (adv_attack_obj ap))
                  = net_id (classifier_net self))
       then mret tt else raise AssertionError
   | None => mret tt
   end);;
  (if use_gpu && negb cuda_is_available then raise AssertionError else mret tt);;
  (if use_gpu then net_cuda else mret tt);;
  (match attack_parameters with
   | Some ap => set_gpu ap use_gpu
   | None => raise AttributeError
   end);;
  (* Verbosity parameters *)
  self ← lift (set_verbosity self verbosity);
  (* setup loss fxn, optimizer *)
  let optimizer := outer_optimizer self optimizer in
  for_range (Z.to_nat num_epochs) 0
    (epoch_step self data_loader loss_fxn attack_parameters use_gpu) optimizer;;
  (if ge_1 (verbosity_level self) then emit (EvPrint "Finished Training") else mret tt).

End Defs.
Arguments t F : clear implicits.
Arguments Loss F : clear implicits.
End AdversarialTraining.

Module AdversarialEvaluation.
Section Defs.
Context {F : Type} `{Float F} `{Torch F}.
Import AdversarialAttackParameters.

Record t := {
  classifier_net : Classifier F;
  normalizer : Normalizer F;
}.

(** [meter = validation_results[name]; meter.update(val, n=n)] *)
Definition update_meter (validation_results : gmap string AverageMeter.t)
    (name : string) (val : Q) (n : Z) : M F (gmap string AverageMeter.t) :=
  match validation_results !! name with
  | None => raise KeyError
  | Some meter =>
      meter ← lift (AverageMeter.update meter val n);
      mret (<[name := meter]> validation_results)
  end.

(** The body of the loop over the ensemble (lines 461-474). *)
Definition attack_step (var_inputs var_labels : var F) (minibatch : Q)
    (i : nat) (item : string * AdversarialAttackParameters.t F)
    (validation_results : gmap string AverageMeter.t)
    : M F (gmap string AverageMeter.t) :=
  let '(attack_name, attack_params) := item in
  emit (EvPrint "\t (mb: %s) evaluating %s...");;
  inputs_data ← var_data var_inputs;
  labels_data ← var_data var_labels;
  attack_out_tuple ← attack attack_params inputs_data labels_data;
  attack_examples ← mk_Variable (attack_out_tuple.1.1);
  pre_adv_labels ← mk_Variable (attack_out_tuple.1.2);
  attack_accuracy_int ← eval_attack_only attack_params attack_examples pre_adv_labels;
  val ← py_div (inject_Z attack_accuracy_int) minibatch;
  update_meter validation_results attack_name val (py_int minibatch).

(** The body of the loop over minibatches, after the [break] test. *)
Definition minibatch_step (self : t)
    (attack_ensemble : list (string * AdversarialAttackParameters.t F))
    (use_gpu : bool) (i : nat) (data : tensor F * tensor F)
    (validation_results : gmap string AverageMeter.t)
    : M F (gmap string AverageMeter.t) :=
  inputs ← alloc data.1;
  labels ← alloc data.2;
  inputs ← (if use_gpu then cuda inputs else mret inputs);
  labels ← (if use_gpu then cuda labels else mret labels);
  var_inputs ← mk_Variable (Some inputs);
  var_labels ← mk_Variable (Some labels);
  let minibatch := inject_Z (Z.of_nat (shape0 (v_data var_inputs))) in
  (* Do ground classification *)
  ground_output ← net_forward (classifier_net self)
                    (norm_fn (normalizer self) (v_data var_inputs));
  let ground_accuracy_int := accuracy_int (v_data ground_output) (v_data var_labels) in
  val ← py_div (inject_Z ground_accuracy_int) minibatch;
  validation_results ← update_meter validation_results "ground" val (py_int minibatch);
  (* Loop through each attack in the ensemble *)
  for_enum attack_ensemble 0
    (λ _, attack_step var_inputs var_labels minibatch i) validation_results.

(** The loop over minibatches, with its [break]. *)
Fixpoint minibatch_loop (self : t)
    (attack_ensemble : list (string * AdversarialAttackParameters.t F))
    (use_gpu : bool) (num_minibatches : option Z) (i : nat)
    (batches : list (tensor F * tensor F))
    (validation_results : gmap string AverageMeter.t)
    : M F (gmap string AverageMeter.t) :=
  match batches with
  | [] => mret validation_results
  | data :: rest =>
      emit (EvPrint "Starting minibatch %s...");;
      if match num_minibatches with
         | Some n => bool_decide (n ≤ Z.of_nat i)%Z
         | None => false
         end
      then mret validation_results
      else
        validation_results ←
          minibatch_step self attack_ensemble use_gpu i data validation_results;
        minibatch_loop self attack_ensemble use_gpu num_minibatches (S i) rest
                       validation_results
  end.

(** [attack_ensemble] is the dict in the order its items are iterated. *)
Definition evaluate (self : t) (data_loader : list (tensor F * tensor F))
    (attack_ensemble : list (string * AdversarialAttackParameters.t F))
    (use_gpu : bool) (num_minibatches : option Z) : M F (gmap string Q) :=
  net_eval;;
  (if bool_decide ("ground"%string ∈ attack_ensemble.*1)
   then raise AssertionError else mret tt);;
  let validation_results : gmap string AverageMeter.t :=
    list_to_map ((λ k, (k, AverageMeter.init)) <$> (attack_ensemble.*1 ++ ["ground"%string])) in
  (if use_gpu && negb cuda_is_available then raise AssertionError else mret tt);;
  (if use_gpu then net_cuda else mret tt);;
  for_each attack_ensemble.*2 (λ attack_params, set_gpu attack_params use_gpu);;
  validation_results ←
    minibatch_loop self attack_ensemble use_gpu num_minibatches 0 data_loader
                   validation_results;
  mret (AverageMeter.am_avg <$> validation_results).

End Defs.
Arguments t F : clear implicits.
End AdversarialEvaluation.

(** * A small concrete instance

    Integer entries, a classifier that returns its input as logits, an
    additive perturbation.  Used to run the definitions on concrete
    batches. *)
Module Toy.

#[global] Instance Z_Float : Float Z :=
  {| f_zero := 0%Z; f_add := Z.add; f_mul := Z.mul; f_sign := Z.sgn |}.

(** A row is classified correctly when its single logit is its label. *)
Definition count_correct (out labels : tensor Z) : Z :=
  match out, labels with
  | FloatTensor rows, LongTensor ys =>
      Z.of_nat (length (filter (λ ry, ry.1 = [ry.2]) (zip rows ys)))
  | _, _ => 0%Z
  end.

Definition percent_correct (out labels : tensor Z) : Q :=
  match out with
  | FloatTensor [] => 0
  | _ => (100 * inject_Z (count_correct out labels) / inject_Z (Z.of_nat (shape0 out)))%Q
  end.

(** Gradient descent with unit rate stands in for Adam. *)
Definition descent (lr : Q) (seen : list (list (option (tensor Z))))
    (vals : list (tensor Z)) : list (tensor Z) :=
  match last seen with
  | Some gs => zip_with (λ v g, from_option (tzip Z.sub v) v g) vals gs
  | None => vals
  end.

#[global] Instance toy_torch : Torch Z :=
  {| adam_rule := descent; accuracy := percent_correct;
     accuracy_int := count_correct; cuda_is_available := false;
     patience := 64 |}.

Definition net : Classifier Z :=
  {| net_id := 0; net_params := [0];
     net_fn := λ _ _ x, x;
     net_vjp := λ _ ws _ _, zeros_like <$> ws |}.

Definition norm : Normalizer Z := {| norm_fn := λ x, x |}.

Definition additive : ThreatModel Z :=
  {| tm_init := λ t, [zeros_like t];
     tm_apply := λ ps x, from_option (tadd x) x (head ps);
     tm_vjp := λ _ _ up, [up];
     tm_random := λ r ps, tmap (λ _, Z.of_nat r) <$> ps |}.

(** A loss whose gradient on the perturbed batch is the reference batch
    shifted by one. *)
Definition loss : AttackLoss Z :=
  {| loss_fn := λ _ _ _ _ _, 0%Z;
     loss_grad_input := λ ref _ _ x _, tmap (Z.add 1) (default x ref);
     loss_grad_weights := λ _ _ ws _ _, zeros_like <$> ws |}.

Definition engine : AdversarialAttack.t Z :=
  {| AdversarialAttack.classifier_net := net;
     AdversarialAttack.normalizer := norm;
     AdversarialAttack.threat_model := additive;
     AdversarialAttack.loss_fxn := loss |}.

(** An attack object whose attack hands back the examples it was given. *)
Definition attack_obj : AttackObject Z :=
  {| ao_class := IsFGSM; ao_classifier_net := net;
     ao_attack := λ adv_inputs _, mret adv_inputs;
     ao_filter_outputs := mret;
     ao_eval := AdversarialAttack.eval engine;
     ao_eval_attack_only := AdversarialAttack.eval_attack_only engine |}.

Definition params (p : Q) : AdversarialAttackParameters.t Z :=
  {| AdversarialAttackParameters.adv_attack_obj := attack_obj;
     AdversarialAttackParameters.proportion_attacked := p;
     AdversarialAttackParameters.output_filter := mret |}.

(** An attack object that runs the engine's single-step attack with step
    size 2 and hands back the perturbed examples as a new tensor. *)
Definition fgsm_attack_obj : AttackObject Z :=
  {| ao_class := IsFGSM; ao_classifier_net := net;
     ao_attack := λ adv_inputs labels,
       p ← FGSM.attack engine adv_inputs labels 2%Z false;
       x ← mk_Variable (Some adv_inputs);
       adv ← perturbation_call p x;
       var_data adv;
     ao_filter_outputs := mret;
     ao_eval := AdversarialAttack.eval engine;
     ao_eval_attack_only := AdversarialAttack.eval_attack_only engine |}.

Definition fgsm_params (p : Q) : AdversarialAttackParameters.t Z :=
  {| AdversarialAttackParameters.adv_attack_obj := fgsm_attack_obj;
     AdversarialAttackParameters.proportion_attacked := p;
     AdversarialAttackParameters.output_filter := mret |}.

Definition batch_inputs : tensor Z := FloatTensor [[0%Z]; [1%Z]].
Definition batch_labels : tensor Z := LongTensor [0%Z; 1%Z].

(** The store: the classifier's weight at 0, a batch of two examples at 1
    and its labels at 2. *)
Definition w0 : world Z :=
  World [Cell (FloatTensor [[1%Z]]) None; Cell batch_inputs None; Cell batch_labels None]
        true None (λ _, 0) (λ i, i).

Definition trainer : AdversarialTraining.t Z :=
  {| AdversarialTraining.classifier_net := net;
     AdversarialTraining.normalizer := norm;
     AdversarialTraining.experiment_name := "exp";
     AdversarialTraining.architecture_name := "arch";
     AdversarialTraining.verbosity_level := None;
     AdversarialTraining.verbosity_minibatch := None;
     AdversarialTraining.verbosity_adv := None;
     AdversarialTraining.verbosity_epoch := None |}.

Definition train_loss : AdversarialTraining.Loss Z :=
  {| AdversarialTraining.loss_value := λ _ _, 0%Z;
     AdversarialTraining.loss_grad := λ out _, out |}.

Definition evaluator : AdversarialEvaluation.t Z :=
  {| AdversarialEvaluation.classifier_net := net;
     AdversarialEvaluation.normalizer := norm |}.

End Toy.

(** * Vocabulary of the properties *)

Section Frames.
Context {F : Type}.

(** Two cells hold the same tensor data (their gradients may differ). *)
Definition same_data (c c' : cell F) : Prop := data c = data c'.

(** From [w] to [w'] the store only grew, and every object that existed
    below [n] and is not in [X] is kept, up to [keep]. *)
Definition frame (keep : relation (cell F)) (X : list loc) (n : nat)
    (w w' : world F) : Prop :=
  length (heap w) ≤ length (heap w') ∧
  ∀ l c, l < n → l ∉ X → heap w !! l = Some c →
         ∃ c', heap w' !! l = Some c' ∧ keep c c'.

(** Run in a store that holds at least [n] objects, [m] respects the frame
    whether it returns or raises, logs only events satisfying [ψ], and
    returns only values satisfying [φ]. *)
Definition respects (keep : relation (cell F)) (X : list loc) (n : nat)
    (ψ : event → Prop) {A} (m : M F A) (φ : A → Prop) : Prop :=
  ∀ w, n ≤ length (heap w) →
       frame keep X n w (final (m w)) ∧
       Forall ψ (m w).1 ∧
       match result_of (m w) with Some a => φ a | None => True end.

(** Whatever [m] returns satisfies [φ]. *)
Definition returns {A} (m : M F A) (φ : A → Prop) : Prop :=
  ∀ w a, result_of (m w) = Some a → φ a.

(** The data held at a list of locations. *)
Definition data_at (w : world F) (ls : list loc) : list (option (tensor F)) :=
  (λ l, data <$> heap w !! l) <$> ls.

(** Newly created tensors: no gradient yet. *)
Definition fresh_cells (ts : list (tensor F)) : list (cell F) :=
  (λ t, Cell t None) <$> ts.

(** The perturbation that [threat_model(examples)] creates in [w] for the
    batch [t]. *)
Definition created (tm : ThreatModel F) (t : tensor F) (w : world F) : Perturbation F :=
  {| pert_model := tm;
     pert_params := seq (length (heap w)) (length (tm_init tm t));
     originals := None |}.

(** The world with other generator states. *)
Definition with_rngs (py torch : nat → nat) (w : world F) : world F :=
  World (heap w) (training w) (reference w) py torch.

(** In-place changes applied one after the other. *)
Definition alter_all (ops : list (loc * (cell F → cell F))) (h : list (cell F))
    : list (cell F) :=
  foldl (λ h op, alter op.2 op.1 h) h ops.

(** What a backward pass, a gradient clear and an assignment of new data do
    to a cell. *)
Definition accumulated `{Float F} (g : tensor F) (c : cell F) : cell F :=
  Cell (data c) (Some (match grad c with
                       | None => g
                       | Some g0 => tadd g0 g
                       end)).
Definition cleared `{Float F} (c : cell F) : cell F :=
  Cell (data c) (zeros_like <$> grad c).
Definition with_data (t : tensor F) (c : cell F) : cell F := Cell t (grad c).

(** What [update_params fn] does to a parameter that has a gradient. *)
Definition stepped `{Float F} (fn : tensor F → tensor F) (c : cell F) : cell F :=
  match grad c with
  | Some g => Cell (tadd (data c) (fn g)) (grad c)
  | None => c
  end.

(** Reading the locations [ls] in the store [h] gives the tensors [ts]. *)
Definition reads (h : list (cell F)) (ls : list loc) (ts : list (tensor F)) : Prop :=
  Forall2 (λ l t, (data <$> h) !! l = Some t) ls ts.

(** What the validator prints. *)
Definition validator_log (verbose : bool) (iter_no : nat + string) : list event :=
  if verbose
  then [EvPrint (match iter_no with
                 | inl _ => "(iteration %02d):  %s correct"
                 | inr _ => "(%s):  %s correct"
                 end)]
  else [].

(** A run restarted with other generator states. *)
Definition reseed (py torch : nat → nat) {A} (r : list event * outcome F A)
    : list event * outcome F A :=
  (r.1, match r.2 with
        | Ok a w => Ok a (with_rngs py torch w)
        | Raise e w => Raise e (with_rngs py torch w)
        end).

(** [m] neither reads nor advances the random generators: whatever their
    state, it logs the same events, returns the same value (or raises the
    same exception) and ends in the same world, generators aside, which are
    left as they were. *)
Definition rng_free {A} (m : M F A) : Prop :=
  ∀ w py torch, m (with_rngs py torch w) = reseed py torch (m w).

End Frames.

Section WrapperVocabulary.
Context {F : Type}.
Import AdversarialAttackParameters.

(** What is asked of the attack object bound in the wrapper: it writes only
    to the tensors it is handed, to the objects [X] it holds itself and to
    objects it creates. *)
Definition well_behaved (X : list loc) (ap : AdversarialAttackParameters.t F) : Prop :=
  (∀ n a b, n ≤ a → n ≤ b →
     respects eq X n (λ _, True) (ao_attack (adv_attack_obj ap) a b) (λ _, True)) ∧
  (∀ n r, respects eq X n (λ _, True) (output_filter ap r) (λ _, True)) ∧
  (∀ n g a l, respects eq X n (λ _, True) (ao_eval (adv_attack_obj ap) g a l) (λ _, True)).

(** The events an attack on the perturbation parameters [ps] may log: its
    parameter updates and optimizer steps are over exactly [ps]. *)
Definition attack_event (ps : list loc) (e : event) : Prop :=
  match e with
  | EvPrint _ | EvBackward => True
  | EvUpdateParams qs | EvOptimStep qs => qs = ps
  | EvOptimZeroGrad _ | EvSetGpu _ | EvCheckpoint _ => False
  end.

End WrapperVocabulary.

Section AfterCreation.
Context {F : Type} {HF : Float F} {HT : Torch F}.
Import AdversarialAttack.

(** [FGSM.attack] from the point where the perturbation exists. *)
Definition FGSM_after_creation (self : AdversarialAttack.t F) (perturbation : Perturbation F)
    (examples labels : loc) (step_size : F) (verbose : bool) : M F (Perturbation F) :=
  var_examples ← mk_Variable (Some examples);
  var_labels ← mk_Variable (Some labels);
  setup_attack_batch var_examples;;
  adv ← perturbation_call perturbation var_examples;
  loss ← loss_forward (classifier_net self) (loss_fxn self) adv var_labels;
  autograd_backward loss;;
  let update_fxn := λ grad_data, scale step_size (torch_sign grad_data) in
  update_params perturbation update_fxn;;
  (if verbose
   then adv ← perturbation_call perturbation var_examples;
        validation_loop self adv var_labels (inr "Post FGSM"%string)
   else mret tt);;
  cleanup_attack_batch;;
  let perturbation := attach_originals perturbation examples in
  mret perturbation.

(** [PGD.attack] from the point where the perturbation exists. *)
Definition PGD_after_creation (self : AdversarialAttack.t F) (perturbation : Perturbation F)
    (examples labels : loc) (step_size : F) (num_iterations : Z)
    (random_init_flag signed verbose : bool) : M F (Perturbation F) :=
  let validator :=
    if negb verbose then (λ ex label iter_no, mret tt) else validation_loop self in
  var_examples ← mk_Variable (Some examples);
  var_labels ← mk_Variable (Some labels);
  setup_attack_batch var_examples;;
  validator var_examples var_labels (inr "START"%string);;
  (if random_init_flag
   then random_init perturbation;;
        adv ← perturbation_call perturbation var_examples;
        validator adv var_labels (inr "RANDOM"%string)
   else mret tt);;
  let optimizer := optim_Adam (parameters perturbation) (5 # 10000) in
  let update_fxn := λ grad_data, scale step_size (torch_sign grad_data) in
  for_range (Z.to_nat num_iterations) 0
    (PGD.iteration self perturbation var_examples var_labels update_fxn signed validator)
    optimizer;;
  zero_grad perturbation;;
  cleanup_attack_batch;;
  let perturbation := attach_originals perturbation examples in
  mret perturbation.

(** The gradients that one backward pass of the attack loss hands out when
    the perturbation parameters hold [vals]: one per parameter of the
    perturbation, one per weight of the classifier. *)
Definition parameter_gradients (self : AdversarialAttack.t F)
    (ref : option (tensor F)) (mode : bool) (ws vals : list (tensor F))
    (x labels : tensor F) : list (tensor F) :=
  tm_vjp (threat_model self) vals x
    (loss_grad_input (loss_fxn self) ref mode ws
       (tm_apply (threat_model self) vals x) labels).

Definition backward_graph (self : AdversarialAttack.t F) (ps : list loc)
    (ref : option (tensor F)) (mode : bool) (ws vals : list (tensor F))
    (x labels : tensor F) : list (loc * tensor F) :=
  zip ps (parameter_gradients self ref mode ws vals x labels)
  ++ zip (net_params (classifier_net self))
         (loss_grad_weights (loss_fxn self) ref mode ws
            (tm_apply (threat_model self) vals x) labels).

(** The store after a backward pass over [graph], after a sign step on the
    parameters [ps], after a gradient clear on [ps]. *)
Definition after_backward (graph : list (loc * tensor F)) : list (cell F) → list (cell F) :=
  alter_all ((λ lg, (lg.1, accumulated lg.2)) <$> graph).
Definition after_update (ps : list loc) (fn : tensor F → tensor F)
    : list (cell F) → list (cell F) :=
  alter_all ((λ l, (l, stepped fn)) <$> ps).
Definition after_clear (ps : list loc) : list (cell F) → list (cell F) :=
  alter_all ((λ l, (l, cleared)) <$> ps).
Definition after_assign (ps : list loc) (ts : list (tensor F))
    : list (cell F) → list (cell F) :=
  alter_all ((λ lt, (lt.1, with_data lt.2)) <$> zip ps ts).

(** The update function of both attacks. *)
Definition sign_step (step_size : F) : tensor F → tensor F :=
  λ grad_data, scale step_size (torch_sign grad_data).

(** The world once the classifier is in inference mode and the perturbation
    for the batch [tx] is created. *)
Definition attack_start (self : AdversarialAttack.t F) (tx : tensor F) (w : world F)
    : world F :=
  set_heap (λ h, h ++ fresh_cells (tm_init (threat_model self) tx))
           (set_training false w).

(** The world in which the single-step attack ends, for a batch [tx] with
    labels [tl] and classifier weights [ws]. *)
Definition FGSM_final (self : AdversarialAttack.t F) (w : world F)
    (tx tl : tensor F) (ws : list (tensor F)) (step_size : F) : world F :=
  let p := created (threat_model self) tx w in
  let graph := backward_graph self (pert_params p) (Some tx) false ws
                 (tm_init (threat_model self) tx) tx tl in
  set_reference None
    (set_heap (after_update (pert_params p) (sign_step step_size))
       (set_heap (after_backward graph)
          (set_reference (Some tx) (attack_start self tx w)))).

(** The world after [random_init] (when asked for) on the newly created
    perturbation. *)
Definition initialised (self : AdversarialAttack.t F) (w : world F) (tx : tensor F)
    (random_init_flag : bool) : world F :=
  let p := created (threat_model self) tx w in
  let init := tm_init (threat_model self) tx in
  if random_init_flag
  then set_heap (after_assign (pert_params p)
                   (tm_random (threat_model self) (torch_rng w 0) init))
         (set_torch_rng (λ i, torch_rng w (S i)) (attack_start self tx w))
  else attack_start self tx w.

End AfterCreation.

Section Observers.
Context {F : Type} {HF : Float F} {HT : Torch F}.

(** [m] only looks: whatever the store, returning or raising, it ends in
    the world it started in, and it logs at most [k] events. *)
Definition observer (k : nat) {A} (m : M F A) : Prop :=
  ∀ w, final (m w) = w ∧ length (m w).1 ≤ k.

(** The tensor behind an argument that is a tensor or a Variable. *)
Definition held (w : world F) (x : loc + var F) (t : tensor F) : Prop :=
  match x with
  | inl l => data <$> heap w !! l = Some t
  | inr v => v_data v = t
  end.

(** What the classifier of an attack answers on the batch [x], in the mode
    it is in and with the weights [ws]. *)
Definition logits (self : AdversarialAttack.t F) (mode : bool) (ws : list (tensor F))
    (x : tensor F) : tensor F :=
  net_fn (AdversarialAttack.classifier_net self) mode ws
         (norm_fn (AdversarialAttack.normalizer self) x).

End Observers.

Section WrapperRuns.
Context {F : Type} {HF : Float F} {HT : Torch F}.
Import AdversarialAttackParameters.

(** [xs] are the entries of [rows] at the positions [sel], in that order. *)
Definition rows_at {A} (rows : list A) (sel : list nat) (xs : list A) : Prop :=
  Forall2 (λ i x, rows !! i = Some x) sel xs.

(** The world in which the wrapper calls the attack object: [t] draws of
    Python's generator are consumed and three tensors are new, the index
    tensor, the selected examples and the selected labels. *)
Definition selected_world (t : nat) (sel : list nat) (xs : list (list F)) (ls : list Z)
    (w : world F) : world F :=
  set_heap (λ h, h ++ [Cell (LongTensor (Z.of_nat <$> sel)) None;
                       Cell (FloatTensor xs) None;
                       Cell (LongTensor ls) None])
           (after_draws t w).


(** An attack object whose [attack], followed by the wrapper's output
    filter, handed a batch of examples and as many labels in a store that
    holds the weights of its classifier, returns a float tensor with as
    many rows as the batch, and changes the data of no tensor that existed
    before the call (gradients may accumulate on them). *)
Definition shape_preserving (ap : AdversarialAttackParameters.t F) : Prop :=
  ∀ a b w xs ls ga gb ws,
    heap w !! a = Some (Cell (FloatTensor xs) ga) →
    heap w !! b = Some (Cell (LongTensor ls) gb) →
    length ls = length xs →
    reads (heap w) (net_params (ao_classifier_net (adv_attack_obj ap))) ws →
    ∃ ev1 adv1 w1 ev2 adv w' xs' g',
      ao_attack (adv_attack_obj ap) a b w = (ev1, Ok adv1 w1) ∧
      output_filter ap adv1 w1 = (ev2, Ok adv w') ∧
      frame same_data [] (length (heap w)) w w' ∧
      heap w' !! adv = Some (Cell (FloatTensor xs') g') ∧ length xs' = length xs.

End WrapperRuns.

Section TrainingVocabulary.
Context {F : Type} {HF : Float F} {HT : Torch F}.
Import AdversarialAttackParameters AdversarialTraining.

Definition verbosity_names : list string := ["low"; "medium"; "high"; "snoop"]%string.

(** The number of epochs from one checkpoint to the next, by verbosity. *)
Definition epoch_cadence (v : string) : Z :=
  if String.eqb v "low" then 100 else if String.eqb v "medium" then 10 else 1.

(** The number of minibatches from one report to the next, above low
    verbosity. *)
Definition minibatch_cadence (v : string) : Z :=
  if String.eqb v "medium" then 2000 else if String.eqb v "high" then 100 else 1.

(** [train] from the point where its arguments are validated and the
    verbosity is set. *)
Definition training_loop (self : AdversarialTraining.t F)
    (data_loader : nat → list (tensor F * tensor F)) (num_epochs : Z)
    (loss_fxn : AdversarialTraining.Loss F) (optimizer : option (Optimizer F))
    (attack_parameters : option (AdversarialAttackParameters.t F)) (use_gpu : bool)
    : M F unit :=
  for_range (Z.to_nat num_epochs) 0
    (epoch_step self data_loader loss_fxn attack_parameters use_gpu)
    (outer_optimizer self optimizer);;
  (if ge_1 (verbosity_level self) then emit (EvPrint "Finished Training") else mret tt).

(** Every event that [m] logs, in any run, satisfies [ψ]. *)
Definition logs (ψ : event → Prop) {A} (m : M F A) : Prop :=
  ∀ w, Forall ψ (m w).1.

(** The attack object bound in the wrapper logs only events that satisfy
    [ψ]. *)
Definition attack_logs (ψ : event → Prop) (ap : AdversarialAttackParameters.t F) : Prop :=
  (∀ a b, logs ψ (ao_attack (adv_attack_obj ap) a b)) ∧
  (∀ r, logs ψ (output_filter ap r)) ∧
  (∀ g a l, logs ψ (ao_eval (adv_attack_obj ap) g a l)) ∧
  (∀ a l, logs ψ (ao_eval_attack_only (adv_attack_obj ap) a l)).

Definition no_checkpoint (e : event) : Prop :=
  match e with
  | EvCheckpoint _ => False
  | _ => True
  end.

End TrainingVocabulary.

Section EvaluationVocabulary.
Context {F : Type} {HF : Float F} {HT : Torch F}.
Import AdversarialEvaluation.

(** The line that opens every pass of the evaluation loop. *)
Definition starting : event := EvPrint "Starting minibatch %s...".

(** What a run limited to [k] minibatches logs on top of a run over the
    first [k] minibatches: the opening line of the pass in which it breaks,
    when there is a minibatch left and the run got that far. *)
Definition break_line {A B} (o : outcome F A) (k : nat) (loader : list B) : list event :=
  match o with
  | Ok _ _ => if decide (k < length loader) then [starting] else []
  | Raise _ _ => []
  end.

(** The number of examples of a minibatch that the classifier, in inference
    mode with the weights [ws], classifies correctly. *)
Definition correct_on (self : AdversarialEvaluation.t F) (ws : list (tensor F))
    (batch : tensor F * tensor F) : Z :=
  accuracy_int (net_fn (classifier_net self) false ws
                  (norm_fn (normalizer self) batch.1)) batch.2.

Definition total_correct (self : AdversarialEvaluation.t F) (ws : list (tensor F))
    (loader : list (tensor F * tensor F)) : Z :=
  foldr (λ b acc, (correct_on self ws b + acc)%Z) 0%Z loader.

Definition total_examples (loader : list (tensor F * tensor F)) : Z :=
  foldr (λ b acc, (Z.of_nat (shape0 b.1) + acc)%Z) 0%Z loader.

End EvaluationVocabulary.

Section Growth.
Context {F : Type}.

(** From [w] to [w'] tensors were created and nothing else happened to the
    store, to the classifier's mode or to Python's generator. *)
Definition grown (w w' : world F) : Prop :=
  (∃ ext, heap w' = heap w ++ ext) ∧ training w' = training w
  ∧ py_rng w' = py_rng w.

End Growth.

Section AttackLog.
Context {F : Type}.

(** From [v] to [v'] no object was created, and the classifier's mode and
    the reference batch of the loss are the same. *)
Definition same_size (v v' : world F) : Prop :=
  length (heap v') = length (heap v) ∧ training v' = training v
  ∧ reference v' = reference v.

(** What one pass of the loop of the multi-step attack logs: a backward
    pass, the update (by the perturbation itself when signed, by the
    optimizer otherwise), and the validator's line. *)
Definition iteration_log (ps : list loc) (signed verbose : bool) (i : nat) : list event :=
  EvBackward :: (if signed then EvUpdateParams ps else EvOptimStep ps)
  :: validator_log verbose (inl i).

(** What the multi-step attack logs in [n] iterations. *)
Definition PGD_log (ps : list loc) (n : nat) (random_init_flag signed verbose : bool)
    : list event :=
  validator_log verbose (inr "START"%string)
  ++ (if random_init_flag then validator_log verbose (inr "RANDOM"%string) else [])
  ++ concat (iteration_log ps signed verbose <$> seq 0 n).

End AttackLog.


Section ClosedForm.
Context {F : Type} {HF : Float F} {HT : Torch F}.
Import AdversarialAttack.

(** The [k] objects of the store from position [L] on. *)
Definition segment (L k : nat) (h : list (cell F)) : list (cell F) := take k (drop L h).

(** The changes [fs] applied to the cells [cs], one each, in order. *)
Fixpoint apply_each (fs : list (cell F → cell F)) (cs : list (cell F)) : list (cell F) :=
  match fs, cs with
  | f :: fs', c :: cs' => f c :: apply_each fs' cs'
  | _, _ => cs
  end.

(** The parameters of a newly created perturbation for the batch [tx],
    after [random_init] with the draw [r] of torch's generator when it is
    asked for ([Some r]). *)
Definition initial_cells (tm : ThreatModel F) (tx : tensor F) (draw : option nat)
    : list (cell F) :=
  let init := tm_init tm tx in
  match draw with
  | Some r => apply_each (with_data <$> tm_random tm r init) (fresh_cells init)
  | None => fresh_cells init
  end.

(** What one pass of the loop of the multi-step attack does to the
    parameters of the perturbation and to the gradients its optimizer has
    seen: the gradients are cleared, one backward pass of the loss (with
    the batch [tx] as reference, the classifier in inference mode with
    weights [ws]) accumulates on them, and they take a sign step or a step
    of the optimizer. *)
Definition attack_pass (self : AdversarialAttack.t F) (tx tl : tensor F)
    (ws : list (tensor F)) (fn : tensor F → tensor F) (signed : bool)
    (st : list (cell F) * list (list (option (tensor F))))
    : list (cell F) * list (list (option (tensor F))) :=
  let cs1 := cleared <$> st.1 in
  let gs := parameter_gradients self (Some tx) false ws (data <$> cs1) tx tl in
  let cs2 := apply_each (accumulated <$> gs) cs1 in
  if signed then (stepped fn <$> cs2, st.2)
  else let seen := st.2 ++ [grad <$> cs2] in
       (apply_each (with_data <$> adam_rule (5 # 10000) seen (data <$> cs2)) cs2, seen).

(** The parameters the multi-step attack leaves after [n] passes, as a
    function of the batch, the labels, the classifier's weights, the options
    and, with [random_init], the draw of torch's generator. *)
Definition attack_cells (self : AdversarialAttack.t F) (tx tl : tensor F)
    (ws : list (tensor F)) (step_size : F) (n : nat) (signed : bool)
    (draw : option nat) : list (cell F) :=
  cleared <$> (Nat.iter n (attack_pass self tx tl ws (sign_step step_size) signed)
                 (initial_cells (threat_model self) tx draw, [])).1.

Definition attack_values (self : AdversarialAttack.t F) (tx tl : tensor F)
    (ws : list (tensor F)) (step_size : F) (n : nat) (signed : bool)
    (draw : option nat) : list (tensor F) :=
  data <$> attack_cells self tx tl ws step_size n signed draw.

(** The values of the parameters after the single-step attack. *)
Definition FGSM_values (self : AdversarialAttack.t F) (tx tl : tensor F)
    (ws : list (tensor F)) (step_size : F) : list (tensor F) :=
  let init := tm_init (threat_model self) tx in
  zip_with (λ d g, tadd d (sign_step step_size g)) init
    (parameter_gradients self (Some tx) false ws init tx tl).

(** Two runs of an attack both return, with perturbations of the same threat
    model whose parameters hold the values [vals], so that they perturb
    every batch in the same way. *)
Definition same_parameters (run1 run2 : list event * outcome F (Perturbation F))
    (vals : list (tensor F)) : Prop :=
  ∃ p1 p2,
    result_of run1 = Some p1 ∧ result_of run2 = Some p2 ∧
    pert_model p1 = pert_model p2 ∧
    reads (heap (final run1)) (parameters p1) vals ∧
    reads (heap (final run2)) (parameters p2) vals ∧
    ∀ x, v_data <$> result_of (perturbation_call p1 x (final run1))
         = Some (tm_apply (pert_model p1) vals (v_data x)) ∧
         v_data <$> result_of (perturbation_call p2 x (final run2))
         = Some (tm_apply (pert_model p1) vals (v_data x)).

End ClosedForm.
(** * Properties *)

Section Python.




(** ** Rounding to the nearest double *)
















(** ** The selection loop of [random.sample] *)

Lemma insert_swap_perm {A} (l : list A) (j : nat) (x y : A) :
  l !! j = Some x → x :: <[j:=y]> l ≡ₚ y :: l.
Proof.
  intros Hj.
  rewrite insert_take_drop by (eapply lookup_lt_Some; eassumption).
  rewrite <- (take_drop_middle l j x Hj) at 3.
  rewrite <- !Permutation_middle. apply perm_swap.
Qed.

Lemma vacancy_fill_perm {A} (pool : list A) (j m : nat) (x y : A) :
  j < m → pool !! j = Some x → pool !! (m - 1) = Some y →
  x :: take (m - 1) (<[j:=y]> pool) ≡ₚ take m pool.
Proof.
  intros Hjm Hx Hy.
  replace m with (S (m - 1)) at 2 by lia.
  rewrite (take_S_r pool (m - 1) y Hy).
  destruct (decide (j = m - 1)) as [->|Hne].
  - rewrite take_insert. case_decide; [lia|].
    assert (x = y) by congruence. subst y.
    apply Permutation_cons_append.
  - rewrite take_insert_lt by lia.
    rewrite insert_swap_perm.
    + apply Permutation_cons_append.
    + rewrite lookup_take_lt by lia. exact Hx.
Qed.

Lemma sample_pool_spec (k : nat) :
  ∀ (m : nat) (pool : list nat) (rng : nat → nat),
    k ≤ m → m ≤ length pool →
    length (sample_pool k m pool rng) = k ∧
    ∃ rest, sample_pool k m pool rng ++ rest ≡ₚ take m pool.
Proof.
  induction k as [|k IH]; intros m pool rng Hkm Hm; simpl.
  - split; [reflexivity|]. exists (take m pool). reflexivity.
  - assert (Hj : rng 0 mod m < m) by (apply Nat.mod_upper_bound; lia).
    destruct (lookup_lt_is_Some_2 pool (rng 0 mod m)) as [x Hx]; [lia|].
    destruct (lookup_lt_is_Some_2 pool (m - 1)) as [y Hy]; [lia|].
    rewrite Hx, Hy. simpl.
    destruct (IH (m - 1) (<[rng 0 mod m:=y]> pool) (λ i, rng (S i)))
      as [Hlen [rest Hrest]]; [lia| rewrite length_insert; lia |].
    split; [by rewrite Hlen|].
    exists rest. rewrite Hrest.
    by apply vacancy_fill_perm.
Qed.

Lemma sample_range_spec (k n : nat) (rng : nat → nat) :
  k ≤ n →
  let s := sample_pool k n (range n) rng in
  length s = k ∧ NoDup s ∧ (∀ i, i ∈ s → i < n) ∧ (k = n → s ≡ₚ range n).
Proof.
  intros Hk s. unfold range in *.
  destruct (sample_pool_spec k n (seq 0 n) rng) as [Hlen [rest Hrest]];
    [lia | by rewrite length_seq |].
  fold s in Hlen, Hrest.
  rewrite firstn_all2 in Hrest by (rewrite length_seq; lia).
  assert (Hnd : NoDup (s ++ rest)) by (rewrite Hrest; apply NoDup_seq).
  split; [exact Hlen|]. split; [by apply NoDup_app in Hnd as [? _]|]. split.
  - intros i Hi.
    assert (i ∈ seq 0 n) as Hin by (rewrite <- Hrest; set_solver).
    apply elem_of_seq in Hin. lia.
  - intros ->.
    assert (length rest = 0) as Hr.
    { apply Permutation_length in Hrest.
      rewrite length_app, length_seq in Hrest. lia. }
    destruct rest; [|done]. by rewrite app_nil_r in Hrest.
Qed.

(** ** The redraw loop of [random.sample] *)

Lemma draw_fresh_spec (fuel n : nat) (selected : list nat) (rng : nat → nat) :
  ∀ t j t', 0 < n → draw_fresh fuel n selected rng t = Some (j, t') →
    j < n ∧ (j ∉ selected) ∧ t < t'.
Proof.
  induction fuel as [|fuel IH]; intros t j t' Hn; simpl; [done|].
  case_decide as Hin.
  - intros Hd. destruct (IH _ _ _ Hn Hd) as (? & ? & ?). repeat split; [done..|lia].
  - intros [= <- <-]. split; [apply Nat.mod_upper_bound; lia|]. split; [done|lia].
Qed.

Lemma sample_set_spec (fuel n : nat) (rng : nat → nat) (k : nat) :
  ∀ selected t s t', 0 < n →
    sample_set fuel k n (range n) selected rng t = Some (s, t') →
    length s = k ∧ NoDup s ∧ (∀ i, i ∈ s → i < n ∧ (i ∉ selected)) ∧ t + k ≤ t'.
Proof.
  induction k as [|k IH]; intros selected t s t' Hn; simpl.
  - intros [= <- <-]. split; [done|]. split; [constructor|]. split; [|lia].
    intros i Hi. by apply elem_of_nil in Hi.
  - destruct (draw_fresh fuel n selected rng t) as [[j t1]|] eqn:Hd; [|done].
    destruct (draw_fresh_spec _ _ _ _ _ _ _ Hn Hd) as (Hj & Hnew & Ht).
    unfold range at 1. rewrite lookup_seq_lt by done. simpl.
    destruct (sample_set fuel k n (range n) (j :: selected) rng t1)
      as [[rest t2]|] eqn:Hs; [|done].
    intros [= <- <-].
    destruct (IH _ _ _ _ Hn Hs) as (Hlen & Hnd & Hin & Hle).
    split; [simpl; lia|]. split; [|split; [|lia]].
    + constructor; [|done]. intros Hj'. apply Hin in Hj' as [_ Hnot].
      apply Hnot. by left.
    + intros i Hi. apply elem_of_cons in Hi as [->|Hi]; [done|].
      destruct (Hin i Hi) as [? Hnot]. split; [done|].
      intros Hsel. apply Hnot. by right.
Qed.

Lemma setsize_least (k : nat) : 21 ≤ setsize k.
Proof. unfold setsize. case_decide; lia. Qed.

(** A sample of the whole population always takes the pool branch. *)
Lemma setsize_full (n : nat) : n ≤ setsize n.
Proof.
  unfold setsize. case_decide; [|lia].
  set (m := n * 3). set (c := (Nat.log2_up m + 1) / 2).
  assert (m ≤ 2 ^ Nat.log2_up m) by (apply Nat.log2_up_spec; unfold m; lia).
  assert (Nat.log2_up m ≤ 2 * c).
  { unfold c. pose proof (Nat.div_mod_eq (Nat.log2_up m + 1) 2) as Hd.
    pose proof (Nat.mod_upper_bound (Nat.log2_up m + 1) 2 ltac:(lia)) as Hm.
    revert Hd Hm. generalize ((Nat.log2_up m + 1) / 2) ((Nat.log2_up m + 1) mod 2).
    generalize (Nat.log2_up m). clear. intros. lia. }
  assert (2 ^ Nat.log2_up m ≤ 2 ^ (2 * c)) by (apply Nat.pow_le_mono_r; lia).
  assert (4 ^ c = 2 ^ (2 * c)) by (by rewrite Nat.pow_mul_r).
  lia.
Qed.

Section Sampling.
Context {F : Type} {HT : Torch F}.

Lemma sample_spec (n k : nat) (rng : nat → nat) (s : list nat) (t : nat) :
  k ≤ n → sample (range n) k rng = Some (s, t) →
  length s = k ∧ NoDup s ∧ (∀ i, i ∈ s → i < n) ∧ (k = n → s ≡ₚ range n) ∧ k ≤ t.
Proof.
  intros Hk. unfold sample.
  replace (length (range n)) with n by (unfold range; by rewrite length_seq).
  case_decide as Hsz.
  - intros [= <- <-].
    destruct (sample_range_spec k n rng Hk) as (? & ? & ? & ?). done.
  - intros Hs. pose proof (setsize_least k).
    assert (Hn : 0 < n) by lia.
    destruct (sample_set_spec _ _ _ _ _ _ _ _ Hn Hs) as (Hlen & Hnd & Hin & Ht).
    split; [done|]. split; [done|]. split; [intros i Hi; by apply Hin|].
    split; [|lia]. intros ->. pose proof (setsize_full n). lia.
Qed.

(** Up to [setsize] items the sample is taken from a pool, with one draw per
    item: it always comes back. *)
Lemma sample_pool_branch (population : list nat) (k : nat) (rng : nat → nat) :
  length population ≤ setsize k →
  sample population k rng
  = Some (sample_pool k (length population) population rng, k).
Proof. intros Hn. unfold sample. by rewrite decide_True. Qed.

Lemma sample_nothing (population : list nat) (rng : nat → nat) :
  sample population 0 rng = Some ([], 0).
Proof. unfold sample. by case_decide. Qed.

End Sampling.

(** ** [sorted] *)
Lemma sorted_perm (l : list nat) : sorted l ≡ₚ l.
Proof. apply merge_sort_Permutation. Qed.

Lemma sorted_ascending (l : list nat) : StronglySorted le (sorted l).
Proof. apply StronglySorted_merge_sort; apply _. Qed.

Lemma strictly_ascending (l : list nat) :
  StronglySorted le l → NoDup l → StronglySorted lt l.
Proof.
  induction 1 as [|x l Hl IH Hx]; intros Hnd; constructor.
  - apply IH. by apply NoDup_cons in Hnd as [_ ?].
  - apply NoDup_cons in Hnd as [Hnot _].
    apply Forall_forall. intros y Hy.
    assert (x ≤ y) by (eapply Forall_forall in Hx; eauto).
    assert (x ≠ y) by (intros ->; done). lia.
Qed.

Lemma sorted_range (l : list nat) (n : nat) : l ≡ₚ range n → sorted l = range n.
Proof.
  intros Hp. apply (Sorted_unique le).
  - apply StronglySorted_Sorted, sorted_ascending.
  - unfold range. clear. generalize 0. induction n as [|n IH]; intros s; simpl; [constructor|].
    constructor; [apply IH|]. destruct n; simpl; constructor. lia.
  - by rewrite sorted_perm.
Qed.

End Python.

(** ** Running the monad *)
Section Run.
Context {F : Type} {HF : Float F} {HT : Torch F}.

Lemma bind_Ok {A B} (m : M F A) (f : A → M F B) w ev a w' :
  m w = (ev, Ok a w') → (m ≫= f) w = (ev ++ (f a w').1, (f a w').2).
Proof.
  intros Hm. unfold mbind, M_bind, bind. rewrite Hm. by destruct (f a w').
Qed.

Lemma bind_Raise {A B} (m : M F A) (f : A → M F B) w ev e w' :
  m w = (ev, Raise e w') → (m ≫= f) w = (ev, Raise e w').
Proof. intros Hm. unfold mbind, M_bind, bind. by rewrite Hm. Qed.

Lemma bind_silent {A B} (m : M F A) (f : A → M F B) w a w' :
  m w = ([], Ok a w') → (m ≫= f) w = f a w'.
Proof. intros Hm. rewrite (bind_Ok _ _ _ _ _ _ Hm). by destruct (f a w'). Qed.

Lemma bind_inv_Ok {A B} (m : M F A) (f : A → M F B) w ev b w' :
  (m ≫= f) w = (ev, Ok b w') →
  ∃ ev1 a w1 ev2, m w = (ev1, Ok a w1) ∧ f a w1 = (ev2, Ok b w') ∧ ev = ev1 ++ ev2.
Proof.
  unfold mbind, M_bind, bind. destruct (m w) as [ev1 [a w1|e w1]]; [|done].
  destruct (f a w1) as [ev2 o] eqn:Hf. intros [= <- ->]. eauto 10.
Qed.


Lemma read_run (l : loc) (c : cell F) (w : world F) :
  heap w !! l = Some c → read l w = ([], Ok (data c) w).
Proof. intros Hl. unfold read, load, mbind, M_bind, bind. by rewrite Hl. Qed.

Lemma read_fresh (t : tensor F) (g : option (tensor F)) (w : world F) :
  read (length (heap w)) (set_heap (λ h, h ++ [Cell t g]) w)
  = ([], Ok t (set_heap (λ h, h ++ [Cell t g]) w)).
Proof.
  apply (read_run _ (Cell t g)). simpl.
  rewrite lookup_app_r by lia. by rewrite Nat.sub_diag.
Qed.

End Run.


(** ** The attack wrapper's selection *)
Section Selection.
Context {F : Type} {HF : Float F} {HT : Torch F}.
Import AdversarialAttackParameters.

Lemma select_run (self : AdversarialAttackParameters.t F) (n : nat) (w : world F)
    (s : list nat) (t : nat) :
  let k := py_int (float_times_int (proportion_attacked self) (Z.of_nat n)) in
  (0 ≤ k ≤ Z.of_nat n)%Z →
  sample (range n) (Z.to_nat k) (py_rng w) = Some (s, t) →
  select self n w = ([], Ok (sorted s) (after_draws t w)).
Proof.
  intros k Hk Hs.
  assert (Hlen : length (range n) = n) by apply length_seq.
  unfold select, random_sample, mbind, M_bind, bind.
  rewrite Hlen. fold k. rewrite decide_True by exact Hk. by rewrite Hs.
Qed.


Lemma attack_unfold (self : AdversarialAttackParameters.t F) (inputs labels : loc)
    (c : cell F) (w : world F) (s : list nat) (t : nat) :
  heap w !! inputs = Some c →
  let N := shape0 (data c) in
  let k := py_int (float_times_int (proportion_attacked self) (Z.of_nat N)) in
  (0 ≤ k ≤ Z.of_nat N)%Z →
  sample (range N) (Z.to_nat k) (py_rng w) = Some (s, t) →
  let sel := sorted s in
  let w1 := set_heap (λ h, h ++ [Cell (LongTensor (Z.of_nat <$> sel)) None])
                     (after_draws t w) in
  let idx := length (heap w) in
  attack self inputs labels w
  = if decide (length sel = 0) then ([], Ok (None, None, None) w1)
    else (adv_inputs ← index_select inputs (Some idx);
          pre_adv_labels ← index_select labels (Some idx);
          adv_examples ← ao_attack (adv_attack_obj self) adv_inputs pre_adv_labels;
          adv_examples ← output_filter self adv_examples;
          mret (Some adv_examples, Some pre_adv_labels, Some idx)) w1.
Proof.
  intros Hc N k Hk Hs sel w1 idx. unfold attack.
  rewrite (bind_silent _ _ _ _ _ (read_run _ _ _ Hc)).
  rewrite (bind_silent _ _ _ _ _ (select_run self _ w s t Hk Hs)).
  fold sel.
  erewrite bind_silent by reflexivity.
  rewrite (bind_silent _ _ _ _ _ (read_fresh _ None (after_draws t w))).
  simpl. rewrite length_fmap.
  destruct (decide (length sel = 0)); reflexivity.
Qed.


(** What a selection that came back looks like. *)
Lemma selection_spec (n k : nat) (rng : nat → nat) (s : list nat) (t : nat) :
  k ≤ n → sample (range n) k rng = Some (s, t) →
  length (sorted s) = k ∧ NoDup (sorted s) ∧ StronglySorted lt (sorted s) ∧
  Forall (λ i, i < n) (sorted s) ∧ (k = n → sorted s = range n) ∧ k ≤ t.
Proof.
  intros Hk Hs.
  destruct (sample_spec n k rng s t Hk Hs) as (Hlen & Hnd & Hin & Hall & Ht).
  assert (Hnd' : NoDup (sorted s)) by (by rewrite sorted_perm).
  split; [by rewrite (sorted_perm s)|]. split; [done|].
  split; [apply strictly_ascending; [apply sorted_ascending|done]|].
  split; [|split; [|done]].
  - apply Forall_forall. intros i Hi. apply Hin. by rewrite <- (sorted_perm s).
  - intros E. by apply sorted_range, Hall.
Qed.

End Selection.

Section EmptySelection.
Context {F : Type} {HF : Float F} {HT : Torch F}.
Import AdversarialAttackParameters AdversarialTraining.

Lemma cadence_cases (level every : option Z) (i : nat) (w : world F) :
  (∃ b, cadence level every i w = ([], Ok b w)) ∨
  (∃ e, cadence level every i w = ([], Raise e w) ∧
        (e = TypeError ∨ e = ZeroDivisionError)).
Proof.
  unfold cadence. destruct (ge_1 level); [|left; by eexists].
  destruct every as [e|]; [|right; eexists; eauto].
  destruct (decide (e = 0)%Z); [right; eexists; eauto | left; by eexists].
Qed.

(** C1.  When the selection is empty (int(proportion × batch size) = 0,
    the product being the rounded product of floats that the code takes)
    the wrapper does return the sentinel triple, but the training loop's
    attack subroutine does not go on with the clean batch: it hands the
    sentinel's [None] to [torch.cat] (or, on a reporting minibatch, to
    [index_select]) and ends in an exception. *)
Theorem C1_empty_selection_raises (self : AdversarialTraining.t F)
    (ap : AdversarialAttackParameters.t F) (inputs labels : loc) (c : cell F)
    (epoch_num minibatch_num : nat) (w : world F) :
  heap w !! inputs = Some c →
  py_int (float_times_int (proportion_attacked ap) (Z.of_nat (shape0 (data c)))) = 0%Z →
  (∃ w', attack ap inputs labels w = ([], Ok (None, None, None) w')) ∧
  (∃ e w', _attack_subroutine self (Some ap) inputs labels epoch_num minibatch_num w
           = ([], Raise e w') ∧ (e = TypeError ∨ e = ZeroDivisionError)).
Proof.
  intros Hc Hk.
  pose proof (attack_unfold ap inputs labels c w [] 0 Hc) as Hatt.
  cbv zeta in Hatt. rewrite Hk in Hatt.
  specialize (Hatt ltac:(lia) (sample_nothing _ _)).
  change (sorted []) with (@nil nat) in Hatt.
  rewrite decide_True in Hatt by reflexivity.
  match type of Hatt with _ = (_, Ok _ ?w1) => set (w' := w1) in * end.
  split; [by exists w'|].
  unfold _attack_subroutine.
  rewrite (bind_silent _ _ _ _ _ Hatt).
  destruct (cadence_cases (verbosity_level self) (verbosity_adv self) minibatch_num w')
    as [[b Hb]|[e [He Hcase]]].
  - rewrite (bind_silent _ _ _ _ _ Hb). destruct b.
    + exists TypeError, w'. split; [|by left].
      unfold eval. simpl.
      unfold mbind, M_bind, bind. simpl.
      destruct (heap w' !! inputs); reflexivity.
    + exists TypeError, w'. split; [|by left]. reflexivity.
  - exists e, w'. split; [|exact Hcase].
    by rewrite (bind_Raise _ _ _ _ _ _ He).
Qed.

End EmptySelection.

(** A batch of two examples attacked with proportion 0. *)
Lemma C1_empty_selection_raises_witness :
  (∃ w', AdversarialAttackParameters.attack (Toy.params 0) 1 2 Toy.w0
         = ([], Ok (None, None, None) w')) ∧
  (∃ e w', AdversarialTraining._attack_subroutine Toy.trainer (Some (Toy.params 0)) 1 2 0 0 Toy.w0
           = ([], Raise e w') ∧ (e = TypeError ∨ e = ZeroDivisionError)).
Proof.
  apply (C1_empty_selection_raises Toy.trainer (Toy.params 0) 1 2
           (Cell Toy.batch_inputs None) 0 0 Toy.w0).
  - reflexivity.
  - reflexivity.
Defined.


Section NoAttackBound.
Context {F : Type} {HF : Float F} {HT : Torch F}.
Import AdversarialAttackParameters AdversarialTraining.

(** C7.  With [attack_parameters = None] the attack subroutine does return
    the clean inputs and labels untouched, but [train] never reaches a
    minibatch: after the device assertion it calls [set_gpu] on [None],
    outside the [is not None] guard, and ends in an AttributeError (an
    AssertionError if a GPU is asked for and there is none). *)
Theorem C7_train_without_attack_raises (self : AdversarialTraining.t F)
    (data_loader : nat → list (tensor F * tensor F)) (num_epochs : Z)
    (loss_fxn : AdversarialTraining.Loss F) (optimizer : option (Optimizer F))
    (use_gpu : bool) (verbosity : option string)
    (inputs labels : loc) (epoch i : nat) (w : world F) :
  _attack_subroutine self None inputs labels epoch i w = ([], Ok (inputs, labels) w) ∧
  train self data_loader num_epochs loss_fxn optimizer None use_gpu verbosity w
  = ([], Raise (if use_gpu && negb cuda_is_available
                then AssertionError else AttributeError)
               (set_training true w)).
Proof.
  split; [reflexivity|].
  unfold train, mbind, M_bind, bind. simpl.
  destruct use_gpu, cuda_is_available; reflexivity.
Qed.

End NoAttackBound.

(** C2.  A minibatch of two examples, both classified correctly, with an
    attack that is applied to half of the minibatch and leaves its examples
    as they are: one example is selected, and it is still classified
    correctly, so the accuracy on the attacked subset is 1 and the subset
    has size 1.  The evaluation loop nevertheless accumulates 1/2 (the count
    of correct attacked examples over the size of the whole minibatch) with
    weight 2 (the size of the whole minibatch), and reports 1/2 for the
    attack. *)
Theorem C2_attack_accuracy_over_full_minibatch :
  let ap := Toy.params (1 # 2) in
  let batch := (Toy.batch_inputs, Toy.batch_labels) in
  let ensemble := [("fgsm"%string, ap)] in
  let fresh : gmap string AverageMeter.t :=
    list_to_map [("fgsm"%string, AverageMeter.init); ("ground"%string, AverageMeter.init)] in
  result_of (AdversarialAttackParameters.select ap 2 Toy.w0) = Some [0] ∧
  result_of ((out ← AdversarialAttackParameters.attack ap 1 2;
              adv ← mk_Variable out.1.1;
              lab ← mk_Variable out.1.2;
              AdversarialAttackParameters.eval_attack_only ap adv lab) Toy.w0)
  = Some 1%Z ∧
  result_of (AdversarialEvaluation.minibatch_step Toy.evaluator ensemble false 0
               batch fresh Toy.w0) ≫= (λ meters, meters !! "fgsm"%string)
  = Some {| AverageMeter.am_sum := 2 # 2; AverageMeter.am_count := 2;
            AverageMeter.am_avg := 2 # 4 |} ∧
  result_of (AdversarialEvaluation.evaluate Toy.evaluator [batch] ensemble false None
               Toy.w0) ≫= (λ results, results !! "fgsm"%string)
  = Some (2 # 4).
Proof. repeat split; vm_compute; reflexivity. Qed.

(** ** Frames *)
Section FrameRules.
Context {F : Type} {HF : Float F} {HT : Torch F}.
Context (keep : relation (cell F)) {keep_pre : PreOrder keep}.
Context (X : list loc) (n : nat) (ψ : event → Prop).

Lemma frame_refl (w : world F) : frame keep X n w w.
Proof. split; [done|]. intros l c _ _ Hl. exists c. split; [done|reflexivity]. Qed.

Lemma frame_trans (w1 w2 w3 : world F) :
  frame keep X n w1 w2 → frame keep X n w2 w3 → frame keep X n w1 w3.
Proof.
  intros [Hlen1 H1] [Hlen2 H2]. split; [lia|].
  intros l c Hl HX Hc.
  destruct (H1 l c Hl HX Hc) as (c1 & Hc1 & Hk1).
  destruct (H2 l c1 Hl HX Hc1) as (c2 & Hc2 & Hk2).
  exists c2. split; [done|]. by transitivity c1.
Qed.

Lemma frame_same_heap (w w' : world F) : heap w' = heap w → frame keep X n w w'.
Proof.
  intros Hh. split; [by rewrite Hh|]. intros l c _ _ Hl. exists c.
  split; [by rewrite Hh|reflexivity].
Qed.

Local Abbreviation respects := (respects keep X n ψ).

Lemma respects_weaken {A} (m : M F A) (φ φ' : A → Prop) :
  respects m φ → (∀ a, φ a → φ' a) → respects m φ'.
Proof.
  intros Hm Himp w Hn. destruct (Hm w Hn) as (Hf & Hev & Hφ).
  split; [done|]. split; [done|].
  destruct (result_of (m w)); [by apply Himp|done].
Qed.

Lemma respects_ret {A} (a : A) (φ : A → Prop) : φ a → respects (mret a) φ.
Proof. intros Ha w Hn. split; [apply frame_refl|]. split; [constructor|exact Ha]. Qed.

Lemma respects_raise {A} (e : exn) (φ : A → Prop) : respects (raise e) φ.
Proof. intros w Hn. split; [apply frame_refl|]. split; [constructor|exact I]. Qed.

Lemma respects_bind {A B} (m : M F A) (f : A → M F B) (φ : A → Prop) (φ' : B → Prop) :
  respects m φ → (∀ a, φ a → respects (f a) φ') → respects (m ≫= f) φ'.
Proof.
  intros Hm Hf w Hn. destruct (Hm w Hn) as (Hfr & Hev & Hφ).
  unfold final, result_of, mbind, M_bind, bind in *.
  destruct (m w) as [ev [a w1|e w1]]; simpl in *; [|done].
  assert (Hn1 : n ≤ length (heap w1)) by (destruct Hfr; lia).
  destruct (Hf a Hφ w1 Hn1) as (Hfr' & Hev' & Hφ').
  unfold final, result_of in *.
  destruct (f a w1) as [ev' o]; simpl in *.
  split; [by eapply frame_trans|]. split; [by apply Forall_app|done].
Qed.

Lemma respects_lift {A} (r : exn + A) (φ : A → Prop) :
  (∀ a, r = inr a → φ a) → respects (lift r) φ.
Proof. destruct r; intros Hr; [apply respects_raise | apply respects_ret; auto]. Qed.

Lemma respects_gets {A} (f : world F → A) : respects (gets f) (λ _, True).
Proof. intros w Hn. split; [apply frame_refl|]. split; [constructor|exact I]. Qed.

Lemma respects_modify (f : world F → world F) :
  (∀ w, heap (f w) = heap w) → respects (modify f) (λ _, True).
Proof.
  intros Hf w Hn. unfold final, result_of, modify. simpl.
  split; [by apply frame_same_heap|]. split; [constructor|exact I].
Qed.

Lemma respects_emit (e : event) : ψ e → respects (emit e) (λ _, True).
Proof.
  intros He w Hn. split; [apply frame_refl|]. split; [by repeat constructor|exact I].
Qed.

Lemma respects_alloc (t : tensor F) : respects (alloc t) (λ l, n ≤ l).
Proof.
  intros w Hn. unfold final, result_of, alloc, frame. simpl.
  split; [|split; [constructor|done]].
  split; [rewrite length_app; lia|].
  intros l c Hl _ Hc. exists c. split; [|reflexivity].
  by apply lookup_app_l_Some.
Qed.

Lemma respects_load (l : loc) : respects (load l) (λ _, True).
Proof.
  intros w Hn. unfold final, result_of, load.
  destruct (heap w !! l); simpl; (split; [apply frame_refl|split; [constructor|done]]).
Qed.

Lemma respects_read (l : loc) : respects (read l) (λ _, True).
Proof.
  unfold read. eapply respects_bind; [apply respects_load|].
  intros c _. by apply respects_ret.
Qed.

Lemma frame_insert (w : world F) (l : loc) (c c' : cell F) :
  heap w !! l = Some c → (n ≤ l ∨ l ∈ X ∨ keep c c') →
  frame keep X n w (set_heap (λ h, <[l:=c']> h) w).
Proof.
  intros Hl Hok. unfold frame, set_heap. cbn [heap].
  split; [by rewrite length_insert|].
  intros l' c0 Hl' HX Hc0.
  destruct (decide (l' = l)) as [->|Hne].
  - exists c'. split.
    + apply list_lookup_insert_eq. by eapply lookup_lt_Some.
    + destruct Hok as [?|[?|?]]; [lia|done|].
      rewrite Hl in Hc0. by injection Hc0 as <-.
  - exists c0. split; [by rewrite list_lookup_insert_ne|reflexivity].
Qed.

Lemma respects_modify_cell (l : loc) (f : cell F → exn + cell F) :
  (n ≤ l ∨ l ∈ X ∨ ∀ c c', f c = inr c' → keep c c') →
  respects (modify_cell l f) (λ _, True).
Proof.
  intros Hok w Hn. unfold final, result_of, modify_cell.
  destruct (heap w !! l) as [c|] eqn:Hl; simpl;
    [|split; [apply frame_refl|split; [constructor|done]]].
  destruct (f c) as [e|c'] eqn:Hf; simpl;
    [split; [apply frame_refl|split; [constructor|done]]|].
  split; [|split; [constructor|done]].
  apply (frame_insert w l c c' Hl).
  destruct Hok as [?|[?|Hk]]; [by left|by right; left|right; right; by apply Hk].
Qed.

Lemma respects_for_each {A} (xs : list A) (body : A → M F unit) :
  (∀ x, x ∈ xs → respects (body x) (λ _, True)) →
  respects (for_each xs body) (λ _, True).
Proof.
  induction xs as [|x xs IH]; intros Hb; simpl.
  - by apply respects_ret.
  - eapply respects_bind; [apply Hb; left|].
    intros _ _. apply IH. intros y Hy. apply Hb. by right.
Qed.

Lemma respects_map_M {A B} (f : A → M F B) (φ : B → Prop) (xs : list A) :
  (∀ x, x ∈ xs → respects (f x) φ) →
  respects (map_M f xs) (Forall φ).
Proof.
  induction xs as [|x xs IH]; intros Hf; simpl.
  - by apply respects_ret.
  - eapply respects_bind; [apply Hf; left|].
    intros y Hy. eapply respects_bind; [apply IH; intros z Hz; apply Hf; by right|].
    intros ys Hys. apply respects_ret. by constructor.
Qed.

Lemma respects_for_range {St} (k start : nat) (body : nat → St → M F St)
    (φ : St → Prop) (s : St) :
  φ s → (∀ i s, φ s → respects (body i s) φ) →
  respects (for_range k start body s) φ.
Proof.
  revert start s. induction k as [|k IH]; intros start s Hs Hb; simpl.
  - by apply respects_ret.
  - eapply respects_bind; [by apply Hb|]. intros s' Hs'. by apply IH.
Qed.

Lemma respects_for_enum {A St} (xs : list A) (i : nat) (body : nat → A → St → M F St)
    (φ : St → Prop) (s : St) :
  φ s → (∀ i x s, φ s → respects (body i x s) φ) →
  respects (for_enum xs i body s) φ.
Proof.
  revert i s. induction xs as [|x xs IH]; intros i s Hs Hb; simpl.
  - by apply respects_ret.
  - eapply respects_bind; [by apply Hb|]. intros s' Hs'. by apply IH.
Qed.

Lemma respects_random_sample (population : list nat) (k : Z) :
  respects (random_sample population k) (λ _, True).
Proof.
  intros w Hn. unfold final, result_of, random_sample.
  case_decide; [destruct (sample _ _ _) as [[s t]|]|]; simpl;
    (split; [by apply frame_same_heap|split; [constructor|done]]).
Qed.

Lemma respects_index_select (src : loc) (idx : option loc) :
  respects (index_select src idx) (λ l, n ≤ l).
Proof.
  unfold index_select. destruct idx as [il|]; [|apply respects_raise].
  eapply respects_bind; [apply respects_read|]. intros t _.
  eapply respects_bind; [apply respects_read|]. intros i _.
  destruct (select_rows t i); [apply respects_alloc|apply respects_raise].
Qed.

Lemma respects_torch_cat (a b : option loc) :
  respects (torch_cat a b) (λ l, n ≤ l).
Proof.
  unfold torch_cat. destruct a as [la|], b as [lb|]; try apply respects_raise.
  eapply respects_bind; [apply respects_read|]. intros ta _.
  eapply respects_bind; [apply respects_read|]. intros tb _.
  destruct (cat_rows ta tb); [apply respects_alloc|apply respects_raise].
Qed.

Lemma respects_cuda (l : loc) : respects (cuda l) (λ l', n ≤ l').
Proof.
  unfold cuda. eapply respects_bind; [apply respects_read|].
  intros t _. apply respects_alloc.
Qed.

Lemma respects_mk_Variable (x : option loc) : respects (mk_Variable x) (λ _, True).
Proof.
  unfold mk_Variable. destruct x; [|by apply respects_ret].
  eapply respects_bind; [apply respects_read|]. intros t _. by apply respects_ret.
Qed.

Lemma respects_safe_var (x : loc + var F) : respects (safe_var x) (λ _, True).
Proof. destruct x; [apply respects_mk_Variable|by apply respects_ret]. Qed.

Lemma respects_py_div (a b : Q) : respects (py_div a b) (λ _, True).
Proof. unfold py_div. case_decide; [apply respects_raise|by apply respects_ret]. Qed.

Lemma respects_cadence (level every : option Z) (i : nat) :
  respects (cadence level every i) (λ _, True).
Proof.
  unfold cadence. destruct (ge_1 level); [|by apply respects_ret].
  destruct every; [|apply respects_raise].
  case_decide; [apply respects_raise|by apply respects_ret].
Qed.

Lemma respects_weights (net : Classifier F) : respects (weights net) (λ _, True).
Proof.
  unfold weights. eapply respects_weaken.
  - apply respects_map_M. intros l _. apply respects_read.
  - done.
Qed.

Lemma respects_net_forward (net : Classifier F) (x : tensor F) :
  respects (net_forward net x) (λ _, True).
Proof.
  unfold net_forward. eapply respects_bind; [apply respects_gets|]. intros mode _.
  eapply respects_bind; [apply respects_weights|]. intros ws _.
  by apply respects_ret.
Qed.

End FrameRules.

(** Chains the frame rules through a sequence of steps. *)
Tactic Notation "frame_rule" uconstr(lem) := eapply lem; try (solve [apply _]).
Tactic Notation "frame_bind" uconstr(lem) :=
  eapply respects_bind; [solve [apply _] | eapply lem; try (solve [apply _]) | ].
Ltac frame_ret := apply respects_ret; [solve [apply _] | done].

(** ** The wrapper and the attack subroutine leave the caller's batch alone *)
Section CallerBatch.
Context {F : Type} {HF : Float F} {HT : Torch F}.
Import AdversarialAttackParameters AdversarialTraining.

Lemma respects_select (X : list loc) (n : nat) (ap : AdversarialAttackParameters.t F)
    (k : nat) :
  respects eq X n (λ _, True) (select ap k) (λ _, True).
Proof.
  unfold select. frame_bind respects_random_sample.
  intros s _. frame_ret.
Qed.

Lemma respects_attack (X : list loc) (n : nat) (ap : AdversarialAttackParameters.t F)
    (inputs labels : loc) :
  well_behaved X ap →
  respects eq X n (λ _, True) (attack ap inputs labels) (λ _, True).
Proof.
  intros (Hatt & Hfil & _). unfold attack.
  frame_bind respects_read. intros t _.
  frame_bind respects_select. intros sel _.
  frame_bind respects_alloc. intros idx _.
  frame_bind respects_read. intros ti _.
  case_decide; [frame_ret|].
  frame_bind respects_index_select. intros a Ha.
  frame_bind respects_index_select. intros b Hb.
  frame_bind Hatt; [done..|]. intros r _.
  frame_bind Hfil. intros r' _.
  frame_ret.
Qed.

Lemma respects_eval (X : list loc) (n : nat) (ap : AdversarialAttackParameters.t F)
    (ground_inputs : loc) (adv_inputs : option loc) (labels : loc) (idxs : option loc) :
  well_behaved X ap →
  respects eq X n (λ _, True) (eval ap ground_inputs adv_inputs labels idxs) (λ _, True).
Proof.
  intros (_ & _ & Heval). unfold eval.
  frame_bind respects_index_select. intros g _.
  frame_bind respects_index_select. intros l _.
  destruct adv_inputs; [apply Heval|frame_rule respects_raise].
Qed.

Lemma respects_attack_subroutine (X : list loc) (n : nat) (self : AdversarialTraining.t F)
    (attack_parameters : option (AdversarialAttackParameters.t F))
    (inputs labels : loc) (epoch_num minibatch_num : nat) :
  (∀ ap, attack_parameters = Some ap → well_behaved X ap) →
  respects eq X n (λ _, True)
    (_attack_subroutine self attack_parameters inputs labels epoch_num minibatch_num)
    (λ _, True).
Proof.
  intros Hwb. unfold _attack_subroutine.
  destruct attack_parameters as [ap|]; [|frame_ret].
  specialize (Hwb ap eq_refl).
  frame_bind respects_attack; [done..|].
  intros [[adv_inputs adv_labels] adv_idxs] _.
  frame_bind respects_cadence. intros report _.
  eapply respects_bind with (φ := λ _, True); [solve [apply _]| |].
  - destruct report; [|frame_ret].
    frame_bind respects_eval; [done..|]. intros acc _.
    by frame_rule respects_emit.
  - intros _ _.
    frame_bind respects_torch_cat. intros i' _.
    frame_bind respects_torch_cat. intros l' _.
    frame_ret.
Qed.

Lemma frame_eq_lookup (X : list loc) (n : nat) (w w' : world F) (l : loc) :
  frame eq X n w w' → l < n → l ∉ X → l < length (heap w) →
  heap w' !! l = heap w !! l.
Proof.
  intros [_ Hfr] Hl HX Hlen.
  destruct (lookup_lt_is_Some_2 (heap w) l Hlen) as [c Hc].
  destruct (Hfr l c Hl HX Hc) as (c' & Hc' & <-). by rewrite Hc, Hc'.
Qed.

(** C10.  Whether they return or raise, the wrapper's [attack] and the
    training loop's [_attack_subroutine] leave every object that the caller
    had before the call as it was, the minibatch's inputs and labels in
    particular: the attack object is only handed tensors that
    [index_select] created, and the augmented batch is a tensor that
    [torch.cat] created.  (The attack object is assumed to write only to
    what it is handed, to the objects [X] it holds, and to what it
    creates; the caller's batch is not among [X].) *)
Theorem C10_caller_batch_unchanged (X : list loc) (self : AdversarialTraining.t F)
    (ap : AdversarialAttackParameters.t F) (inputs labels : loc)
    (epoch_num minibatch_num : nat) (w : world F) :
  well_behaved X ap →
  inputs < length (heap w) → labels < length (heap w) →
  inputs ∉ X → labels ∉ X →
  let w1 := final (attack ap inputs labels w) in
  let w2 := final (_attack_subroutine self (Some ap) inputs labels
                     epoch_num minibatch_num w) in
  (heap w1 !! inputs = heap w !! inputs ∧ heap w1 !! labels = heap w !! labels) ∧
  (heap w2 !! inputs = heap w !! inputs ∧ heap w2 !! labels = heap w !! labels) ∧
  (∀ l, l < length (heap w) → l ∉ X →
        heap w1 !! l = heap w !! l ∧ heap w2 !! l = heap w !! l) ∧
  (∀ i x l, result_of (_attack_subroutine self (Some ap) inputs labels
                         epoch_num minibatch_num w) = Some (i, l) →
            x ∈ [i; l] → length (heap w) ≤ x).
Proof.
  intros Hwb Hi Hl HiX HlX w1 w2.
  destruct (respects_attack X (length (heap w)) ap inputs labels Hwb w (le_n _))
    as (Hf1 & _ & _).
  assert (Hsub : respects eq X (length (heap w)) (λ _, True)
            (_attack_subroutine self (Some ap) inputs labels epoch_num minibatch_num)
            (λ il, length (heap w) ≤ il.1 ∧ length (heap w) ≤ il.2)).
  { unfold _attack_subroutine.
    frame_bind respects_attack; [done..|].
    intros [[adv_inputs adv_labels] adv_idxs] _.
    frame_bind respects_cadence. intros report _.
    eapply respects_bind with (φ := λ _, True); [solve [apply _]| |].
    - destruct report; [|frame_ret].
      frame_bind respects_eval; [done..|]. intros acc _.
      by frame_rule respects_emit.
    - intros _ _.
      frame_bind respects_torch_cat. intros i' Hi'.
      frame_bind respects_torch_cat. intros l' Hl'.
      frame_ret. }
  destruct (Hsub w (le_n _)) as (Hf2 & _ & Hres).
  fold w1 in Hf1. fold w2 in Hf2.
  repeat split; try (eapply frame_eq_lookup; eauto; fail).
  intros i x l Hr Hx. rewrite Hr in Hres. destruct Hres as [? ?]. simpl in *.
  inversion Hx as [|? ? ? Hx']; subst; [done|].
  inversion Hx' as [|? ? ? Hx'']; subst; [done|]. inversion Hx''.
Qed.

(** The evaluation methods of the attack class only read the store. *)
Lemma respects_AdversarialAttack_eval (X : list loc) (n : nat)
    (self : AdversarialAttack.t F) (ground_examples adversarials labels : loc + var F) :
  respects eq X n (λ _, True)
    (AdversarialAttack.eval self ground_examples adversarials labels) (λ _, True).
Proof.
  unfold AdversarialAttack.eval.
  frame_bind respects_safe_var. intros g _.
  frame_bind respects_safe_var. intros a _.
  frame_bind respects_safe_var. intros l _.
  frame_bind respects_net_forward. intros go _.
  frame_bind respects_net_forward. intros ao _.
  frame_ret.
Qed.

End CallerBatch.

Lemma Toy_well_behaved (proportion : Q) : well_behaved [0] (Toy.params proportion).
Proof.
  split; [|split].
  - intros n a b _ _. simpl. frame_ret.
  - intros n r. simpl. frame_ret.
  - intros n g a l. simpl. apply respects_AdversarialAttack_eval.
Qed.

(** The toy wrapper attacking half of the toy batch. *)
Lemma C10_caller_batch_unchanged_witness :
  let w1 := final (AdversarialAttackParameters.attack (Toy.params (1 # 2)) 1 2 Toy.w0) in
  let w2 := final (AdversarialTraining._attack_subroutine Toy.trainer
                     (Some (Toy.params (1 # 2))) 1 2 0 0 Toy.w0) in
  (heap w1 !! 1 = heap Toy.w0 !! 1 ∧ heap w1 !! 2 = heap Toy.w0 !! 2) ∧
  (heap w2 !! 1 = heap Toy.w0 !! 1 ∧ heap w2 !! 2 = heap Toy.w0 !! 2).
Proof.
  destruct (C10_caller_batch_unchanged [0] Toy.trainer (Toy.params (1 # 2)) 1 2 0 0 Toy.w0)
    as (H1 & H2 & _).
  - apply Toy_well_behaved.
  - simpl. lia.
  - simpl. lia.
  - intros Hin. by apply list_elem_of_singleton in Hin.
  - intros Hin. by apply list_elem_of_singleton in Hin.
  - split; [exact H1|exact H2].
Defined.


(** ** The selection of the attack wrapper *)
Section SelectionClaim.
Context {F : Type} {HF : Float F} {HT : Torch F}.
Import AdversarialAttackParameters.



End SelectionClaim.



(** ** Creating the perturbation *)
Section Creation.
Context {F : Type} {HF : Float F} {HT : Torch F}.

Lemma map_M_alloc (ts : list (tensor F)) (w : world F) :
  map_M alloc ts w
  = ([], Ok (seq (length (heap w)) (length ts))
            (set_heap (λ h, h ++ fresh_cells ts) w)).
Proof.
  revert w. induction ts as [|t ts IH]; intros w; simpl.
  - unfold mret, M_ret, ret, set_heap, fresh_cells. simpl.
    rewrite app_nil_r. by destruct w.
  - erewrite bind_silent by reflexivity.
    erewrite bind_silent by apply IH.
    unfold mret, M_ret, ret, set_heap, fresh_cells. simpl.
    rewrite length_app, <- app_assoc. simpl.
    by rewrite Nat.add_1_r.
Qed.

Lemma threat_model_call_run (tm : ThreatModel F) (examples : loc) (w : world F) :
  threat_model_call tm examples w
  = match heap w !! examples with
    | Some c => ([], Ok (created tm (data c) w)
                        (set_heap (λ h, h ++ fresh_cells (tm_init tm (data c))) w))
    | None => ([], Raise ReferenceError w)
    end.
Proof.
  unfold threat_model_call.
  destruct (heap w !! examples) as [c|] eqn:Hc.
  - rewrite (bind_silent _ _ _ _ _ (read_run _ _ _ Hc)).
    erewrite bind_silent by apply map_M_alloc. reflexivity.
  - unfold read, load, mbind, M_bind, bind. by rewrite Hc.
Qed.

End Creation.

#[global] Instance same_data_pre {F : Type} : PreOrder (@same_data F).
Proof. split; [by intros c | intros a b c; unfold same_data; congruence]. Qed.

(** ** The attacks only write to the perturbation they create *)
Section AttackFrame.
Context {F : Type} {HF : Float F} {HT : Torch F}.
Context (n : nat) (ps : list loc) (Hps : Forall (λ l, n ≤ l) ps).
Import AdversarialAttack.

Local Abbreviation ok := (respects same_data [] n (attack_event ps)).

Lemma ok_perturbation_call (p : Perturbation F) (x : var F) :
  ok (perturbation_call p x) (λ _, True).
Proof.
  unfold perturbation_call.
  eapply respects_bind with (φ := λ _, True); [apply _| |].
  - eapply respects_weaken; [apply respects_map_M; [apply _|]|done].
    intros l _. frame_rule respects_read.
  - intros vals _. frame_ret.
Qed.

Lemma ok_loss_forward (net : Classifier F) (L : AttackLoss F) (x labels : var F) :
  ok (loss_forward net L x labels) (λ _, True).
Proof.
  unfold loss_forward.
  frame_bind respects_gets. intros r _.
  frame_bind respects_gets. intros mode _.
  frame_bind respects_weights. intros ws _. frame_ret.
Qed.

Lemma ok_autograd_backward (loss : scalar F) :
  ok (autograd_backward loss) (λ _, True).
Proof.
  unfold autograd_backward.
  eapply respects_bind with (φ := λ _, True); [apply _| |].
  - frame_rule respects_for_each. intros lg _. unfold accumulate.
    frame_rule respects_modify_cell. right; right. by intros c c' [= <-].
  - intros _ _. by frame_rule respects_emit.
Qed.

Lemma ok_update_params (p : Perturbation F) (fn : tensor F → tensor F) :
  pert_params p = ps → ok (update_params p fn) (λ _, True).
Proof.
  intros Hp. unfold update_params. rewrite Hp.
  eapply respects_bind with (φ := λ _, True); [apply _| |].
  - frame_rule respects_for_each. intros l Hl. unfold update_one.
    frame_rule respects_modify_cell. left.
    by eapply Forall_forall in Hps.
  - intros _ _. by frame_rule respects_emit.
Qed.

Lemma ok_zero_grad (p : Perturbation F) : ok (zero_grad p) (λ _, True).
Proof.
  unfold zero_grad. frame_rule respects_for_each. intros l _. unfold clear_grad.
  frame_rule respects_modify_cell. right; right. by intros c c' [= <-].
Qed.

Lemma ok_set_data_each (ts : list (tensor F)) :
  ok (for_each (zip ps ts) set_data) (λ _, True).
Proof.
  frame_rule respects_for_each. intros [l t] Hl. unfold set_data.
  frame_rule respects_modify_cell. left. simpl.
  apply elem_of_zip_l in Hl. by eapply Forall_forall in Hps.
Qed.

Lemma ok_random_init (p : Perturbation F) :
  pert_params p = ps → ok (random_init p) (λ _, True).
Proof.
  intros Hp. unfold random_init. rewrite Hp.
  frame_bind respects_gets. intros r _.
  eapply respects_bind with (φ := λ _, True); [apply _| |].
  { by frame_rule respects_modify. }
  intros _ _.
  eapply respects_bind with (φ := λ _, True); [apply _| |].
  - eapply respects_weaken; [apply respects_map_M; [apply _|]|done].
    intros l _. frame_rule respects_read.
  - intros vals _. apply ok_set_data_each.
Qed.

Lemma ok_optimizer_step (o : Optimizer F) :
  opt_params o = ps →
  ok (optimizer_step o) (λ o', opt_params o' = ps).
Proof.
  intros Ho. unfold optimizer_step. rewrite Ho.
  eapply respects_bind with (φ := λ _, True); [apply _| |].
  - eapply respects_weaken; [apply respects_map_M; [apply _|]|done].
    intros l _. frame_rule respects_load.
  - intros cs _.
    eapply respects_bind with (φ := λ _, True); [apply _|apply ok_set_data_each|].
    intros _ _.
    eapply respects_bind with (φ := λ _, True); [apply _|by frame_rule respects_emit|].
    intros _ _. frame_ret.
Qed.

Lemma ok_validation_loop (self : AdversarialAttack.t F) (examples labels : var F)
    (iter_no : nat + string) :
  ok (validation_loop self examples labels iter_no) (λ _, True).
Proof.
  unfold validation_loop.
  frame_bind respects_net_forward. intros out _.
  by frame_rule respects_emit.
Qed.

Lemma ok_validator (self : AdversarialAttack.t F) (verbose : bool)
    (examples labels : var F) (iter_no : nat + string) :
  ok ((if negb verbose then (λ ex label iter_no, mret tt) else validation_loop self)
        examples labels iter_no) (λ _, True).
Proof. destruct verbose; simpl; [apply ok_validation_loop|frame_ret]. Qed.

Lemma ok_iteration (self : AdversarialAttack.t F) (p : Perturbation F)
    (var_examples var_labels : var F) (update_fxn : tensor F → tensor F)
    (signed verbose : bool) (iter_no : nat) (o : Optimizer F) :
  pert_params p = ps → opt_params o = ps →
  ok (PGD.iteration self p var_examples var_labels update_fxn signed
        (if negb verbose then (λ ex label iter_no, mret tt) else validation_loop self)
        iter_no o)
     (λ o', opt_params o' = ps).
Proof.
  intros Hp Ho. unfold PGD.iteration.
  eapply respects_bind with (φ := λ _, True); [apply _|apply ok_zero_grad|]. intros _ _.
  eapply respects_bind with (φ := λ _, True); [apply _|apply ok_perturbation_call|].
  intros adv _.
  eapply respects_bind with (φ := λ _, True); [apply _|apply ok_loss_forward|].
  intros loss _.
  eapply respects_bind with (φ := λ _, True); [apply _|apply ok_autograd_backward|].
  intros _ _.
  eapply respects_bind with (φ := λ o', opt_params o' = ps); [apply _| |].
  - destruct signed; [|by apply ok_optimizer_step].
    eapply respects_bind with (φ := λ _, True); [apply _|by apply ok_update_params|].
    intros _ _. frame_ret.
  - intros o' Ho'.
    eapply respects_bind with (φ := λ _, True); [apply _|apply ok_perturbation_call|].
    intros adv' _.
    eapply respects_bind with (φ := λ _, True); [apply _|apply ok_validator|].
    intros _ _. frame_ret.
Qed.

End AttackFrame.

Section OptimizerScopes.
Context {F : Type} {HF : Float F} {HT : Torch F}.
Import AdversarialAttack.

Lemma frame_append (n : nat) (w : world F) (cs : list (cell F)) :
  frame same_data [] n w (set_heap (λ h, h ++ cs) w).
Proof.
  unfold frame, set_heap. cbn [heap]. split; [rewrite length_app; lia|].
  intros l c _ _ Hc. exists c. split; [by apply lookup_app_l_Some|done].
Qed.

Lemma FGSM_attack_unfold (self : AdversarialAttack.t F) (examples labels : loc)
    (step_size : F) (verbose : bool) (w : world F) :
  FGSM.attack self examples labels step_size verbose w
  = match heap w !! examples with
    | Some c =>
        FGSM_after_creation self (created (threat_model self) (data c) w)
          examples labels step_size verbose
          (set_heap (λ h, h ++ fresh_cells (tm_init (threat_model self) (data c)))
                    (set_training false w))
    | None => ([], Raise ReferenceError (set_training false w))
    end.
Proof.
  unfold FGSM.attack.
  erewrite bind_silent by reflexivity.
  unfold mbind at 1, M_bind at 1, bind at 1.
  rewrite threat_model_call_run.
  change (heap (set_training false w)) with (heap w).
  destruct (heap w !! examples) as [c|]; [|reflexivity].
  match goal with
  | |- _ = ?R => transitivity (let '(ev', o) := R in (ev', o)); [reflexivity|by destruct R]
  end.
Qed.

Lemma PGD_attack_unfold (self : AdversarialAttack.t F) (examples labels : loc)
    (step_size : F) (num_iterations : Z) (random_init_flag signed verbose : bool)
    (w : world F) :
  PGD.attack self examples labels step_size num_iterations random_init_flag signed
    verbose w
  = match heap w !! examples with
    | Some c =>
        PGD_after_creation self (created (threat_model self) (data c) w)
          examples labels step_size num_iterations random_init_flag signed verbose
          (set_heap (λ h, h ++ fresh_cells (tm_init (threat_model self) (data c)))
                    (set_training false w))
    | None => ([], Raise ReferenceError (set_training false w))
    end.
Proof.
  unfold PGD.attack.
  erewrite bind_silent by reflexivity.
  unfold mbind at 1, M_bind at 1, bind at 1.
  rewrite threat_model_call_run.
  change (heap (set_training false w)) with (heap w).
  destruct (heap w !! examples) as [c|]; [|reflexivity].
  match goal with
  | |- _ = ?R => transitivity (let '(ev', o) := R in (ev', o)); [reflexivity|by destruct R]
  end.
Qed.

Lemma ok_PGD_after_creation (n : nat) (self : AdversarialAttack.t F) (p : Perturbation F)
    (examples labels : loc) (step_size : F) (num_iterations : Z)
    (random_init_flag signed verbose : bool) :
  Forall (λ l, n ≤ l) (pert_params p) →
  respects same_data [] n (attack_event (pert_params p))
    (PGD_after_creation self p examples labels step_size num_iterations
       random_init_flag signed verbose)
    (λ p', pert_params p' = pert_params p).
Proof.
  intros Hps. unfold PGD_after_creation. cbv zeta.
  frame_bind respects_mk_Variable. intros ve _.
  frame_bind respects_mk_Variable. intros vl _.
  eapply respects_bind with (φ := λ _, True); [apply _|by frame_rule respects_modify|].
  intros _ _.
  eapply respects_bind with (φ := λ _, True); [apply _|by apply ok_validator|].
  intros _ _.
  eapply respects_bind with (φ := λ _, True); [apply _| |].
  { destruct random_init_flag; [|frame_ret].
    eapply respects_bind with (φ := λ _, True); [apply _|by apply ok_random_init|].
    intros _ _.
    eapply respects_bind with (φ := λ _, True); [apply _|by apply ok_perturbation_call|].
    intros adv _. by apply ok_validator. }
  intros _ _.
  eapply respects_bind with (φ := λ _, True); [apply _| |].
  { eapply respects_weaken;
      [apply (respects_for_range _ _ _ _ _ _ _ (λ o, opt_params o = pert_params p));
       [done|]|done].
    intros i o Ho. by apply ok_iteration. }
  intros _ _.
  eapply respects_bind with (φ := λ _, True); [apply _|by apply ok_zero_grad|].
  intros _ _.
  eapply respects_bind with (φ := λ _, True); [apply _|by frame_rule respects_modify|].
  intros _ _. frame_ret.
Qed.

(** Every run of the multi-step attack, returning or raising, whatever the
    iteration count and the flags: the perturbation's parameters are
    created by the call, the updates and optimizer steps are over exactly
    these parameters, and no tensor that existed before the call changes
    its data. *)
Lemma PGD_attack_frame (self : AdversarialAttack.t F) (examples labels : loc)
    (step_size : F) (num_iterations : Z) (random_init_flag signed verbose : bool)
    (w : world F) :
  let r := PGD.attack self examples labels step_size num_iterations
             random_init_flag signed verbose w in
  frame same_data [] (length (heap w)) w (final r) ∧
  ∃ ps, Forall (λ l, length (heap w) ≤ l) ps ∧
        Forall (attack_event ps) r.1 ∧
        ∀ p, result_of r = Some p → pert_params p = ps.
Proof.
  intros r. subst r. rewrite PGD_attack_unfold.
  set (w0 := set_training false w).
  destruct (heap w !! examples) as [c|] eqn:Hc.
  2:{ unfold final, result_of. simpl.
      split; [apply frame_same_heap; [apply _|done]|].
      exists []. split; [constructor|]. split; [constructor|]. by intros p. }
  set (p := created (threat_model self) (data c) w).
  set (w1 := set_heap _ w0).
  set (n := length (heap w)).
  assert (Hps : Forall (λ l, n ≤ l) (pert_params p)).
  { apply Forall_forall. intros l Hl. apply elem_of_seq in Hl. unfold n. lia. }
  assert (Hn1 : n ≤ length (heap w1)).
  { unfold w1, set_heap. cbn [heap]. rewrite length_app. unfold n, w0. simpl. lia. }
  destruct (ok_PGD_after_creation n self p examples labels step_size num_iterations
              random_init_flag signed verbose Hps w1 Hn1) as (Hfr & Hev & Hres).
  split.
  - eapply (frame_trans _ _ _ _ w1); [|exact Hfr].
    eapply (frame_trans _ _ _ _ w0); [apply frame_same_heap; [apply _|done]|apply frame_append].
  - exists (pert_params p). split; [exact Hps|]. split; [exact Hev|].
    intros p' Hp'. by rewrite Hp' in Hres.
Qed.

(** An optimizer writes only to its own parameter group. *)
Lemma optimizer_step_scope (o : Optimizer F) (n : nat) :
  respects eq (opt_params o) n (λ _, True) (optimizer_step o)
    (λ o', opt_params o' = opt_params o).
Proof.
  unfold optimizer_step.
  eapply respects_bind with (φ := λ _, True); [apply _| |].
  - eapply respects_weaken; [apply respects_map_M; [apply _|]|done].
    intros l _. frame_rule respects_load.
  - intros cs _.
    eapply respects_bind with (φ := λ _, True); [apply _| |].
    + frame_rule respects_for_each. intros [l t] Hl. unfold set_data.
      frame_rule respects_modify_cell. right; left. simpl.
      by apply elem_of_zip_l in Hl.
    + intros _ _.
      eapply respects_bind with (φ := λ _, True); [apply _|by frame_rule respects_emit|].
      intros _ _. frame_ret.
Qed.

Lemma optimizer_zero_grad_scope (o : Optimizer F) (n : nat) :
  respects eq (opt_params o) n (λ _, True) (optimizer_zero_grad o) (λ _, True).
Proof.
  unfold optimizer_zero_grad.
  eapply respects_bind with (φ := λ _, True); [apply _| |].
  - frame_rule respects_for_each. intros l Hl. unfold clear_grad.
    frame_rule respects_modify_cell. by right; left.
  - intros _ _. by frame_rule respects_emit.
Qed.

(** ** What a computation returns *)
Lemma returns_any {A} (m : M F A) : returns m (λ _, True).
Proof. done. Qed.

Lemma returns_ret {A} (a : A) (φ : A → Prop) : φ a → returns (mret a : M F A) φ.
Proof. intros Ha w b [= <-]. exact Ha. Qed.

Lemma returns_bind {A B} (m : M F A) (f : A → M F B) (φ : A → Prop) (φ' : B → Prop) :
  returns m φ → (∀ a, φ a → returns (f a) φ') → returns (m ≫= f) φ'.
Proof.
  intros Hm Hf w b. specialize (Hm w). specialize (λ a H, Hf a H).
  unfold result_of, mbind, M_bind, bind in *.
  destruct (m w) as [ev [a w1|e w1]]; simpl in *; [|done].
  specialize (Hf a (Hm a eq_refl) w1 b). unfold result_of in Hf.
  destruct (f a w1) as [ev' o]. exact Hf.
Qed.

Lemma returns_for_enum {A St} (xs : list A) (i : nat) (body : nat → A → St → M F St)
    (φ : St → Prop) (s : St) :
  φ s → (∀ i x s, φ s → returns (body i x s) φ) →
  returns (for_enum xs i body s) φ.
Proof.
  revert i s. induction xs as [|x xs IH]; intros i s Hs Hb; simpl.
  - by apply returns_ret.
  - eapply returns_bind; [by apply Hb|]. intros s' Hs'. by apply IH.
Qed.

Lemma returns_optimizer_step (o : Optimizer F) :
  returns (optimizer_step o) (λ o', opt_params o' = opt_params o).
Proof.
  unfold optimizer_step.
  eapply returns_bind; [apply returns_any|]. intros cs _.
  eapply returns_bind; [apply returns_any|]. intros _ _.
  eapply returns_bind; [apply returns_any|]. intros _ _.
  by apply returns_ret.
Qed.

(** The minibatch loop of [train] never re-targets its optimizer. *)
Lemma minibatch_step_optimizer (self : AdversarialTraining.t F)
    (loss_fxn : AdversarialTraining.Loss F)
    (attack_parameters : option (AdversarialAttackParameters.t F))
    (use_gpu : bool) (epoch i : nat) (data : tensor F * tensor F)
    (o : Optimizer F) (running_loss : F) :
  returns (AdversarialTraining.minibatch_step self loss_fxn attack_parameters use_gpu
             epoch i data (o, running_loss))
          (λ st, opt_params st.1 = opt_params o).
Proof.
  unfold AdversarialTraining.minibatch_step.
  do 5 (eapply returns_bind; [apply returns_any|]; intros ? _).
  match goal with |- returns (let '(_, _) := ?il in _) _ => destruct il end.
  do 6 (eapply returns_bind; [apply returns_any|]; intros ? _).
  eapply returns_bind; [apply returns_any|]. intros _ _.
  eapply returns_bind; [apply returns_optimizer_step|]. intros o' Ho'.
  eapply returns_bind; [apply returns_any|]. intros report _.
  destruct report.
  - eapply returns_bind; [apply returns_any|]. intros _ _. by apply returns_ret.
  - by apply returns_ret.
Qed.

Lemma epoch_step_optimizer (self : AdversarialTraining.t F)
    (data_loader : nat → list (tensor F * tensor F))
    (loss_fxn : AdversarialTraining.Loss F)
    (attack_parameters : option (AdversarialAttackParameters.t F))
    (use_gpu : bool) (epoch : nat) (o : Optimizer F) :
  returns (AdversarialTraining.epoch_step self data_loader loss_fxn attack_parameters
             use_gpu epoch o)
          (λ o', opt_params o' = opt_params o).
Proof.
  unfold AdversarialTraining.epoch_step.
  eapply returns_bind.
  - apply (returns_for_enum _ _ _ (λ st, opt_params st.1 = opt_params o)); [done|].
    intros i x [o' rl] Ho'. simpl in Ho'. rewrite <- Ho'.
    apply minibatch_step_optimizer.
  - intros st Hst. eapply returns_bind; [apply returns_any|].
    intros _ _. by apply returns_ret.
Qed.

(** C9.  The outer optimizer that [train] builds is over exactly the
    classifier's parameters (a supplied one is used as it is), the training
    loop never re-targets it, and the two operations it performs on it
    ([zero_grad], [step]) change nothing outside its parameter group.  The
    multi-step attack creates the perturbation's parameters itself, so they
    are none of the classifier's nor of any optimizer built before the
    call; in every run, for every iteration count and both update
    disciplines, its parameter updates and the steps of its own optimizer
    are over exactly the perturbation's parameters, and no tensor that
    existed before the call, the classifier's weights in particular,
    changes its data. *)
Theorem C9_optimizer_scopes (trainer : AdversarialTraining.t F)
    (self : AdversarialAttack.t F) (examples labels : loc) (step_size : F)
    (num_iterations : Z) (random_init_flag signed verbose : bool) (w : world F) :
  let net := AdversarialTraining.classifier_net trainer in
  Forall (λ l, l < length (heap w)) (net_params net) →
  let outer := AdversarialTraining.outer_optimizer trainer in
  let r := PGD.attack self examples labels step_size num_iterations
             random_init_flag signed verbose w in
  opt_params (outer None) = net_params net ∧
  (∀ o, outer (Some o) = o) ∧
  (∀ loss_fxn ap use_gpu epoch i data o running_loss,
     returns (AdversarialTraining.minibatch_step trainer loss_fxn ap use_gpu epoch i
                data (o, running_loss))
             (λ st, opt_params st.1 = opt_params o)) ∧
  (∀ data_loader loss_fxn ap use_gpu epoch o,
     returns (AdversarialTraining.epoch_step trainer data_loader loss_fxn ap use_gpu
                epoch o)
             (λ o', opt_params o' = opt_params o)) ∧
  (∀ o n,
     respects eq (opt_params o) n (λ _, True) (optimizer_zero_grad o) (λ _, True) ∧
     respects eq (opt_params o) n (λ _, True) (optimizer_step o)
       (λ o', opt_params o' = opt_params o)) ∧
  (∀ l c, heap w !! l = Some c →
          ∃ c', heap (final r) !! l = Some c' ∧ data c' = data c) ∧
  ∃ ps, (∀ p, result_of r = Some p → parameters p = ps) ∧
        Forall (attack_event ps) r.1 ∧
        (∀ l, l ∈ ps →
           length (heap w) ≤ l ∧ (l ∉ net_params net) ∧ (l ∉ opt_params (outer None)) ∧
           ∀ o, Forall (λ l', l' < length (heap w)) (opt_params o) →
                l ∉ opt_params (outer (Some o))).
Proof.
  intros net Hnet outer r.
  split; [reflexivity|]. split; [reflexivity|].
  split; [intros; apply minibatch_step_optimizer|].
  split; [intros; apply epoch_step_optimizer|].
  split.
  { intros o n. split.
    - apply optimizer_zero_grad_scope.
    - apply optimizer_step_scope. }
  destruct (PGD_attack_frame self examples labels step_size num_iterations
              random_init_flag signed verbose w) as ([_ Hfr] & ps & Hps & Hev & Hres).
  fold r in Hfr, Hev, Hres.
  split.
  { intros l c Hc.
    destruct (Hfr l c) as (c' & Hc' & Hd); [by eapply lookup_lt_Some|apply not_elem_of_nil|done|].
    exists c'. split; [done|]. by symmetry. }
  exists ps. split; [exact Hres|]. split; [exact Hev|].
  intros l Hl.
  assert (Hge : length (heap w) ≤ l) by (by eapply Forall_forall in Hps).
  assert (Hout : ∀ ls, Forall (λ l', l' < length (heap w)) ls → l ∉ ls).
  { intros ls Hls Hin. eapply Forall_forall in Hls; [|exact Hin]. simpl in Hls. lia. }
  split; [exact Hge|]. split; [by apply Hout|]. split; [by apply Hout|].
  intros o Ho. by apply Hout.
Qed.

End OptimizerScopes.

(** The toy trainer and engine, in the toy store. *)
Lemma C9_optimizer_scopes_witness :
  let net := AdversarialTraining.classifier_net Toy.trainer in
  let outer := AdversarialTraining.outer_optimizer Toy.trainer in
  let r := PGD.attack Toy.engine 1 2 2%Z 2 true false true Toy.w0 in
  Forall (λ l, l < length (heap Toy.w0)) (net_params net) ∧
  opt_params (outer None) = net_params net ∧
  (∀ l c, heap Toy.w0 !! l = Some c →
          ∃ c', heap (final r) !! l = Some c' ∧ data c' = data c) ∧
  ∃ ps, (∀ p, result_of r = Some p → parameters p = ps) ∧
        Forall (attack_event ps) r.1 ∧
        (∀ l, l ∈ ps → length (heap Toy.w0) ≤ l ∧ (l ∉ net_params net)).
Proof.
  intros net outer r.
  assert (Hnet : Forall (λ l, l < length (heap Toy.w0)) (net_params net)).
  { repeat constructor. }
  split; [exact Hnet|].
  destruct (C9_optimizer_scopes Toy.trainer Toy.engine 1 2 2%Z 2 true false true Toy.w0 Hnet)
    as (H1 & _ & _ & _ & _ & H5 & ps & Hp & Hev & Hps).
  split; [exact H1|]. split; [exact H5|].
  exists ps. split; [exact Hp|]. split; [exact Hev|].
  intros l Hl. destruct (Hps l Hl) as (? & ? & _). by split.
Defined.

(** ** Independence from the random generators *)
Section Determinism.
Context {F : Type} {HF : Float F} {HT : Torch F}.
Import AdversarialAttack.

Lemma rng_free_ret {A} (a : A) : rng_free (mret a : M F A).
Proof. by intros w py t. Qed.

Lemma rng_free_raise {A} (e : exn) : rng_free (raise e : M F A).
Proof. by intros w py t. Qed.

Lemma rng_free_bind {A B} (m : M F A) (f : A → M F B) :
  rng_free m → (∀ a, rng_free (f a)) → rng_free (m ≫= f).
Proof.
  intros Hm Hf w py t. unfold mbind, M_bind, bind. rewrite Hm.
  unfold reseed. destruct (m w) as [ev [a w1|e w1]]; simpl; [|done].
  rewrite Hf. unfold reseed. by destruct (f a w1) as [ev' [b w2|e w2]].
Qed.

Lemma rng_free_gets {A} (f : world F → A) :
  (∀ w py t, f (with_rngs py t w) = f w) → rng_free (gets f).
Proof. intros Hf w py t. unfold gets, reseed. simpl. by rewrite Hf. Qed.

Lemma rng_free_modify (f : world F → world F) :
  (∀ w py t, f (with_rngs py t w) = with_rngs py t (f w)) → rng_free (modify f).
Proof. intros Hf w py t. unfold modify, reseed. simpl. by rewrite Hf. Qed.

Lemma rng_free_emit (e : event) : rng_free (emit e : M F unit).
Proof. by intros w py t. Qed.

Lemma rng_free_alloc (t : tensor F) : rng_free (alloc t).
Proof. by intros w py t'. Qed.

Lemma rng_free_load (l : loc) : rng_free (load l : M F (cell F)).
Proof. intros w py t. unfold load, reseed. simpl. by destruct (heap w !! l). Qed.

Lemma rng_free_read (l : loc) : rng_free (read l : M F (tensor F)).
Proof.
  unfold read. apply rng_free_bind; [apply rng_free_load|].
  intros c. apply rng_free_ret.
Qed.

Lemma rng_free_modify_cell (l : loc) (f : cell F → exn + cell F) :
  rng_free (modify_cell l f).
Proof.
  intros w py t. unfold modify_cell, reseed. simpl.
  destruct (heap w !! l) as [c|]; [|done]. by destruct (f c).
Qed.

Lemma rng_free_for_each {A} (xs : list A) (body : A → M F unit) :
  (∀ x, rng_free (body x)) → rng_free (for_each xs body).
Proof.
  intros Hb. induction xs as [|x xs IH]; simpl; [apply rng_free_ret|].
  apply rng_free_bind; [apply Hb|]. by intros _.
Qed.

Lemma rng_free_map_M {A B} (f : A → M F B) (xs : list A) :
  (∀ x, rng_free (f x)) → rng_free (map_M f xs).
Proof.
  intros Hf. induction xs as [|x xs IH]; simpl; [apply rng_free_ret|].
  apply rng_free_bind; [apply Hf|]. intros y.
  apply rng_free_bind; [apply IH|]. intros ys. apply rng_free_ret.
Qed.

Lemma rng_free_for_range {St} (k start : nat) (body : nat → St → M F St) (s : St) :
  (∀ i s, rng_free (body i s)) → rng_free (for_range k start body s).
Proof.
  intros Hb. revert start s. induction k as [|k IH]; intros start s; simpl.
  - apply rng_free_ret.
  - apply rng_free_bind; [apply Hb|]. intros s'. apply IH.
Qed.

Lemma rng_free_mk_Variable (x : option loc) : rng_free (mk_Variable x : M F (var F)).
Proof.
  destruct x; simpl; [|apply rng_free_ret].
  apply rng_free_bind; [apply rng_free_read|]. intros t. apply rng_free_ret.
Qed.

Lemma rng_free_weights (net : Classifier F) : rng_free (weights net).
Proof. apply rng_free_map_M. intros l. apply rng_free_read. Qed.

Lemma rng_free_net_forward (net : Classifier F) (x : tensor F) :
  rng_free (net_forward net x).
Proof.
  unfold net_forward. apply rng_free_bind; [by apply rng_free_gets|]. intros mode.
  apply rng_free_bind; [apply rng_free_weights|]. intros ws. apply rng_free_ret.
Qed.

Lemma rng_free_validation_loop (self : AdversarialAttack.t F) (examples labels : var F)
    (iter_no : nat + string) :
  rng_free (validation_loop self examples labels iter_no).
Proof.
  unfold validation_loop. apply rng_free_bind; [apply rng_free_net_forward|].
  intros out. apply rng_free_emit.
Qed.

Lemma rng_free_validator (self : AdversarialAttack.t F) (verbose : bool)
    (examples labels : var F) (iter_no : nat + string) :
  rng_free ((if negb verbose then (λ ex label iter_no, mret tt)
             else validation_loop self) examples labels iter_no).
Proof. destruct verbose; simpl; [apply rng_free_validation_loop|apply rng_free_ret]. Qed.

Lemma rng_free_perturbation_call (p : Perturbation F) (x : var F) :
  rng_free (perturbation_call p x).
Proof.
  unfold perturbation_call. apply rng_free_bind.
  - apply rng_free_map_M. intros l. apply rng_free_read.
  - intros vals. apply rng_free_ret.
Qed.

Lemma rng_free_loss_forward (net : Classifier F) (L : AttackLoss F) (x labels : var F) :
  rng_free (loss_forward net L x labels).
Proof.
  unfold loss_forward. apply rng_free_bind; [by apply rng_free_gets|]. intros r.
  apply rng_free_bind; [by apply rng_free_gets|]. intros mode.
  apply rng_free_bind; [apply rng_free_weights|]. intros ws. apply rng_free_ret.
Qed.

Lemma rng_free_autograd_backward (loss : scalar F) : rng_free (autograd_backward loss).
Proof.
  unfold autograd_backward. apply rng_free_bind.
  - apply rng_free_for_each. intros lg. apply rng_free_modify_cell.
  - intros _. apply rng_free_emit.
Qed.

Lemma rng_free_update_params (p : Perturbation F) (fn : tensor F → tensor F) :
  rng_free (update_params p fn).
Proof.
  unfold update_params. apply rng_free_bind.
  - apply rng_free_for_each. intros l. apply rng_free_modify_cell.
  - intros _. apply rng_free_emit.
Qed.

Lemma rng_free_zero_grad (p : Perturbation F) : rng_free (zero_grad p).
Proof. apply rng_free_for_each. intros l. apply rng_free_modify_cell. Qed.

Lemma rng_free_optimizer_step (o : Optimizer F) : rng_free (optimizer_step o).
Proof.
  unfold optimizer_step. apply rng_free_bind.
  - apply rng_free_map_M. intros l. apply rng_free_load.
  - intros cs. apply rng_free_bind.
    + apply rng_free_for_each. intros lt. apply rng_free_modify_cell.
    + intros _. apply rng_free_bind; [apply rng_free_emit|].
      intros _. apply rng_free_ret.
Qed.

Lemma rng_free_threat_model_call (tm : ThreatModel F) (examples : loc) :
  rng_free (threat_model_call tm examples).
Proof.
  unfold threat_model_call. apply rng_free_bind; [apply rng_free_read|]. intros t.
  apply rng_free_bind.
  - apply rng_free_map_M. intros t'. apply rng_free_alloc.
  - intros ps. apply rng_free_ret.
Qed.

Lemma rng_free_iteration (self : AdversarialAttack.t F) (p : Perturbation F)
    (var_examples var_labels : var F) (update_fxn : tensor F → tensor F)
    (signed verbose : bool) (iter_no : nat) (o : Optimizer F) :
  rng_free (PGD.iteration self p var_examples var_labels update_fxn signed
              (if negb verbose then (λ ex label iter_no, mret tt)
               else validation_loop self) iter_no o).
Proof.
  unfold PGD.iteration.
  apply rng_free_bind; [apply rng_free_zero_grad|]. intros _.
  apply rng_free_bind; [apply rng_free_perturbation_call|]. intros adv.
  apply rng_free_bind; [apply rng_free_loss_forward|]. intros loss.
  apply rng_free_bind; [apply rng_free_autograd_backward|]. intros _.
  apply rng_free_bind.
  - destruct signed; [|apply rng_free_optimizer_step].
    apply rng_free_bind; [apply rng_free_update_params|]. intros _. apply rng_free_ret.
  - intros o'. apply rng_free_bind; [apply rng_free_perturbation_call|]. intros adv'.
    apply rng_free_bind; [apply rng_free_validator|]. intros _. apply rng_free_ret.
Qed.

Lemma rng_free_PGD_attack (self : AdversarialAttack.t F) (examples labels : loc)
    (step_size : F) (num_iterations : Z) (signed verbose : bool) :
  rng_free (PGD.attack self examples labels step_size num_iterations false signed verbose).
Proof.
  unfold PGD.attack.
  apply rng_free_bind; [by apply rng_free_modify|]. intros _.
  apply rng_free_bind; [apply rng_free_threat_model_call|]. intros p.
  apply rng_free_bind; [apply rng_free_mk_Variable|]. intros ve.
  apply rng_free_bind; [apply rng_free_mk_Variable|]. intros vl.
  apply rng_free_bind; [by apply rng_free_modify|]. intros _.
  apply rng_free_bind; [apply rng_free_validator|]. intros _.
  apply rng_free_bind; [apply rng_free_ret|]. intros _.
  apply rng_free_bind.
  { apply rng_free_for_range. intros i o. apply rng_free_iteration. }
  intros _.
  apply rng_free_bind; [apply rng_free_zero_grad|]. intros _.
  apply rng_free_bind; [by apply rng_free_modify|]. intros _.
  apply rng_free_ret.
Qed.

Lemma rng_free_FGSM_attack (self : AdversarialAttack.t F) (examples labels : loc)
    (step_size : F) (verbose : bool) :
  rng_free (FGSM.attack self examples labels step_size verbose).
Proof.
  unfold FGSM.attack.
  apply rng_free_bind; [by apply rng_free_modify|]. intros _.
  apply rng_free_bind; [apply rng_free_threat_model_call|]. intros p.
  apply rng_free_bind; [apply rng_free_mk_Variable|]. intros ve.
  apply rng_free_bind; [apply rng_free_mk_Variable|]. intros vl.
  apply rng_free_bind; [by apply rng_free_modify|]. intros _.
  apply rng_free_bind; [apply rng_free_perturbation_call|]. intros adv.
  apply rng_free_bind; [apply rng_free_loss_forward|]. intros loss.
  apply rng_free_bind; [apply rng_free_autograd_backward|]. intros _.
  apply rng_free_bind; [apply rng_free_update_params|]. intros _.
  apply rng_free_bind.
  { destruct verbose; [|apply rng_free_ret].
    apply rng_free_bind; [apply rng_free_perturbation_call|]. intros adv'.
    apply rng_free_validation_loop. }
  intros _.
  apply rng_free_bind; [by apply rng_free_modify|]. intros _.
  apply rng_free_ret.
Qed.

End Determinism.



(** ** In-place updates of the store in closed form *)
Section Updates.
Context {F : Type} {HF : Float F} {HT : Torch F}.

Lemma insert_as_alter (h : list (cell F)) (l : loc) (c : cell F) (f : cell F → cell F) :
  h !! l = Some c → <[l:=f c]> h = alter f l h.
Proof.
  intros Hl. apply list_eq. intros i. destruct (decide (i = l)) as [->|Hne].
  - rewrite list_lookup_insert_eq by (by eapply lookup_lt_Some).
    by rewrite list_lookup_alter_eq, Hl.
  - by rewrite list_lookup_insert_ne, list_lookup_alter_ne.
Qed.

Lemma alter_all_length ops (h : list (cell F)) : length (alter_all ops h) = length h.
Proof.
  revert h. induction ops as [|[l f] ops IH]; intros h; simpl; [done|].
  unfold alter_all in *. simpl. by rewrite IH, length_alter.
Qed.

Lemma alter_all_app ops1 ops2 (h : list (cell F)) :
  alter_all (ops1 ++ ops2) h = alter_all ops2 (alter_all ops1 h).
Proof. unfold alter_all. by rewrite foldl_app. Qed.

Lemma alter_all_other ops (h : list (cell F)) (l : loc) :
  l ∉ ops.*1 → alter_all ops h !! l = h !! l.
Proof.
  revert h. induction ops as [|[l' f] ops IH]; intros h Hl; [done|].
  unfold alter_all in *. simpl in *.
  apply not_elem_of_cons in Hl as [Hne Hl].
  rewrite IH by done. by rewrite list_lookup_alter_ne.
Qed.

Lemma alter_all_at ops (h : list (cell F)) (l : loc) (f : cell F → cell F) :
  NoDup ops.*1 → (l, f) ∈ ops → alter_all ops h !! l = f <$> h !! l.
Proof.
  revert h. induction ops as [|[l' f'] ops IH]; intros h Hnd Hin.
  - by apply elem_of_nil in Hin.
  - simpl in Hnd. apply NoDup_cons in Hnd as [Hnot Hnd].
    unfold alter_all in *. simpl.
    apply elem_of_cons in Hin as [[= -> ->]|Hin].
    + fold (alter_all ops (alter f' l' h)).
      rewrite alter_all_other by done. apply list_lookup_alter_eq.
    + rewrite IH by done. rewrite list_lookup_alter_ne; [done|].
      intros ->. apply Hnot. apply list_elem_of_fmap. by exists (l, f).
Qed.

Lemma alter_all_data ops (h : list (cell F)) :
  Forall (λ op, ∀ c, data (op.2 c) = data c) ops →
  data <$> alter_all ops h = data <$> h.
Proof.
  revert h. induction ops as [|[l f] ops IH]; intros h Hops; [done|].
  apply Forall_cons in Hops as [Hf Hops]. unfold alter_all in *. simpl in *.
  rewrite IH by done. apply list_eq. intros i.
  rewrite !list_lookup_fmap. destruct (decide (l = i)) as [->|Hne].
  - rewrite list_lookup_alter_eq. destruct (h !! i); simpl; [by rewrite Hf|done].
  - by rewrite list_lookup_alter_ne.
Qed.

Lemma alter_all_id ops (h : list (cell F)) :
  Forall (λ op, ∀ c, h !! op.1 = Some c → op.2 c = c) ops → alter_all ops h = h.
Proof.
  induction ops as [|[l f] ops IH]; intros Hops; [done|].
  apply Forall_cons in Hops as [Hf Hops]. unfold alter_all in *. simpl in *.
  assert (alter f l h = h) as ->; [|by apply IH].
  apply list_eq. intros i. destruct (decide (l = i)) as [->|Hne].
  - rewrite list_lookup_alter_eq. destruct (h !! i) eqn:E; simpl; [by rewrite Hf|done].
  - by rewrite list_lookup_alter_ne.
Qed.

Lemma modify_cell_run (l : loc) (f : cell F → cell F) (c : cell F) (w : world F) :
  heap w !! l = Some c →
  modify_cell l (λ c, inr (f c)) w = ([], Ok tt (set_heap (alter f l) w)).
Proof.
  intros Hl. unfold modify_cell. rewrite Hl. unfold set_heap.
  by rewrite (insert_as_alter _ _ _ _ Hl).
Qed.

Lemma for_each_modify_run {X} (xs : list X) (g : X → loc) (f : X → cell F → cell F)
    (w : world F) :
  Forall (λ x, g x < length (heap w)) xs →
  for_each xs (λ x, modify_cell (g x) (λ c, inr (f x c))) w
  = ([], Ok tt (set_heap (alter_all ((λ x, (g x, f x)) <$> xs)) w)).
Proof.
  revert w. induction xs as [|x xs IH]; intros w Hxs; simpl.
  - by destruct w.
  - apply Forall_cons in Hxs as [Hx Hxs].
    destruct (lookup_lt_is_Some_2 _ _ Hx) as [c Hc].
    rewrite (bind_silent _ _ _ _ _ (modify_cell_run _ (f x) _ _ Hc)).
    rewrite IH; [done|].
    unfold set_heap. cbn [heap]. rewrite length_alter. exact Hxs.
Qed.

Lemma for_each_update_run (ps : list loc) (fn : tensor F → tensor F) (w : world F) :
  Forall (λ l, ∃ c, heap w !! l = Some c ∧ is_Some (grad c)) ps →
  for_each ps (update_one fn) w
  = ([], Ok tt (set_heap (alter_all ((λ l, (l, stepped fn)) <$> ps)) w)).
Proof.
  revert w. induction ps as [|l ps IH]; intros w Hps; simpl.
  - by destruct w.
  - apply Forall_cons in Hps as [(c & Hc & [g Hg]) Hps].
    assert (Hrun : update_one fn l w = ([], Ok tt (set_heap (alter (stepped fn) l) w))).
    { unfold update_one, modify_cell. rewrite Hc, Hg. unfold set_heap.
      rewrite <- (insert_as_alter _ _ _ _ Hc). unfold stepped. by rewrite Hg. }
    rewrite (bind_silent _ _ _ _ _ Hrun).
    rewrite IH; [done|].
    eapply Forall_impl; [exact Hps|]. intros l' (c' & Hc' & Hg'). simpl in *.
    destruct (decide (l = l')) as [->|Hne].
    + exists (stepped fn c'). rewrite list_lookup_alter_eq, Hc'. split; [done|].
      unfold stepped. destruct Hg' as [g' Hg'']. by rewrite Hg''.
    + exists c'. by rewrite list_lookup_alter_ne.
Qed.

Lemma map_M_read_run (ls : list loc) (ts : list (tensor F)) (w : world F) :
  Forall2 (λ l t, data <$> heap w !! l = Some t) ls ts →
  map_M read ls w = ([], Ok ts w).
Proof.
  induction 1 as [|l t ls ts Hl _ IH]; simpl; [done|].
  destruct (heap w !! l) as [c|] eqn:Hc; [|done]. injection Hl as <-.
  rewrite (bind_silent _ _ _ _ _ (read_run _ _ _ Hc)).
  by rewrite (bind_silent _ _ _ _ _ IH).
Qed.

Lemma map_M_load_run (ls : list loc) (cs : list (cell F)) (w : world F) :
  Forall2 (λ l c, heap w !! l = Some c) ls cs →
  map_M load ls w = ([], Ok cs w).
Proof.
  induction 1 as [|l c ls cs Hl _ IH]; simpl; [done|].
  assert (Hrun : load l w = ([], Ok c w)) by (unfold load; by rewrite Hl).
  rewrite (bind_silent _ _ _ _ _ Hrun).
  by rewrite (bind_silent _ _ _ _ _ IH).
Qed.

Lemma mk_Variable_run (l : loc) (c : cell F) (w : world F) :
  heap w !! l = Some c →
  mk_Variable (Some l) w = ([], Ok (Var (data c) (Some l) [] (λ _, [])) w).
Proof.
  intros Hl. unfold mk_Variable. by rewrite (bind_silent _ _ _ _ _ (read_run _ _ _ Hl)).
Qed.

End Updates.

(** ** Running the steps of an attack *)
Section Steps.
Context {F : Type} {HF : Float F} {HT : Torch F}.
Import AdversarialAttack.

Lemma bind_run {A B} (m : M F A) (f : A → M F B) w ev a w' ev' o :
  m w = (ev, Ok a w') → f a w' = (ev', o) → (m ≫= f) w = (ev ++ ev', o).
Proof. intros Hm Hf. rewrite (bind_Ok _ _ _ _ _ _ Hm). by rewrite Hf. Qed.

Lemma run_events {A} (r : list event * outcome F A) ev ev' o :
  r = (ev', o) → ev' = ev → r = (ev, o).
Proof. by intros -> ->. Qed.

Lemma reads_lt (h : list (cell F)) ls ts : reads h ls ts → Forall (λ l, l < length h) ls.
Proof.
  induction 1 as [|l t ls ts Hl _ IH]; constructor; [|done].
  apply lookup_lt_Some in Hl. by rewrite length_fmap in Hl.
Qed.

Lemma reads_exists (h : list (cell F)) ls :
  Forall (λ l, l < length h) ls → ∃ ts, reads h ls ts.
Proof.
  induction 1 as [|l ls Hl _ [ts IH]]; [exists []; constructor|].
  destruct (lookup_lt_is_Some_2 (data <$> h) l) as [t Ht]; [by rewrite length_fmap|].
  exists (t :: ts). by constructor.
Qed.

Lemma reads_app_l (h h' : list (cell F)) ls ts : reads h ls ts → reads (h ++ h') ls ts.
Proof.
  intros Hr. eapply Forall2_impl; [exact Hr|].
  intros l t Hl. rewrite fmap_app. by apply lookup_app_l_Some.
Qed.

Lemma reads_fresh (h : list (cell F)) (ts : list (tensor F)) :
  reads (h ++ fresh_cells ts) (seq (length h) (length ts)) ts.
Proof.
  apply Forall2_same_length_lookup. split; [by rewrite length_seq|].
  intros i l t Hl Ht. apply lookup_seq in Hl as [-> Hi].
  rewrite list_lookup_fmap, lookup_app_r by lia.
  replace (length h + i - length h) with i by lia.
  unfold fresh_cells. by rewrite list_lookup_fmap, Ht.
Qed.

Lemma read_all_run (ls : list loc) (ts : list (tensor F)) (w : world F) :
  reads (heap w) ls ts → map_M read ls w = ([], Ok ts w).
Proof.
  intros Hr. apply map_M_read_run. eapply Forall2_impl; [exact Hr|].
  intros l t Hl. by rewrite <- list_lookup_fmap.
Qed.

Lemma perturbation_call_run (p : Perturbation F) (x : var F) (vals : list (tensor F))
    (w : world F) :
  reads (heap w) (pert_params p) vals →
  perturbation_call p x w
  = ([], Ok (Var (tm_apply (pert_model p) vals (v_data x)) None (pert_params p)
                 (tm_vjp (pert_model p) vals (v_data x))) w).
Proof.
  intros Hr. unfold perturbation_call.
  by rewrite (bind_silent _ _ _ _ _ (read_all_run _ _ _ Hr)).
Qed.

Lemma net_forward_run (net : Classifier F) (x : tensor F) (ws : list (tensor F))
    (w : world F) :
  reads (heap w) (net_params net) ws →
  net_forward net x w
  = ([], Ok (Var (net_fn net (training w) ws x) None (net_params net)
                 (net_vjp net (training w) ws x)) w).
Proof.
  intros Hr. unfold net_forward. erewrite bind_silent by reflexivity.
  unfold weights. by rewrite (bind_silent _ _ _ _ _ (read_all_run _ _ _ Hr)).
Qed.

Lemma validation_loop_run (self : AdversarialAttack.t F) (examples labels : var F)
    (iter_no : nat + string) (ws : list (tensor F)) (w : world F) :
  reads (heap w) (net_params (classifier_net self)) ws →
  validation_loop self examples labels iter_no w
  = ([EvPrint (match iter_no with
               | inl _ => "(iteration %02d):  %s correct"
               | inr _ => "(%s):  %s correct"
               end)], Ok tt w).
Proof.
  intros Hr. unfold validation_loop.
  by rewrite (bind_silent _ _ _ _ _ (net_forward_run _ _ _ _ Hr)).
Qed.

Lemma validator_run (self : AdversarialAttack.t F) (verbose : bool)
    (examples labels : var F) (iter_no : nat + string) (ws : list (tensor F))
    (w : world F) :
  reads (heap w) (net_params (classifier_net self)) ws →
  (if negb verbose then (λ ex label iter_no, mret tt) else validation_loop self)
    examples labels iter_no w
  = (validator_log verbose iter_no, Ok tt w).
Proof.
  intros Hr. destruct verbose; simpl; [by eapply validation_loop_run|done].
Qed.

Lemma loss_forward_run (self : AdversarialAttack.t F) (p : Perturbation F)
    (vals ws : list (tensor F)) (x labels : var F) (w : world F) :
  pert_model p = threat_model self →
  reads (heap w) (net_params (classifier_net self)) ws →
  loss_forward (classifier_net self) (loss_fxn self)
    (Var (tm_apply (pert_model p) vals (v_data x)) None (pert_params p)
         (tm_vjp (pert_model p) vals (v_data x))) labels w
  = ([], Ok (Scalar (loss_fn (loss_fxn self) (reference w) (training w) ws
                       (tm_apply (threat_model self) vals (v_data x)) (v_data labels))
                    (backward_graph self (pert_params p) (reference w) (training w)
                       ws vals (v_data x) (v_data labels))) w).
Proof.
  intros Hp Hr. unfold loss_forward.
  erewrite bind_silent by reflexivity. erewrite bind_silent by reflexivity.
  unfold weights. rewrite (bind_silent _ _ _ _ _ (read_all_run _ _ _ Hr)).
  cbn [v_data v_leaves v_vjp]. rewrite Hp. reflexivity.
Qed.

Lemma autograd_backward_run (v : F) (graph : list (loc * tensor F)) (w : world F) :
  Forall (λ lg, lg.1 < length (heap w)) graph →
  autograd_backward (Scalar v graph) w
  = ([EvBackward], Ok tt (set_heap (after_backward graph) w)).
Proof.
  intros Hg. unfold autograd_backward. cbn [s_grads].
  eapply (bind_run _ _ _ [] tt _ [EvBackward]); [|reflexivity].
  apply (for_each_modify_run graph fst (λ lg, accumulated lg.2) w Hg).
Qed.

Lemma update_params_run (p : Perturbation F) (fn : tensor F → tensor F) (w : world F) :
  Forall (λ l, ∃ c, heap w !! l = Some c ∧ is_Some (grad c)) (pert_params p) →
  update_params p fn w
  = ([EvUpdateParams (pert_params p)],
     Ok tt (set_heap (after_update (pert_params p) fn) w)).
Proof.
  intros Hg. unfold update_params.
  eapply (bind_run _ _ _ [] tt _ [EvUpdateParams _]); [|reflexivity].
  by apply for_each_update_run.
Qed.

Lemma zero_grad_run (p : Perturbation F) (w : world F) :
  Forall (λ l, l < length (heap w)) (pert_params p) →
  zero_grad p w = ([], Ok tt (set_heap (after_clear (pert_params p)) w)).
Proof.
  intros Hp. unfold zero_grad.
  apply (for_each_modify_run (pert_params p) id (λ _, cleared) w Hp).
Qed.

Lemma set_data_run (ps : list loc) (ts : list (tensor F)) (w : world F) :
  Forall (λ l, l < length (heap w)) ps →
  for_each (zip ps ts) set_data w = ([], Ok tt (set_heap (after_assign ps ts) w)).
Proof.
  intros Hp.
  apply (for_each_modify_run (zip ps ts) fst (λ lt, with_data lt.2) w).
  apply Forall_forall. intros [l t] Hl. apply elem_of_zip_l in Hl.
  by eapply Forall_forall in Hp.
Qed.

End Steps.

(** ** The attacks, run *)
Section AttackRuns.
Context {F : Type} {HF : Float F} {HT : Torch F}.
Import AdversarialAttack.

Lemma fst_tagged {B} (f : B) (ls : list loc) : ((λ l, (l, f)) <$> ls).*1 = ls.
Proof. induction ls as [|l ls IH]; [done|]. rewrite !fmap_cons. cbn [fst]. by rewrite IH. Qed.

Lemma fst_mapped {A B} (f : A → B) (xs : list (loc * A)) :
  ((λ x, (x.1, f x.2)) <$> xs).*1 = xs.*1.
Proof. induction xs as [|x xs IH]; [done|]. rewrite !fmap_cons. cbn [fst]. by rewrite IH. Qed.

Lemma set_heap_id (f : list (cell F) → list (cell F)) (v : world F) :
  f (heap v) = heap v → set_heap f v = v.
Proof. destruct v. unfold set_heap. simpl. by intros ->. Qed.

Lemma after_backward_keeps_grad graph (h : list (cell F)) (l : loc) (c : cell F) :
  h !! l = Some c → is_Some (grad c) →
  ∃ c', after_backward graph h !! l = Some c' ∧ is_Some (grad c').
Proof.
  revert h c. induction graph as [|[l' g] graph IH]; intros h c Hc Hg; [by exists c|].
  unfold after_backward, alter_all in *. simpl.
  destruct (decide (l' = l)) as [->|Hne].
  - apply (IH _ (accumulated g c)); [|by eexists].
    by rewrite list_lookup_alter_eq, Hc.
  - apply (IH _ c); [|done]. by rewrite list_lookup_alter_ne.
Qed.

Lemma after_backward_grad graph (h : list (cell F)) (l : loc) :
  l ∈ graph.*1 → l < length h →
  ∃ c, after_backward graph h !! l = Some c ∧ is_Some (grad c).
Proof.
  revert h. induction graph as [|[l' g] graph IH]; intros h Hin Hl.
  - by apply elem_of_nil in Hin.
  - destruct (lookup_lt_is_Some_2 _ _ Hl) as [c Hc].
    destruct (decide (l' = l)) as [->|Hne].
    + unfold after_backward, alter_all. simpl.
      apply (after_backward_keeps_grad graph _ l (accumulated g c)); [|by eexists].
      by rewrite list_lookup_alter_eq, Hc.
    + simpl in Hin. apply elem_of_cons in Hin as [?|Hin]; [done|].
      unfold after_backward, alter_all in *. simpl.
      apply IH; [done|]. by rewrite length_alter.
Qed.

Lemma after_backward_data graph (h : list (cell F)) :
  data <$> after_backward graph h = data <$> h.
Proof.
  apply alter_all_data. apply Forall_forall. intros [l f] Hin.
  apply list_elem_of_fmap in Hin as ([l' g] & [= -> ->] & _). done.
Qed.

Lemma after_clear_data ps (h : list (cell F)) : data <$> after_clear ps h = data <$> h.
Proof.
  apply alter_all_data. apply Forall_forall. intros [l f] Hin.
  apply list_elem_of_fmap in Hin as (l' & [= -> ->] & _). done.
Qed.

Lemma after_clear_fresh (h : list (cell F)) (ts : list (tensor F)) :
  after_clear (seq (length h) (length ts)) (h ++ fresh_cells ts) = h ++ fresh_cells ts.
Proof.
  apply alter_all_id. apply Forall_forall. intros [l f] Hin c.
  apply list_elem_of_fmap in Hin as (l' & [= -> ->] & Hl'). simpl.
  apply elem_of_seq in Hl'. rewrite lookup_app_r by lia.
  unfold fresh_cells. rewrite list_lookup_fmap.
  destruct (ts !! _); simpl; [|done]. by intros [= <-].
Qed.

Lemma after_assign_fresh (h : list (cell F)) (ps : list loc) (ts : list (tensor F))
    (l : loc) (c : cell F) :
  after_assign ps ts h !! l = Some c → ∃ c0, h !! l = Some c0 ∧ grad c = grad c0.
Proof.
  unfold after_assign. generalize (zip ps ts). intros ops. revert h c.
  induction ops as [|[l' t] ops IH]; intros h c Hc; [by exists c|].
  unfold alter_all in *. simpl in *.
  destruct (IH _ _ Hc) as (c1 & Hc1 & Hg).
  destruct (decide (l' = l)) as [->|Hne].
  - rewrite list_lookup_alter_eq in Hc1. destruct (h !! l) as [c0|]; [|done].
    injection Hc1 as <-. exists c0. split; [done|]. by rewrite Hg.
  - rewrite list_lookup_alter_ne in Hc1 by done. by exists c1.
Qed.

Context (self : AdversarialAttack.t F) (examples labels : loc) (w : world F).
Context (cx cl : cell F) (ws : list (tensor F)).
Context (Hex : heap w !! examples = Some cx) (Hlab : heap w !! labels = Some cl).
Context (Hws : reads (heap w) (net_params (classifier_net self)) ws).

Let tm := threat_model self.
Let init := tm_init tm (data cx).
Let p := created tm (data cx) w.
Let ps := pert_params p.
Let w1 := attack_start self (data cx) w.
Let g0 := parameter_gradients self (Some (data cx)) false ws init (data cx) (data cl).
Let graph := backward_graph self ps (Some (data cx)) false ws init (data cx) (data cl).

Lemma ps_fresh : Forall (λ l, length (heap w) ≤ l) ps.
Proof. apply Forall_forall. intros l Hl. apply elem_of_seq in Hl. lia. Qed.

Lemma ps_in_h1 : Forall (λ l, l < length (heap w ++ fresh_cells init)) ps.
Proof.
  apply Forall_forall. intros l Hl. apply elem_of_seq in Hl.
  rewrite length_app. unfold fresh_cells. rewrite length_fmap.
  unfold init, tm in *. lia.
Qed.

Lemma graph_in_h1 : Forall (λ lg, lg.1 < length (heap w ++ fresh_cells init)) graph.
Proof.
  apply Forall_app. split; apply Forall_forall; intros [l g] Hl; simpl.
  - apply elem_of_zip_l in Hl. by eapply Forall_forall in Hl; [|apply ps_in_h1].
  - apply elem_of_zip_l in Hl. pose proof (reads_lt _ _ _ Hws) as Hlt.
    eapply Forall_forall in Hlt; [|exact Hl]. rewrite length_app. simpl in Hlt. lia.
Qed.

Lemma weights_in_h1 : reads (heap w ++ fresh_cells init) (net_params (classifier_net self)) ws.
Proof. by apply reads_app_l. Qed.

Context (step_size : F).
Let fn := sign_step step_size.

Lemma random_init_run (q : Perturbation F) (vals : list (tensor F)) (v : world F) :
  reads (heap v) (pert_params q) vals →
  random_init q v
  = ([], Ok tt (set_heap (after_assign (pert_params q)
                            (tm_random (pert_model q) (torch_rng v 0) vals))
                         (set_torch_rng (λ i, torch_rng v (S i)) v))).
Proof.
  intros Hr. unfold random_init.
  erewrite bind_silent by reflexivity. erewrite bind_silent by reflexivity.
  erewrite bind_silent by (by apply read_all_run).
  apply set_data_run. by eapply reads_lt.
Qed.

Lemma fresh_grad_None (l : loc) (c : cell F) :
  l ∈ ps → (heap w ++ fresh_cells init) !! l = Some c → grad c = None.
Proof.
  intros Hl Hc. apply elem_of_seq in Hl. rewrite lookup_app_r in Hc by lia.
  unfold fresh_cells in Hc. rewrite list_lookup_fmap in Hc.
  destruct (init !! _); [|done]. by injection Hc as <-.
Qed.

Lemma zero_grad_initialised (random_init_flag : bool) (v : world F) :
  heap v = heap (initialised self w (data cx) random_init_flag) →
  zero_grad p v = ([], Ok tt v).
Proof.
  intros Hv. rewrite zero_grad_run.
  2:{ rewrite Hv. destruct random_init_flag; simpl.
      - unfold after_assign. rewrite alter_all_length. apply ps_in_h1.
      - apply ps_in_h1. }
  rewrite set_heap_id; [done|]. apply alter_all_id.
  apply Forall_forall. intros [l f] Hin c Hc.
  apply list_elem_of_fmap in Hin as (l' & [= -> ->] & Hl'). simpl in *.
  assert (grad c = None) as Hg.
  { rewrite Hv in Hc. destruct random_init_flag; simpl in Hc.
    - apply after_assign_fresh in Hc as (c0 & Hc0 & ->). by eapply fresh_grad_None.
    - by eapply fresh_grad_None. }
  destruct c as [d g]. simpl in Hg. by subst g.
Qed.

Lemma PGD_zero_run (num_iterations : Z) (random_init_flag signed verbose : bool) :
  (num_iterations ≤ 0)%Z →
  PGD.attack self examples labels step_size num_iterations random_init_flag signed
    verbose w
  = (validator_log verbose (inr "START"%string)
     ++ (if random_init_flag then validator_log verbose (inr "RANDOM"%string) else []),
     Ok (attach_originals p examples)
        (set_reference None (initialised self w (data cx) random_init_flag))).
Proof.
  intros HN. rewrite PGD_attack_unfold, Hex. fold tm init p w1.
  unfold PGD_after_creation. cbv zeta.
  replace (Z.to_nat num_iterations) with 0 by lia. cbn [for_range].
  assert (Hx1 : heap w1 !! examples = Some cx) by (by apply lookup_app_l_Some).
  assert (Hl1 : heap w1 !! labels = Some cl) by (by apply lookup_app_l_Some).
  eapply run_events.
  eapply bind_run; [by apply mk_Variable_run|].
  eapply bind_run; [by apply mk_Variable_run|].
  eapply bind_run; [reflexivity|].
  eapply bind_run; [apply (validator_run self verbose _ _ _ ws); apply weights_in_h1|].
  eapply (bind_run _ _ _
            (if random_init_flag then validator_log verbose (inr "RANDOM"%string) else [])
            tt (set_reference (Some (data cx)) (initialised self w (data cx) random_init_flag))).
  { destruct random_init_flag; [|reflexivity].
    destruct (reads_exists
                (after_assign ps (tm_random tm (torch_rng w 0) init)
                   (heap w ++ fresh_cells init)) ps) as [vals' Hvals'].
    { unfold after_assign. rewrite alter_all_length. apply ps_in_h1. }
    eapply run_events.
    eapply bind_run; [apply (random_init_run p init); apply reads_fresh|].
    eapply bind_run; [by apply (perturbation_call_run p _ vals')|].
    apply (validator_run self verbose _ _ _ ws).
    - cbn [heap set_heap]. unfold reads, after_assign. 
      pose proof weights_in_h1 as Hr. pose proof (reads_lt _ _ _ Hws) as Hlt.
      unfold reads in Hr.
      apply Forall2_same_length_lookup. apply Forall2_same_length_lookup in Hr as [Hlen Hr].
      split; [done|]. intros i l t Hl Ht. rewrite <- (Hr i l t Hl Ht).
      rewrite !list_lookup_fmap. f_equal. apply alter_all_other.
      intros Hin. apply list_elem_of_fmap in Hin as ([l' f] & -> & Hin). simpl in *.
      apply list_elem_of_fmap in Hin as ([l'' t'] & [= -> ->] & Hin).
      apply elem_of_zip_l in Hin. apply elem_of_seq in Hin.
      eapply Forall_forall in Hlt; [|by eapply list_elem_of_lookup_2]. simpl in *. lia.
    - simpl. by rewrite ?app_nil_r. }
  eapply bind_run; [reflexivity|].
  eapply bind_run; [by apply (zero_grad_initialised random_init_flag)|].
  eapply bind_run; [reflexivity|]. reflexivity.
  simpl. by rewrite ?app_nil_r.
Qed.

Context (Hgrad : length init ≤ length g0).

Lemma grads_after_backward :
  Forall (λ l, ∃ c, after_backward graph (heap w ++ fresh_cells init) !! l = Some c
                    ∧ is_Some (grad c)) ps.
Proof.
  apply Forall_forall. intros l Hl. apply (after_backward_grad graph).
  - unfold graph, backward_graph. rewrite fmap_app. apply elem_of_app. left.
    fold g0. rewrite fst_zip; [done|]. unfold ps, p, created. simpl.
    by rewrite length_seq.
  - by eapply Forall_forall in Hl; [|apply ps_in_h1].
Qed.

Lemma weights_after_update :
  reads (after_update ps fn (after_backward graph (heap w ++ fresh_cells init)))
        (net_params (classifier_net self)) ws.
Proof.
  pose proof weights_in_h1 as Hr. pose proof (reads_lt _ _ _ Hws) as Hlt.
  unfold reads in *. rewrite <- (after_backward_data graph) in Hr.
  apply Forall2_same_length_lookup. apply Forall2_same_length_lookup in Hr as [Hlen Hr].
  split; [done|]. intros i l t Hl Ht. rewrite <- (Hr i l t Hl Ht).
  rewrite !list_lookup_fmap. f_equal. apply alter_all_other.
  intros Hin. apply list_elem_of_fmap in Hin as ([l' f] & -> & Hin). simpl in *.
  apply list_elem_of_fmap in Hin as (l'' & [= -> ->] & Hin).
  apply elem_of_seq in Hin.
  eapply Forall_forall in Hlt; [|by eapply list_elem_of_lookup_2]. simpl in Hlt. lia.
Qed.

Lemma FGSM_run (verbose : bool) :
  FGSM.attack self examples labels step_size verbose w
  = ([EvBackward; EvUpdateParams ps] ++ validator_log verbose (inr "Post FGSM"%string),
     Ok (attach_originals p examples)
        (FGSM_final self w (data cx) (data cl) ws step_size)).
Proof.
  rewrite FGSM_attack_unfold, Hex. fold tm init p w1.
  unfold FGSM_after_creation. cbv zeta. fold (sign_step step_size). fold fn.
  assert (Hx1 : heap w1 !! examples = Some cx) by (by apply lookup_app_l_Some).
  assert (Hl1 : heap w1 !! labels = Some cl) by (by apply lookup_app_l_Some).
  destruct (reads_exists
              (after_update ps fn (after_backward graph (heap w ++ fresh_cells init))) ps)
    as [vals' Hvals'].
  { unfold after_update, after_backward. rewrite !alter_all_length. apply ps_in_h1. }
  assert (Hval : ∀ (ve vl : var F) (v : world F),
            heap v = after_update ps fn
                       (after_backward graph (heap w ++ fresh_cells init)) →
            (if verbose
             then adv ← perturbation_call p ve;
                  validation_loop self adv vl (inr "Post FGSM"%string)
             else mret tt) v
            = (validator_log verbose (inr "Post FGSM"%string), Ok tt v)).
  { intros ve vl v Hv. destruct verbose; [|reflexivity].
    eapply (bind_run _ _ _ []); [apply (perturbation_call_run p _ vals'); by rewrite Hv|].
    eapply validation_loop_run. rewrite Hv. apply weights_after_update. }
  eapply run_events.
  eapply bind_run; [by apply mk_Variable_run|].
  eapply bind_run; [by apply mk_Variable_run|].
  eapply bind_run; [reflexivity|].
  eapply bind_run; [apply (perturbation_call_run p _ init); apply reads_fresh|].
  eapply bind_run; [apply (loss_forward_run self p init ws); [done|apply weights_in_h1]|].
  eapply bind_run; [apply autograd_backward_run; apply graph_in_h1|].
  eapply bind_run; [apply update_params_run; apply grads_after_backward|].
  eapply bind_run; [apply Hval; reflexivity|].
  eapply bind_run; [reflexivity|]. reflexivity.
  simpl. by rewrite ?app_nil_r.
Qed.

Let v0 := set_reference (Some (data cx)) w1.

Lemma zero_grad_fresh : zero_grad p v0 = ([], Ok tt v0).
Proof.
  rewrite zero_grad_run by apply ps_in_h1.
  rewrite set_heap_id; [done|]. apply (after_clear_fresh (heap w) init).
Qed.

Lemma PGD_one_step_run (verbose : bool) :
  PGD.attack self examples labels step_size 1 false true verbose w
  = (validator_log verbose (inr "START"%string)
     ++ [EvBackward; EvUpdateParams ps] ++ validator_log verbose (inl 0),
     Ok (attach_originals p examples)
        (set_heap (after_clear ps) (FGSM_final self w (data cx) (data cl) ws step_size))).
Proof.
  rewrite PGD_attack_unfold, Hex. fold tm init p w1.
  unfold PGD_after_creation. cbv zeta. fold (sign_step step_size). fold fn.
  assert (Hx1 : heap w1 !! examples = Some cx) by (by apply lookup_app_l_Some).
  assert (Hl1 : heap w1 !! labels = Some cl) by (by apply lookup_app_l_Some).
  destruct (reads_exists
              (after_update ps fn (after_backward graph (heap w ++ fresh_cells init))) ps)
    as [vals' Hvals'].
  { unfold after_update, after_backward. rewrite !alter_all_length. apply ps_in_h1. }
  eapply run_events.
  eapply bind_run; [by apply mk_Variable_run|].
  eapply bind_run; [by apply mk_Variable_run|].
  eapply bind_run; [reflexivity|].
  eapply bind_run; [apply (validator_run self verbose _ _ _ ws); apply weights_in_h1|].
  eapply bind_run; [reflexivity|].
  eapply bind_run.
  { change (Z.to_nat 1) with 1. cbn [for_range].
    eapply bind_run; [|reflexivity].
    unfold PGD.iteration.
    eapply bind_run; [apply zero_grad_fresh|].
    eapply bind_run; [apply (perturbation_call_run p _ init); apply reads_fresh|].
    eapply bind_run; [apply (loss_forward_run self p init ws); [done|apply weights_in_h1]|].
    eapply bind_run; [apply autograd_backward_run; apply graph_in_h1|].
    eapply bind_run.
    { eapply bind_run; [apply update_params_run; apply grads_after_backward|reflexivity]. }
    eapply bind_run; [by apply (perturbation_call_run p _ vals')|].
    eapply bind_run; [apply (validator_run self verbose _ _ _ ws);
                      apply weights_after_update|].
    reflexivity. }
  eapply bind_run.
  { apply zero_grad_run. cbn [heap set_heap].
    unfold after_update, after_backward. rewrite !alter_all_length. apply ps_in_h1. }
  eapply bind_run; [reflexivity|]. reflexivity.
  simpl. by rewrite ?app_nil_r.
Qed.

Lemma FGSM_final_param (i : nat) (d gi : tensor F) :
  init !! i = Some d → g0 !! i = Some gi →
  heap (FGSM_final self w (data cx) (data cl) ws step_size) !! (length (heap w) + i)
  = Some (Cell (tadd d (fn gi)) (Some gi)).
Proof.
  intros Hd Hgi. unfold FGSM_final. cbn [heap set_heap set_reference].
  fold tm init p ps graph fn. set (l := length (heap w) + i).
  assert (Hi : i < length init) by (by eapply lookup_lt_Some).
  assert (Hl : ps !! i = Some l) by (by apply lookup_seq_lt).
  assert (Hin : l ∈ ps) by (by eapply list_elem_of_lookup_2).
  unfold after_update. rewrite (alter_all_at _ _ l (stepped fn)).
  2:{ rewrite fst_tagged. apply NoDup_seq. }
  2:{ apply list_elem_of_fmap. by exists l. }
  unfold after_backward, graph, backward_graph. fold g0.
  rewrite fmap_app, alter_all_app, alter_all_other.
  2:{ intros Hbad. apply list_elem_of_fmap in Hbad as ([l' f] & Heq & Hbad). simpl in Heq.
      rewrite <- Heq in Hbad. clear Heq.
      apply list_elem_of_fmap in Hbad as ([l'' t] & [= Heq _] & Hbad).
      apply elem_of_zip_l in Hbad. pose proof (reads_lt _ _ _ Hws) as Hlt.
      eapply Forall_forall in Hlt; [|exact Hbad]. simpl in *. unfold l in Heq. lia. }
  rewrite (alter_all_at _ _ l (accumulated gi)).
  2:{ rewrite fst_mapped.
      rewrite fst_zip; [apply NoDup_seq|]. unfold ps, p, created. simpl.
      by rewrite length_seq. }
  2:{ apply list_elem_of_fmap. exists (l, gi). split; [done|].
      apply list_elem_of_lookup. exists i. by apply lookup_zip_Some. }
  unfold w1, attack_start. cbn [heap set_heap set_training].
  unfold l. rewrite lookup_app_r by lia.
  replace (length (heap w) + i - length (heap w)) with i by lia.
  unfold fresh_cells. fold tm init. rewrite list_lookup_fmap, Hd. reflexivity.
Qed.

Lemma FGSM_final_old (l : loc) (c : cell F) :
  heap w !! l = Some c →
  data <$> heap (FGSM_final self w (data cx) (data cl) ws step_size) !! l = Some (data c).
Proof.
  intros Hc. unfold FGSM_final. cbn [heap set_heap set_reference].
  fold tm init p ps graph fn.
  assert (Hl : l < length (heap w)) by (by eapply lookup_lt_Some).
  unfold after_update. rewrite alter_all_other.
  2:{ intros Hbad. apply list_elem_of_fmap in Hbad as ([l' f] & Heq & Hbad). simpl in Heq.
      subst l'. apply list_elem_of_fmap in Hbad as (l'' & [= -> ->] & Hbad).
      apply elem_of_seq in Hbad. lia. }
  rewrite <- list_lookup_fmap, after_backward_data, list_lookup_fmap.
  unfold w1, attack_start. cbn [heap set_heap set_training].
  by rewrite (lookup_app_l_Some _ _ _ _ Hc).
Qed.

End AttackRuns.

Section AttackClaims.
Context {F : Type} {HF : Float F} {HT : Torch F}.
Import AdversarialAttack.

Lemma map_M_read_cases (ls : list loc) (w : world F) :
  map_M read ls w
  = match mapM (λ l, (data <$> heap w) !! l) ls with
    | Some ts => ([], Ok ts w)
    | None => ([], Raise ReferenceError w)
    end.
Proof.
  induction ls as [|l ls IH]; [done|]. cbn [map_M mapM].
  rewrite list_lookup_fmap.
  destruct (heap w !! l) as [c|] eqn:Hc; simpl.
  - rewrite (bind_silent _ _ _ _ _ (read_run _ _ _ Hc)).
    unfold mbind at 1, M_bind at 1, bind at 1. rewrite IH.
    by destruct (mapM _ ls).
  - unfold read, load, mbind, M_bind, bind. by rewrite Hc.
Qed.

(** What a perturbation computes only depends on the data in the store. *)
Lemma perturbation_call_data (p : Perturbation F) (x : var F) (w1 w2 : world F) :
  data <$> heap w1 = data <$> heap w2 →
  v_data <$> result_of (perturbation_call p x w1)
  = v_data <$> result_of (perturbation_call p x w2).
Proof.
  intros Hd. unfold perturbation_call, mbind, M_bind, bind.
  rewrite !map_M_read_cases, Hd.
  by destruct (mapM _ (pert_params p)).
Qed.

(** C5.  With the batch, the labels and the classifier's weights in the
    store, and a threat model that yields a gradient for each of its
    parameters, the single-step attack returns, and: its log holds one
    backward pass followed by one parameter update (and the validation
    print when verbose); the perturbation is the one the threat model
    built for the batch, with newly created parameters and the original
    batch attached; every parameter holds its initial value plus
    step_size × sign(gradient), the gradient being that of the loss on the
    perturbed batch with the reference state fixed to the clean batch;
    the reference state is released, the classifier is in inference mode,
    and no tensor that existed before changed its data. *)
Theorem C5_single_step (self : AdversarialAttack.t F) (examples labels : loc)
    (step_size : F) (verbose : bool) (w : world F) (cx cl : cell F)
    (ws : list (tensor F)) :
  heap w !! examples = Some cx → heap w !! labels = Some cl →
  reads (heap w) (net_params (classifier_net self)) ws →
  let tm := threat_model self in
  let init := tm_init tm (data cx) in
  let perturbed := tm_apply tm init (data cx) in
  let g := tm_vjp tm init (data cx)
             (loss_grad_input (loss_fxn self) (Some (data cx)) false ws
                perturbed (data cl)) in
  length init ≤ length g →
  ∃ ev p w',
    FGSM.attack self examples labels step_size verbose w = (ev, Ok p w') ∧
    ev = [EvBackward; EvUpdateParams (parameters p)]
         ++ validator_log verbose (inr "Post FGSM"%string) ∧
    pert_model p = tm ∧
    parameters p = seq (length (heap w)) (length init) ∧
    originals p = Some examples ∧
    reference w' = None ∧ training w' = false ∧
    (∀ i d gi, init !! i = Some d → g !! i = Some gi →
       heap w' !! (length (heap w) + i)
       = Some (Cell (tadd d (scale step_size (torch_sign gi))) (Some gi))) ∧
    (∀ l c, heap w !! l = Some c → data <$> heap w' !! l = Some (data c)).
Proof.
  intros Hex Hlab Hws tm init perturbed g Hgrad.
  eexists _, _, _. split; [by apply (FGSM_run self examples labels w cx cl ws)|].
  split; [reflexivity|]. split; [reflexivity|]. split; [reflexivity|].
  split; [reflexivity|]. split; [reflexivity|]. split; [reflexivity|]. split.
  - intros i d gi Hd Hgi.
    by eapply (FGSM_final_param self w cx cl ws Hws step_size Hgrad).
  - intros l c Hc. by apply FGSM_final_old.
Qed.

(** C6.  With the batch, the labels and the classifier's weights in the
    store, the multi-step attack with zero iterations returns; its log
    holds validation prints only (no backward pass, no parameter update,
    no optimizer step); the store it ends in is the store as the creation
    of the perturbation, and the random initialization when asked for,
    left it: the final gradient clear finds no gradient to clear; the
    reference state is released and the original batch is attached. *)
Theorem C6_zero_iterations (self : AdversarialAttack.t F) (examples labels : loc)
    (step_size : F) (random_init_flag signed verbose : bool) (w : world F)
    (cx cl : cell F) (ws : list (tensor F)) :
  heap w !! examples = Some cx → heap w !! labels = Some cl →
  reads (heap w) (net_params (classifier_net self)) ws →
  let tm := threat_model self in
  let init := tm_init tm (data cx) in
  let created_world := attack_start self (data cx) w in
  ∃ ev p w',
    PGD.attack self examples labels step_size 0 random_init_flag signed verbose w
    = (ev, Ok p w') ∧
    Forall (λ e, ∃ line, e = EvPrint line) ev ∧
    p = attach_originals (created tm (data cx) w) examples ∧
    parameters p = seq (length (heap w)) (length init) ∧
    heap created_world = heap w ++ fresh_cells init ∧
    (random_init_flag = false →
       heap w' = heap created_world ∧ torch_rng w' = torch_rng w ∧
       reads (heap w') (parameters p) init) ∧
    (random_init_flag = true →
       ∃ w_init, random_init (created tm (data cx) w) created_world = ([], Ok tt w_init) ∧
                 heap w' = heap w_init ∧ torch_rng w' = torch_rng w_init) ∧
    (∀ l c, l ∈ parameters p → heap w' !! l = Some c → grad c = None) ∧
    reference w' = None ∧ training w' = false ∧ py_rng w' = py_rng w.
Proof.
  intros Hex Hlab Hws tm init created_world.
  eexists _, _, _.
  split; [by apply (PGD_zero_run self examples labels w cx cl ws Hex Hlab Hws
                      step_size 0 random_init_flag signed verbose)|].
  split.
  { apply Forall_app. split.
    - destruct verbose; simpl; repeat constructor; by eexists.
    - destruct random_init_flag; [|constructor].
      destruct verbose; simpl; repeat constructor; by eexists. }
  split; [reflexivity|]. split; [reflexivity|]. split; [reflexivity|].
  split.
  { intros ->. split; [reflexivity|]. split; [reflexivity|]. apply reads_fresh. }
  split.
  { intros ->. eexists. split.
    - apply (random_init_run (created tm (data cx) w) init). apply reads_fresh.
    - split; reflexivity. }
  split; [|by destruct random_init_flag].
  intros l c Hl Hc. cbn [heap set_reference] in Hc.
  destruct random_init_flag; simpl in Hc.
  - apply after_assign_fresh in Hc as (c0 & Hc0 & ->).
    by apply (fresh_grad_None self w cx l c0).
  - by apply (fresh_grad_None self w cx l c).
Qed.

(** C4.  With the batch, the labels and the classifier's weights in the
    store, and a threat model that yields a gradient for each of its
    parameters, the single-step attack and the multi-step attack with one
    signed iteration and no random initialization, started in the same
    world with the same step size, both return; they return the same
    perturbation (same threat model, same parameters, same originals) and
    end in worlds whose tensors hold the same data, so that the
    perturbation applied to any batch gives the same output in both.  (The
    worlds differ in the gradient buffers of the parameters, which the
    multi-step attack clears at the end.) *)
Theorem C4_one_signed_iteration_is_single_step (self : AdversarialAttack.t F)
    (examples labels : loc) (step_size : F) (verbose_fgsm verbose_pgd : bool)
    (w : world F) (cx cl : cell F) (ws : list (tensor F)) :
  heap w !! examples = Some cx → heap w !! labels = Some cl →
  reads (heap w) (net_params (classifier_net self)) ws →
  let tm := threat_model self in
  let init := tm_init tm (data cx) in
  length init ≤ length (parameter_gradients self (Some (data cx)) false ws init
                          (data cx) (data cl)) →
  ∃ ev1 ev2 p w1 w2,
    FGSM.attack self examples labels step_size verbose_fgsm w = (ev1, Ok p w1) ∧
    PGD.attack self examples labels step_size 1 false true verbose_pgd w
    = (ev2, Ok p w2) ∧
    data <$> heap w1 = data <$> heap w2 ∧
    training w1 = training w2 ∧ reference w1 = reference w2 ∧
    py_rng w1 = py_rng w2 ∧ torch_rng w1 = torch_rng w2 ∧
    ∀ x, v_data <$> result_of (perturbation_call p x w1)
         = v_data <$> result_of (perturbation_call p x w2).
Proof.
  intros Hex Hlab Hws tm init Hgrad.
  eexists _, _, _, _, _.
  split; [by apply (FGSM_run self examples labels w cx cl ws)|].
  split; [by apply (PGD_one_step_run self examples labels w cx cl ws)|].
  assert (Hd : data <$> heap (FGSM_final self w (data cx) (data cl) ws step_size)
               = data <$> heap (set_heap (after_clear
                                            (pert_params (attach_originals
                                               (created tm (data cx) w) examples)))
                                  (FGSM_final self w (data cx) (data cl) ws step_size))).
  { cbn [heap set_heap]. by rewrite after_clear_data. }
  split; [exact Hd|]. repeat (split; [reflexivity|]).
  intros x. by apply perturbation_call_data.
Qed.

End AttackClaims.

(** The toy engine on the toy batch. *)
Lemma C5_single_step_witness :
  ∃ ev p w',
    FGSM.attack Toy.engine 1 2 2%Z true Toy.w0 = (ev, Ok p w') ∧
    ev = [EvBackward; EvUpdateParams (parameters p)]
         ++ validator_log true (inr "Post FGSM"%string) ∧
    heap w' !! 3 = Some (Cell (FloatTensor [[2%Z]; [2%Z]])
                              (Some (FloatTensor [[1%Z]; [2%Z]]))).
Proof.
  destruct (C5_single_step Toy.engine 1 2 2%Z true Toy.w0
              (Cell Toy.batch_inputs None) (Cell Toy.batch_labels None)
              [FloatTensor [[1%Z]]])
    as (ev & p & w' & Hrun & Hev & _ & _ & _ & _ & _ & Hpar & _).
  - reflexivity.
  - reflexivity.
  - repeat constructor.
  - simpl. lia.
  - exists ev, p, w'. split; [exact Hrun|]. split; [exact Hev|].
    apply (Hpar 0 (FloatTensor [[0%Z]; [0%Z]]) (FloatTensor [[1%Z]; [2%Z]]));
      reflexivity.
Defined.

Lemma C6_zero_iterations_witness :
  ∃ ev p w',
    PGD.attack Toy.engine 1 2 2%Z 0 true true true Toy.w0 = (ev, Ok p w') ∧
    Forall (λ e, ∃ line, e = EvPrint line) ev ∧
    reference w' = None.
Proof.
  destruct (C6_zero_iterations Toy.engine 1 2 2%Z true true true Toy.w0
              (Cell Toy.batch_inputs None) (Cell Toy.batch_labels None)
              [FloatTensor [[1%Z]]])
    as (ev & p & w' & Hrun & Hev & _ & _ & _ & _ & _ & _ & Href & _).
  - reflexivity.
  - reflexivity.
  - repeat constructor.
  - by exists ev, p, w'.
Defined.

Lemma C4_one_signed_iteration_is_single_step_witness :
  ∃ ev1 ev2 p w1 w2,
    FGSM.attack Toy.engine 1 2 2%Z true Toy.w0 = (ev1, Ok p w1) ∧
    PGD.attack Toy.engine 1 2 2%Z 1 false true true Toy.w0 = (ev2, Ok p w2) ∧
    data <$> heap w1 = data <$> heap w2.
Proof.
  destruct (C4_one_signed_iteration_is_single_step Toy.engine 1 2 2%Z true true Toy.w0
              (Cell Toy.batch_inputs None) (Cell Toy.batch_labels None)
              [FloatTensor [[1%Z]]])
    as (ev1 & ev2 & p & w1 & w2 & H1 & H2 & Hd & _).
  - reflexivity.
  - reflexivity.
  - repeat constructor.
  - simpl. lia.
  - by exists ev1, ev2, p, w1, w2.
Defined.

(** ** The evaluation helpers of the attack engine only look *)
Section EngineObservers.
Context {F : Type} {HF : Float F} {HT : Torch F}.
Import AdversarialAttack.

Lemma observer_ret {A} (a : A) : observer 0 (mret a : M F A).
Proof. by intros w. Qed.

Lemma observer_bind {A B} (j k : nat) (m : M F A) (f : A → M F B) :
  observer j m → (∀ a, observer k (f a)) → observer (j + k) (m ≫= f).
Proof.
  intros Hm Hf w. specialize (Hm w).
  unfold mbind, M_bind, bind, final in *.
  destruct (m w) as [ev [a w1|e w1]]; simpl in *; destruct Hm as [-> Hev].
  - specialize (Hf a w). unfold final in Hf.
    destruct (f a w) as [ev' o]; simpl in *. destruct Hf as [Hw Hev'].
    split; [done|]. rewrite length_app. lia.
  - split; [done|lia].
Qed.

Lemma observer_read (l : loc) : observer 0 (read l : M F (tensor F)).
Proof.
  intros w. unfold read, load, mbind, M_bind, bind, final.
  by destruct (heap w !! l).
Qed.

Lemma observer_map_M_read (ls : list loc) :
  observer 0 (map_M read ls : M F (list (tensor F))).
Proof.
  induction ls as [|l ls IH]; [apply observer_ret|].
  cbn [map_M].
  apply (observer_bind 0 0); [apply observer_read|]. intros t.
  apply (observer_bind 0 0); [apply IH|]. intros ts. apply observer_ret.
Qed.

Lemma observer_safe_var (x : loc + var F) : observer 0 (safe_var x).
Proof.
  destruct x as [l|v]; [|apply observer_ret].
  cbn [safe_var mk_Variable].
  apply (observer_bind 0 0); [apply observer_read|]. intros t. apply observer_ret.
Qed.

Lemma observer_net_forward (net : Classifier F) (x : tensor F) :
  observer 0 (net_forward net x).
Proof.
  unfold net_forward.
  apply (observer_bind 0 0); [by intros w|]. intros mode.
  apply (observer_bind 0 0); [apply observer_map_M_read|]. intros ws.
  apply observer_ret.
Qed.

Lemma observer_eval (self : AdversarialAttack.t F)
    (ground_examples adversarials labels : loc + var F) :
  observer 0 (eval self ground_examples adversarials labels).
Proof.
  unfold eval.
  apply (observer_bind 0 0); [apply observer_safe_var|]. intros g.
  apply (observer_bind 0 0); [apply observer_safe_var|]. intros a.
  apply (observer_bind 0 0); [apply observer_safe_var|]. intros l.
  apply (observer_bind 0 0); [apply observer_net_forward|]. intros og.
  apply (observer_bind 0 0); [apply observer_net_forward|]. intros oa.
  apply observer_ret.
Qed.

(** X1.  The evaluation helpers of the attack engine are observers.  On
    every store, whether they return or raise, [eval] and
    [eval_attack_only] end in the world they started in (no tensor, no
    gradient, not the classifier's mode, no generator is touched) and log
    nothing; [validation_loop] and [print_eval_str] do the same except for
    at most one printed line. *)
Theorem engine_helpers_only_look (self : AdversarialAttack.t F)
    (ground_examples adversarials labels : loc + var F)
    (examples var_labels : var F) (iter_no : nat + string) :
  observer 0 (eval self ground_examples adversarials labels) ∧
  observer 0 (eval_attack_only self adversarials labels) ∧
  observer 1 (validation_loop self examples var_labels iter_no) ∧
  observer 1 (print_eval_str self ground_examples adversarials labels).
Proof.
  split; [apply observer_eval|]. split; [|split].
  - unfold eval_attack_only.
    apply (observer_bind 0 0); [apply observer_safe_var|]. intros a.
    apply (observer_bind 0 0); [apply observer_safe_var|]. intros l.
    apply (observer_bind 0 0); [apply observer_net_forward|]. intros oa.
    apply observer_ret.
  - unfold validation_loop.
    apply (observer_bind 0 1); [apply observer_net_forward|]. intros o.
    intros w. split; [done|]. simpl. lia.
  - unfold print_eval_str.
    apply (observer_bind 0 1); [apply observer_eval|]. intros r.
    intros w. split; [done|]. simpl. lia.
Qed.

Lemma safe_var_run (x : loc + var F) (t : tensor F) (w : world F) :
  held w x t → ∃ v, safe_var x w = ([], Ok v w) ∧ v_data v = t.
Proof.
  destruct x as [l|v]; simpl.
  - intros Hl. destruct (heap w !! l) as [c|] eqn:Hc; [|done].
    simpl in Hl. injection Hl as <-.
    eexists. split; [by apply mk_Variable_run|done].
  - intros <-. by exists v.
Qed.

(** X2.  With the three arguments and the classifier's weights in the
    store, [eval] returns the pair (accuracy on the clean examples,
    accuracy on the adversarial ones) and [eval_attack_only] the number of
    adversarial examples classified correctly.  Both run the classifier in
    the mode it is in (neither switches it to inference mode), on the
    normalized batch, and the count of [eval_attack_only] is taken on the
    same logits as the second accuracy of [eval]. *)
Theorem eval_values (self : AdversarialAttack.t F)
    (ground_examples adversarials labels : loc + var F)
    (tg ta tl : tensor F) (ws : list (tensor F)) (w : world F) :
  held w ground_examples tg → held w adversarials ta → held w labels tl →
  reads (heap w) (net_params (classifier_net self)) ws →
  eval self ground_examples adversarials labels w
  = ([], Ok (accuracy (logits self (training w) ws tg) tl,
             accuracy (logits self (training w) ws ta) tl) w) ∧
  eval_attack_only self adversarials labels w
  = ([], Ok (accuracy_int (logits self (training w) ws ta) tl) w).
Proof.
  intros Hg Ha Hl Hws.
  destruct (safe_var_run _ _ _ Hg) as (vg & Hvg & <-).
  destruct (safe_var_run _ _ _ Ha) as (va & Hva & <-).
  destruct (safe_var_run _ _ _ Hl) as (vl & Hvl & <-).
  split.
  - unfold eval.
    rewrite (bind_silent _ _ _ _ _ Hvg), (bind_silent _ _ _ _ _ Hva),
      (bind_silent _ _ _ _ _ Hvl).
    rewrite (bind_silent _ _ _ _ _ (net_forward_run _ _ _ _ Hws)).
    by rewrite (bind_silent _ _ _ _ _ (net_forward_run _ _ _ _ Hws)).
  - unfold eval_attack_only.
    rewrite (bind_silent _ _ _ _ _ Hva), (bind_silent _ _ _ _ _ Hvl).
    by rewrite (bind_silent _ _ _ _ _ (net_forward_run _ _ _ _ Hws)).
Qed.

End EngineObservers.

(** The toy engine on the toy batch: both examples are classified
    correctly. *)
Lemma eval_values_witness :
  AdversarialAttack.eval Toy.engine (inl 1) (inl 1) (inl 2) Toy.w0
  = ([], Ok (accuracy (logits Toy.engine true [FloatTensor [[1%Z]]] Toy.batch_inputs)
                      Toy.batch_labels,
             accuracy (logits Toy.engine true [FloatTensor [[1%Z]]] Toy.batch_inputs)
                      Toy.batch_labels) Toy.w0) ∧
  AdversarialAttack.eval_attack_only Toy.engine (inl 1) (inl 2) Toy.w0
  = ([], Ok (accuracy_int (logits Toy.engine true [FloatTensor [[1%Z]]] Toy.batch_inputs)
                          Toy.batch_labels) Toy.w0).
Proof.
  apply (eval_values Toy.engine (inl 1) (inl 1) (inl 2) Toy.batch_inputs
           Toy.batch_inputs Toy.batch_labels [FloatTensor [[1%Z]]] Toy.w0);
    try reflexivity.
  repeat constructor.
Defined.

(** ** The attack wrapper on a non-empty selection *)
Section WrapperSelection.
Context {F : Type} {HF : Float F} {HT : Torch F}.
Import AdversarialAttackParameters AdversarialTraining.

Lemma rows_select_at {A} (rows : list A) (sel : list nat) :
  Forall (λ i, i < length rows) sel →
  ∃ xs, rows_select rows (Z.of_nat <$> sel) = Some xs ∧ rows_at rows sel xs.
Proof.
  unfold rows_select, rows_at.
  induction 1 as [|i sel Hi _ (xs & Hxs & Hat)]; [by exists []|].
  destruct (lookup_lt_is_Some_2 rows i Hi) as [x Hx].
  exists (x :: xs). split; [|by constructor].
  rewrite fmap_cons. cbn [mapM]. rewrite decide_True by lia.
  rewrite Nat2Z.id, Hx. simpl. by rewrite Hxs.
Qed.

Lemma rows_at_length {A} (rows : list A) (sel : list nat) (xs : list A) :
  rows_at rows sel xs → length xs = length sel.
Proof. intros Hat. symmetry. by eapply Forall2_length. Qed.

Lemma index_select_run (src il : loc) (c ci : cell F) (r : tensor F) (w : world F) :
  heap w !! src = Some c → heap w !! il = Some ci →
  select_rows (data c) (data ci) = Some r →
  index_select src (Some il) w
  = ([], Ok (length (heap w)) (set_heap (λ h, h ++ [Cell r None]) w)).
Proof.
  intros Hc Hi Hr. unfold index_select, bind.
  rewrite (read_run _ _ _ Hc), (read_run _ _ _ Hi), Hr. reflexivity.
Qed.

Lemma torch_cat_run (a b : loc) (ca cb : cell F) (t : tensor F) (w : world F) :
  heap w !! a = Some ca → heap w !! b = Some cb →
  cat_rows (data ca) (data cb) = Some t →
  torch_cat (Some a) (Some b) w
  = ([], Ok (length (heap w)) (set_heap (λ h, h ++ [Cell t None]) w)).
Proof.
  intros Ha Hb Ht. unfold torch_cat, bind.
  rewrite (read_run _ _ _ Ha), (read_run _ _ _ Hb), Ht. reflexivity.
Qed.


Lemma attack_selected_run (self : AdversarialAttackParameters.t F)
    (inputs labels : loc) (rows xs : list (list F)) (ys ls : list Z)
    (gi gl : option (tensor F)) (w : world F) (s : list nat) (t : nat) :
  heap w !! inputs = Some (Cell (FloatTensor rows) gi) →
  heap w !! labels = Some (Cell (LongTensor ys) gl) →
  let N := length rows in
  let k := py_int (float_times_int (proportion_attacked self) (Z.of_nat N)) in
  (1 ≤ k ≤ Z.of_nat N)%Z →
  sample (range N) (Z.to_nat k) (py_rng w) = Some (s, t) →
  let sel := sorted s in
  let L := length (heap w) in
  rows_select rows (Z.of_nat <$> sel) = Some xs →
  rows_select ys (Z.of_nat <$> sel) = Some ls →
  attack self inputs labels w
  = (adv_examples ← ao_attack (adv_attack_obj self) (S L) (S (S L));
     adv_examples ← output_filter self adv_examples;
     mret (Some adv_examples, Some (S (S L)), Some L))
      (selected_world t sel xs ls w).
Proof.
  intros Hin Hlab N k Hk Hs sel L Hxs Hls.
  destruct (selection_spec N (Z.to_nat k) (py_rng w) s t) as (Hlsel & _ & _ & Hsel & _);
    [lia|done|]. fold sel in Hsel, Hlsel.
  rewrite (attack_unfold self inputs labels _ w s t Hin);
    [|cbn [data shape0]; fold N k; lia|done].
  cbn [data shape0]. fold N k sel L.
  rewrite decide_False by lia.
  set (w1 := set_heap (λ h, h ++ [Cell (LongTensor (Z.of_nat <$> sel)) None])
                      (after_draws t w)).
  assert (Hidx : heap w1 !! L = Some (Cell (LongTensor (Z.of_nat <$> sel)) None)).
  { simpl. rewrite lookup_app_r by done. by rewrite Nat.sub_diag. }
  assert (Hin1 : heap w1 !! inputs = Some (Cell (FloatTensor rows) gi)).
  { simpl. by apply lookup_app_l_Some. }
  assert (Hlab1 : heap w1 !! labels = Some (Cell (LongTensor ys) gl)).
  { simpl. by apply lookup_app_l_Some. }
  rewrite (bind_silent _ _ _ _ _
             (index_select_run inputs L _ _ (FloatTensor xs) w1 Hin1 Hidx
                ltac:(simpl; by rewrite Hxs))).
  set (w2 := set_heap (λ h, h ++ [Cell (FloatTensor xs) None]) w1).
  assert (Hidx2 : heap w2 !! L = Some (Cell (LongTensor (Z.of_nat <$> sel)) None)).
  { simpl. apply lookup_app_l_Some. simpl in Hidx. exact Hidx. }
  assert (Hlab2 : heap w2 !! labels = Some (Cell (LongTensor ys) gl)).
  { simpl. apply lookup_app_l_Some. simpl in Hlab1. exact Hlab1. }
  rewrite (bind_silent _ _ _ _ _
             (index_select_run labels L _ _ (LongTensor ls) w2 Hlab2 Hidx2
                ltac:(simpl; by rewrite Hls))).
  assert (Hl1 : length (heap w1) = S L) by (simpl; rewrite length_app; simpl; lia).
  assert (Hl2 : length (heap w2) = S (S L)).
  { change (heap w2) with (heap w1 ++ [Cell (FloatTensor xs) None]).
    rewrite length_app, Hl1. simpl. lia. }
  rewrite Hl1, Hl2.
  replace (set_heap (λ h, h ++ [Cell (LongTensor ls) None]) w2)
    with (selected_world t sel xs ls w); [reflexivity|].
  unfold selected_world, w2, w1, set_heap. simpl.
  by rewrite <- !app_assoc.
Qed.

(** X4.  On a batch of N float examples with integer labels, with a sample
    size k = int(proportion * N) between 1 and N, when [random.sample] comes
    back with the list [s] after [t] draws (it always does, with t = k, when
    N <= setsize; above, it redraws on every index it has already selected),
    the wrapper hands the attack object two new tensors: the examples at the
    k selected positions and the labels at the same positions, both in
    ascending order of position, so that row j of the one and entry j of the
    other belong together.  The labels it returns are that second tensor,
    the indices it returns are the sorted selection. *)
Theorem attack_hands_over_selection (self : AdversarialAttackParameters.t F)
    (inputs labels : loc) (rows : list (list F)) (ys : list Z)
    (gi gl : option (tensor F)) (w : world F) (s : list nat) (t : nat) :
  heap w !! inputs = Some (Cell (FloatTensor rows) gi) →
  heap w !! labels = Some (Cell (LongTensor ys) gl) →
  length ys = length rows →
  let N := length rows in
  let k := py_int (float_times_int (proportion_attacked self) (Z.of_nat N)) in
  (1 ≤ k ≤ Z.of_nat N)%Z →
  sample (range N) (Z.to_nat k) (py_rng w) = Some (s, t) →
  let sel := sorted s in
  let L := length (heap w) in
  (N ≤ setsize (Z.to_nat k) →
   s = sample_pool (Z.to_nat k) N (range N) (py_rng w) ∧ t = Z.to_nat k) ∧
  length sel = Z.to_nat k ∧ NoDup sel ∧ Z.to_nat k ≤ t ∧
  ∃ xs ls,
    rows_at rows sel xs ∧ rows_at ys sel ls ∧
    attack self inputs labels w
    = (adv_examples ← ao_attack (adv_attack_obj self) (S L) (S (S L));
       adv_examples ← output_filter self adv_examples;
       mret (Some adv_examples, Some (S (S L)), Some L))
        (selected_world t sel xs ls w).
Proof.
  intros Hin Hlab Hlen N k Hk Hs sel L.
  destruct (selection_spec N (Z.to_nat k) (py_rng w) s t)
    as (Hlsel & Hnd & _ & Hsel & _ & Ht); [lia|done|]. fold sel in Hsel, Hlsel, Hnd.
  split.
  { intros Hsz. rewrite sample_pool_branch in Hs
      by (unfold range; by rewrite length_seq).
    unfold range in Hs. rewrite length_seq in Hs. by injection Hs as <- <-. }
  split; [done|]. split; [done|]. split; [done|].
  destruct (rows_select_at rows sel Hsel) as (xs & Hxs & Hat).
  destruct (rows_select_at ys sel) as (ls & Hls & Hatl); [by rewrite Hlen|].
  exists xs, ls. split; [done|]. split; [done|].
  by apply (attack_selected_run self inputs labels rows xs ys ls gi gl w s t).
Qed.

(** X5.  The wrapper's [eval] re-selects: given the index tensor of a
    selection, it hands the attack object's [eval] two new tensors, the
    clean examples and the labels at the selected positions (the rows that
    [attack] handed over for that selection), together with the adversarial
    examples.  Without an index tensor (the sentinel of an empty selection)
    it raises a TypeError and changes nothing. *)
Theorem eval_reselects (self : AdversarialAttackParameters.t F)
    (ground_inputs labels idxs adv : loc) (rows xs : list (list F)) (ys ls : list Z)
    (sel : list nat) (gi gl gx : option (tensor F)) (w : world F) :
  heap w !! ground_inputs = Some (Cell (FloatTensor rows) gi) →
  heap w !! labels = Some (Cell (LongTensor ys) gl) →
  heap w !! idxs = Some (Cell (LongTensor (Z.of_nat <$> sel)) gx) →
  let L := length (heap w) in
  (rows_at rows sel xs → rows_at ys sel ls →
   eval self ground_inputs (Some adv) labels (Some idxs) w
   = ao_eval (adv_attack_obj self) (inl L) (inl adv) (inl (S L))
       (set_heap (λ h, h ++ [Cell (FloatTensor xs) None; Cell (LongTensor ls) None]) w)) ∧
  (∀ adv_inputs, eval self ground_inputs adv_inputs labels None w
                 = ([], Raise TypeError w)).
Proof.
  intros Hin Hlab Hidx L. split.
  - intros Hat Hatl. unfold eval.
    assert (Hxs : rows_select rows (Z.of_nat <$> sel) = Some xs).
    { destruct (rows_select_at rows sel) as (xs' & Hxs & Hat').
      - apply Forall_forall. intros i Hi.
        apply list_elem_of_lookup in Hi as [j Hj].
        destruct (Forall2_lookup_l _ _ _ _ _ Hat Hj) as (x & _ & Hx).
        by eapply lookup_lt_Some.
      - rewrite Hxs. f_equal. apply list_eq. intros j.
        destruct (sel !! j) as [i|] eqn:Hj.
        + destruct (Forall2_lookup_l _ _ _ _ _ Hat Hj) as (x & -> & Hx).
          destruct (Forall2_lookup_l _ _ _ _ _ Hat' Hj) as (x' & -> & Hx').
          congruence.
        + rewrite !(lookup_ge_None_2 _ j); [done|..].
          * rewrite (rows_at_length _ _ _ Hat). by apply lookup_ge_None.
          * rewrite (rows_at_length _ _ _ Hat'). by apply lookup_ge_None. }
    assert (Hls : rows_select ys (Z.of_nat <$> sel) = Some ls).
    { destruct (rows_select_at ys sel) as (ls' & Hls & Hat').
      - apply Forall_forall. intros i Hi.
        apply list_elem_of_lookup in Hi as [j Hj].
        destruct (Forall2_lookup_l _ _ _ _ _ Hatl Hj) as (x & _ & Hx).
        by eapply lookup_lt_Some.
      - rewrite Hls. f_equal. apply list_eq. intros j.
        destruct (sel !! j) as [i|] eqn:Hj.
        + destruct (Forall2_lookup_l _ _ _ _ _ Hatl Hj) as (x & -> & Hx).
          destruct (Forall2_lookup_l _ _ _ _ _ Hat' Hj) as (x' & -> & Hx').
          congruence.
        + rewrite !(lookup_ge_None_2 _ j); [done|..].
          * rewrite (rows_at_length _ _ _ Hatl). by apply lookup_ge_None.
          * rewrite (rows_at_length _ _ _ Hat'). by apply lookup_ge_None. }
    rewrite (bind_silent _ _ _ _ _
               (index_select_run ground_inputs idxs _ _ (FloatTensor xs) w Hin Hidx
                  ltac:(simpl; by rewrite Hxs))).
    set (w1 := set_heap (λ h, h ++ [Cell (FloatTensor xs) None]) w).
    assert (Hlab1 : heap w1 !! labels = Some (Cell (LongTensor ys) gl)).
    { simpl. by apply lookup_app_l_Some. }
    assert (Hidx1 : heap w1 !! idxs = Some (Cell (LongTensor (Z.of_nat <$> sel)) gx)).
    { simpl. by apply lookup_app_l_Some. }
    rewrite (bind_silent _ _ _ _ _
               (index_select_run labels idxs _ _ (LongTensor ls) w1 Hlab1 Hidx1
                  ltac:(simpl; by rewrite Hls))).
    replace (length (heap w1)) with (S L)
      by (simpl; rewrite length_app; simpl; unfold L; lia).
    replace (set_heap (λ h, h ++ [Cell (LongTensor ls) None]) w1)
      with (set_heap (λ h, h ++ [Cell (FloatTensor xs) None; Cell (LongTensor ls) None]) w);
      [reflexivity|].
    unfold w1, set_heap. simpl. by rewrite <- app_assoc.
  - intros adv_inputs. reflexivity.
Qed.

Lemma frame_reads (n : nat) (w w' : world F) (ls : list loc) (ts : list (tensor F)) :
  frame same_data [] n w w' → Forall (λ l, l < n) ls →
  reads (heap w) ls ts → reads (heap w') ls ts.
Proof.
  intros [_ Hfr] Hls Hr. unfold reads in *.
  apply Forall2_same_length_lookup. apply Forall2_same_length_lookup in Hr as [Hlen Hr].
  split; [done|]. intros i l t Hl Ht. specialize (Hr i l t Hl Ht).
  rewrite list_lookup_fmap in Hr. rewrite list_lookup_fmap.
  destruct (heap w !! l) as [c|] eqn:Hc; [|done].
  eapply Forall_forall in Hls; [|by eapply list_elem_of_lookup_2].
  destruct (Hfr l c Hls (not_elem_of_nil _) Hc) as (c' & -> & Hd).
  simpl in *. by rewrite <- Hd.
Qed.

Lemma reads_one (h : list (cell F)) (l : loc) (t : tensor F) :
  reads h [l] [t] ↔ data <$> h !! l = Some t.
Proof.
  unfold reads. rewrite <- list_lookup_fmap. split.
  - intros Hr. by inversion Hr.
  - intros Hl. by repeat constructor.
Qed.

Lemma attack_subroutine_run (self : AdversarialTraining.t F)
    (ap : AdversarialAttackParameters.t F) (inputs labels : loc)
    (rows : list (list F)) (ys : list Z) (gi gl : option (tensor F))
    (epoch_num minibatch_num : nat) (aws : list (tensor F)) (w : world F)
    (s : list nat) (t : nat) :
  heap w !! inputs = Some (Cell (FloatTensor rows) gi) →
  heap w !! labels = Some (Cell (LongTensor ys) gl) →
  length ys = length rows →
  shape_preserving ap →
  reads (heap w) (net_params (ao_classifier_net (adv_attack_obj ap))) aws →
  (∀ v : world F, cadence (verbosity_level self) (verbosity_adv self) minibatch_num v
        = ([], Ok false v)) →
  let N := length rows in
  let k := py_int (float_times_int (proportion_attacked ap) (Z.of_nat N)) in
  (1 ≤ k ≤ Z.of_nat N)%Z →
  sample (range N) (Z.to_nat k) (py_rng w) = Some (s, t) →
  let sel := sorted s in
  ∃ ev inputs' labels' w' advs ls,
    _attack_subroutine self (Some ap) inputs labels epoch_num minibatch_num w
    = (ev, Ok (inputs', labels') w') ∧
    heap w' !! inputs' = Some (Cell (FloatTensor (rows ++ advs)) None) ∧
    heap w' !! labels' = Some (Cell (LongTensor (ys ++ ls)) None) ∧
    length advs = Z.to_nat k ∧ rows_at ys sel ls ∧
    (∀ ls' ts, reads (heap w) ls' ts → reads (heap w') ls' ts).
Proof.
  intros Hin Hlab Hlen Hshape Haws Hquiet N k Hk Hs sel.
  destruct (selection_spec N (Z.to_nat k) (py_rng w) s t) as (Hlsel & _ & _ & Hsel & _);
    [lia|done|]. fold sel in Hsel, Hlsel.
  destruct (rows_select_at rows sel Hsel) as (xs & Hxs & Hat).
  destruct (rows_select_at ys sel) as (ls & Hls & Hatl); [by rewrite Hlen|].
  pose proof (attack_selected_run ap inputs labels rows xs ys ls gi gl w s t
                Hin Hlab Hk Hs Hxs Hls) as Hrun.
  fold N k sel in Hrun.
  set (L := length (heap w)) in *.
  set (w3 := selected_world t sel xs ls w) in *.
  assert (Hh3 : heap w3 = heap w ++ [Cell (LongTensor (Z.of_nat <$> sel)) None;
                                     Cell (FloatTensor xs) None;
                                     Cell (LongTensor ls) None]) by reflexivity.
  assert (Hsel3 : heap w3 !! S L = Some (Cell (FloatTensor xs) None)).
  { rewrite Hh3, lookup_app_r by (unfold L; lia).
    by replace (S L - length (heap w)) with 1 by (unfold L; lia). }
  assert (Hlab3 : heap w3 !! S (S L) = Some (Cell (LongTensor ls) None)).
  { rewrite Hh3, lookup_app_r by (unfold L; lia).
    by replace (S (S L) - length (heap w)) with 2 by (unfold L; lia). }
  assert (Hl3 : length (heap w3) = S (S (S L))).
  { rewrite Hh3, length_app. simpl. unfold L. lia. }
  assert (Hsame : length ls = length xs).
  { by rewrite (rows_at_length _ _ _ Hat), (rows_at_length _ _ _ Hatl). }
  assert (Haws3 : reads (heap w3) (net_params (ao_classifier_net (adv_attack_obj ap))) aws).
  { rewrite Hh3. by apply reads_app_l. }
  destruct (Hshape (S L) (S (S L)) w3 xs ls None None aws Hsel3 Hlab3 Hsame Haws3)
    as (ev1 & adv1 & w31 & ev2 & adv & w4 & advs & g' & Hatt & Hfil & Hfr & Hadv & Hladv).
  assert (Hattack : attack ap inputs labels w
                    = (ev1 ++ ev2, Ok (Some adv, Some (S (S L)), Some L) w4)).
  { rewrite Hrun. eapply bind_run; [exact Hatt|].
    eapply run_events; [eapply bind_run; [exact Hfil|reflexivity]|].
    by rewrite app_nil_r. }
  assert (Hkeep : ∀ ls' ts, reads (heap w) ls' ts → reads (heap w4) ls' ts).
  { intros ls' ts Hr. eapply frame_reads; [exact Hfr| |].
    - eapply Forall_impl; [by eapply reads_lt|]. intros l Hl. simpl in Hl.
      rewrite Hl3. fold L in Hl. lia.
    - rewrite Hh3. by apply reads_app_l. }
  assert (Hdata : ∀ l t, data <$> heap w3 !! l = Some t →
                         ∃ c, heap w4 !! l = Some c ∧ data c = t).
  { intros l t0 Hl. destruct (heap w3 !! l) as [c|] eqn:Hc; [|done].
    injection Hl as <-. destruct Hfr as [_ Hfr].
    destruct (Hfr l c) as (c' & Hc' & Hd);
      [by eapply lookup_lt_Some|apply not_elem_of_nil|done|].
    exists c'. by split. }
  destruct (Hdata inputs (FloatTensor rows)) as (ci & Hin4 & Hdi).
  { rewrite Hh3, (lookup_app_l_Some _ _ _ _ Hin). done. }
  destruct (Hdata labels (LongTensor ys)) as (cl & Hlab4 & Hdl).
  { rewrite Hh3, (lookup_app_l_Some _ _ _ _ Hlab). done. }
  destruct (Hdata (S (S L)) (LongTensor ls)) as (csl & Hsl4 & Hdsl).
  { by rewrite Hlab3. }
  set (w5 := set_heap (λ h, h ++ [Cell (FloatTensor (rows ++ advs)) None]) w4).
  set (w6 := set_heap (λ h, h ++ [Cell (LongTensor (ys ++ ls)) None]) w5).
  exists (ev1 ++ ev2), (length (heap w4)), (length (heap w5)), w6, advs, ls.
  split; [|split; [|split; [|split; [|split]]]].
  - unfold _attack_subroutine.
    eapply run_events; [eapply bind_run; [exact Hattack|]|by rewrite app_nil_r].
    cbv beta iota.
    rewrite (bind_silent _ _ _ _ _ (Hquiet w4)).
    erewrite bind_silent by reflexivity.
    rewrite (bind_silent _ _ _ _ _
               (torch_cat_run inputs adv _ _ (FloatTensor (rows ++ advs)) w4 Hin4 Hadv
                  ltac:(by rewrite Hdi))).
    fold w5.
    assert (Hlab5 : heap w5 !! labels = Some cl).
    { simpl. by apply lookup_app_l_Some. }
    assert (Hsl5 : heap w5 !! S (S L) = Some csl).
    { simpl. by apply lookup_app_l_Some. }
    rewrite (bind_silent _ _ _ _ _
               (torch_cat_run labels (S (S L)) _ _ (LongTensor (ys ++ ls)) w5 Hlab5 Hsl5
                  ltac:(by rewrite Hdl, Hdsl))).
    reflexivity.
  - simpl. apply lookup_app_l_Some.
    rewrite lookup_app_r by done. by rewrite Nat.sub_diag.
  - change (heap w6) with (heap w5 ++ [Cell (LongTensor (ys ++ ls)) None]).
    rewrite lookup_app_r by done. by rewrite Nat.sub_diag.
  - rewrite Hladv, (rows_at_length _ _ _ Hat). exact Hlsel.
  - exact Hatl.
  - intros ls' ts Hr. simpl. by do 2 apply reads_app_l; apply Hkeep.
Qed.

(** X6.  On a minibatch of N examples that is not reported on, with a sample
    size k = int(proportion * N) between 1 and N, a selection [s] that
    [random.sample] came back with, and an attack object that, given a batch
    and its labels while the weights of its classifier are in the store,
    returns as many examples as it is given: the attack subroutine returns
    two new tensors, the N clean examples followed by the k adversarial
    ones, and the N clean labels followed by the labels of the selected
    examples, in the order of the adversarial examples.  The caller's
    tensors hold what they held. *)
Theorem attack_subroutine_appends (self : AdversarialTraining.t F)
    (ap : AdversarialAttackParameters.t F) (inputs labels : loc)
    (rows : list (list F)) (ys : list Z) (gi gl : option (tensor F))
    (epoch_num minibatch_num : nat) (aws : list (tensor F)) (w : world F)
    (s : list nat) (t : nat) :
  heap w !! inputs = Some (Cell (FloatTensor rows) gi) →
  heap w !! labels = Some (Cell (LongTensor ys) gl) →
  length ys = length rows →
  shape_preserving ap →
  reads (heap w) (net_params (ao_classifier_net (adv_attack_obj ap))) aws →
  (∀ v : world F, cadence (verbosity_level self) (verbosity_adv self) minibatch_num v
        = ([], Ok false v)) →
  let N := length rows in
  let k := py_int (float_times_int (proportion_attacked ap) (Z.of_nat N)) in
  (1 ≤ k ≤ Z.of_nat N)%Z →
  sample (range N) (Z.to_nat k) (py_rng w) = Some (s, t) →
  let sel := sorted s in
  ∃ ev inputs' labels' w' advs ls,
    _attack_subroutine self (Some ap) inputs labels epoch_num minibatch_num w
    = (ev, Ok (inputs', labels') w') ∧
    heap w' !! inputs' = Some (Cell (FloatTensor (rows ++ advs)) None) ∧
    heap w' !! labels' = Some (Cell (LongTensor (ys ++ ls)) None) ∧
    length advs = Z.to_nat k ∧ rows_at ys sel ls ∧
    data <$> heap w' !! inputs = Some (FloatTensor rows) ∧
    data <$> heap w' !! labels = Some (LongTensor ys).
Proof.
  intros Hin Hlab Hlen Hshape Haws Hquiet N k Hk Hs sel.
  destruct (attack_subroutine_run self ap inputs labels rows ys gi gl epoch_num
              minibatch_num aws w s t Hin Hlab Hlen Hshape Haws Hquiet Hk Hs)
    as (ev & i' & l' & w' & advs & ls & Hrun & Hi & Hl & Hadvs & Hls & Hkeep).
  exists ev, i', l', w', advs, ls.
  repeat (split; [done|]). split.
  - apply reads_one, Hkeep, reads_one. by rewrite Hin.
  - apply reads_one, Hkeep, reads_one. by rewrite Hlab.
Qed.

End WrapperSelection.


(** Half of the toy batch. *)
Lemma attack_hands_over_selection_witness :
  let sel := [0] in
  length sel = 1 ∧
  ∃ xs ls,
    rows_at [[0%Z]; [1%Z]] sel xs ∧ rows_at [0%Z; 1%Z] sel ls ∧
    AdversarialAttackParameters.attack (Toy.params (1 # 2)) 1 2 Toy.w0
    = (adv_examples ← ao_attack Toy.attack_obj 4 5;
       adv_examples ← AdversarialAttackParameters.output_filter (Toy.params (1 # 2))
                        adv_examples;
       mret (Some adv_examples, Some 5, Some 3))
        (selected_world 1 sel xs ls Toy.w0).
Proof.
  destruct (attack_hands_over_selection (Toy.params (1 # 2)) 1 2 [[0%Z]; [1%Z]] [0%Z; 1%Z]
              None None Toy.w0 [0] 1) as (_ & Hlen & _ & _ & Hrun).
  - reflexivity.
  - reflexivity.
  - reflexivity.
  - vm_compute. split; discriminate.
  - reflexivity.
  - split; [exact Hlen|exact Hrun].
Defined.

(** The toy batch with the index tensor of the selection [0] at 3 and an
    adversarial batch at 4. *)
Lemma eval_reselects_witness :
  let w := set_heap (λ h, h ++ [Cell (LongTensor [0%Z]) None;
                                Cell (FloatTensor [[0%Z]]) None]) Toy.w0 in
  AdversarialAttackParameters.eval (Toy.params (1 # 2)) 1 (Some 4) 2 (Some 3) w
  = ao_eval Toy.attack_obj (inl 5) (inl 4) (inl 6)
      (set_heap (λ h, h ++ [Cell (FloatTensor [[0%Z]]) None; Cell (LongTensor [0%Z]) None])
                w).
Proof.
  intros w.
  apply (eval_reselects (Toy.params (1 # 2)) 1 2 3 4 [[0%Z]; [1%Z]] [[0%Z]] [0%Z; 1%Z]
           [0%Z] [0] None None None w).
  - reflexivity.
  - reflexivity.
  - reflexivity.
  - by repeat constructor.
  - by repeat constructor.
Defined.

Section ToyWrapper.
Import AdversarialAttackParameters.

Lemma Toy_shape_preserving (proportion : Q) : shape_preserving (Toy.params proportion).
Proof.
  intros a b w xs ls ga gb ws Ha _ _ _.
  exists [], a, w, [], a, w, xs, ga.
  split; [reflexivity|]. split; [reflexivity|].
  split; [apply frame_refl; apply _|]. by split.
Qed.

(** The attack object built on the engine's single-step attack returns as
    many examples as it is given. *)
Lemma Toy_fgsm_shape_preserving (proportion : Q) :
  shape_preserving (Toy.fgsm_params proportion).
Proof.
  intros a b w xs ls ga gb ws Ha Hb Hlen Hws.
  cbn [Toy.fgsm_params adv_attack_obj output_filter Toy.fgsm_attack_obj ao_attack
       ao_classifier_net] in *.
  set (cx := Cell (FloatTensor xs) ga) in *. set (cl := Cell (LongTensor ls) gb) in *.
  assert (Hgrad : length (tm_init (AdversarialAttack.threat_model Toy.engine) (data cx))
                  ≤ length (parameter_gradients Toy.engine (Some (data cx)) false ws
                              (tm_init (AdversarialAttack.threat_model Toy.engine) (data cx))
                              (data cx) (data cl))) by (simpl; lia).
  pose proof (FGSM_run Toy.engine a b w cx cl ws Ha Hb Hws 2%Z Hgrad false) as Hrun.
  set (wF := FGSM_final Toy.engine w (data cx) (data cl) ws 2%Z) in *.
  set (L := length (heap w)) in *.
  pose proof (FGSM_final_old Toy.engine w cx cl ws 2%Z Hgrad a cx Ha) as Ha'.
  fold wF in Ha'.
  destruct (heap wF !! a) as [ca|] eqn:Hca; [|done]. injection Ha' as Hda.
  pose proof (FGSM_final_param Toy.engine w cx cl ws Hws 2%Z Hgrad 0
                (zeros_like (FloatTensor xs)) (tmap (Z.add 1) (FloatTensor xs))
                eq_refl eq_refl) as Hparam.
  fold wF in Hparam. rewrite Nat.add_0_r in Hparam. fold L in Hparam.
  set (val := tadd (zeros_like (FloatTensor xs))
                   (sign_step 2%Z (tmap (Z.add 1) (FloatTensor xs)))) in *.
  set (advs := zip_with (zip_with Z.add) xs
                 (zip_with (zip_with Z.add) (map (map (λ _, 0%Z)) xs)
                    (map (map (Z.mul 2)) (map (map Z.sgn) (map (map (Z.add 1)) xs))))).
  set (p := attach_originals (created Toy.additive (data cx) w) a) in *.
  assert (Hvals : reads (heap wF) (pert_params p) [val]).
  { apply reads_one. fold L. by rewrite Hparam. }
  set (w' := set_heap (λ h, h ++ [Cell (FloatTensor advs) None]) wF).
  exists [EvBackward; EvUpdateParams [L]], (length (heap wF)), w', [], (length (heap wF)), w',
         advs, None.
  split; [|split; [reflexivity|split; [|split]]].
  - eapply run_events.
    + eapply bind_run; [exact Hrun|].
      eapply bind_run; [by apply mk_Variable_run|].
      eapply bind_run; [by apply (perturbation_call_run p _ [val])|].
      rewrite Hda. reflexivity.
    + reflexivity.
  - split.
    + simpl. rewrite length_app. unfold after_update, after_backward.
      rewrite !alter_all_length. simpl. rewrite length_app. lia.
    + intros l c _ _ Hc.
      pose proof (FGSM_final_old Toy.engine w cx cl ws 2%Z Hgrad l c Hc) as Hold.
      fold wF in Hold. destruct (heap wF !! l) as [c'|] eqn:Hc'; [|done].
      injection Hold as Hd. exists c'. split; [|done].
      simpl. by apply lookup_app_l_Some.
  - simpl. rewrite lookup_app_r by done. by rewrite Nat.sub_diag.
  - unfold advs. rewrite !length_zip_with, !length_map. lia.
Qed.

End ToyWrapper.

(** The toy trainer (verbosity not set) attacking half of the toy batch with
    the single-step attack. *)
Lemma attack_subroutine_appends_witness :
  ∃ ev inputs' labels' w' advs ls,
    AdversarialTraining._attack_subroutine Toy.trainer (Some (Toy.fgsm_params (1 # 2)))
      1 2 0 0 Toy.w0
    = (ev, Ok (inputs', labels') w') ∧
    heap w' !! inputs' = Some (Cell (FloatTensor ([[0%Z]; [1%Z]] ++ advs)) None) ∧
    heap w' !! labels' = Some (Cell (LongTensor ([0%Z; 1%Z] ++ ls)) None) ∧
    length advs = 1 ∧ rows_at [0%Z; 1%Z] [0] ls.
Proof.
  destruct (attack_subroutine_appends Toy.trainer (Toy.fgsm_params (1 # 2)) 1 2
              [[0%Z]; [1%Z]] [0%Z; 1%Z] None None 0 0 [FloatTensor [[1%Z]]] Toy.w0 [0] 1)
    as (ev & i' & l' & w' & advs & ls & Hrun & Hi & Hl & Hlen & Hat & _).
  - reflexivity.
  - reflexivity.
  - reflexivity.
  - apply Toy_fgsm_shape_preserving.
  - by repeat constructor.
  - reflexivity.
  - vm_compute. split; discriminate.
  - reflexivity.
  - exists ev, i', l', w', advs, ls.
    split; [exact Hrun|]. split; [exact Hi|]. split; [exact Hl|].
    split; [exact Hlen|exact Hat].
Defined.

(** ** The training loop: verbosity, argument checks, checkpoints *)
Section Training.
Context {F : Type} {HF : Float F} {HT : Torch F}.
Import AdversarialAttackParameters AdversarialTraining.

Lemma verbosity_known (v : string) :
  v ∈ verbosity_names ↔
  (String.eqb v "low" || String.eqb v "medium" || String.eqb v "high"
   || String.eqb v "snoop") = true.
Proof.
  unfold verbosity_names. rewrite !orb_true_iff, !String.eqb_eq.
  rewrite !elem_of_cons, elem_of_nil. tauto.
Qed.

Lemma set_verbosity_ok (self : AdversarialTraining.t F) (verbosity : option string) :
  match set_verbosity self verbosity with
  | inr self' =>
      ∃ v, verbosity = Some v ∧ v ∈ verbosity_names ∧
           verbosity_epoch self' = Some (epoch_cadence v) ∧
           ge_1 (verbosity_level self') = negb (String.eqb v "low")
  | inl e => e = AssertionError ∧ ∀ v, verbosity = Some v → v ∉ verbosity_names
  end.
Proof.
  destruct verbosity as [v|]; [|by split].
  unfold set_verbosity.
  destruct (String.eqb v "low") eqn:Hlow;
    [apply String.eqb_eq in Hlow; subst v|
     destruct (String.eqb v "medium") eqn:Hmed;
       [apply String.eqb_eq in Hmed; subst v|
        destruct (String.eqb v "high") eqn:Hhigh;
          [apply String.eqb_eq in Hhigh; subst v|
           destruct (String.eqb v "snoop") eqn:Hsnoop;
             [apply String.eqb_eq in Hsnoop; subst v|]]]].
  1-4: (eexists; split; [reflexivity|]; split;
          [apply verbosity_known; reflexivity|by split]).
  split; [reflexivity|]. intros v' [= <-] Hin.
  apply verbosity_known in Hin. by rewrite Hlow, Hmed, Hhigh, Hsnoop in Hin.
Qed.

(** X7.  [set_verbosity] accepts exactly the four verbosity names (anything
    else, [None] included, is an AssertionError).  Once it has succeeded the
    cadence tests of the training loop cannot fail: the epoch cadence is a
    positive integer, and the minibatch and attack cadences, which are left
    unset at low verbosity, are only looked at above low verbosity, where
    they are positive integers.  At low verbosity no minibatch is ever
    reported on.  The classifier and the normalizer are not touched. *)
Theorem set_verbosity_cadences (self : AdversarialTraining.t F)
    (verbosity : option string) :
  match set_verbosity self verbosity with
  | inr self' =>
      (∃ v, verbosity = Some v ∧ v ∈ verbosity_names ∧
            verbosity_epoch self' = Some (epoch_cadence v)) ∧
      classifier_net self' = classifier_net self ∧
      normalizer self' = normalizer self ∧
      (∀ (i : nat) (w : world F),
         ∃ b, cadence (verbosity_level self') (verbosity_minibatch self') i w
              = ([], Ok b w) ∧
              cadence (verbosity_level self') (verbosity_adv self') i w = ([], Ok b w) ∧
              (verbosity = Some "low"%string → b = false))
  | inl e =>
      e = AssertionError ∧ ∀ v, verbosity = Some v → v ∉ verbosity_names
  end.
Proof.
  destruct verbosity as [v|]; [|by split].
  unfold set_verbosity.
  destruct (String.eqb v "low") eqn:Hlow;
    [apply String.eqb_eq in Hlow; subst v|
     destruct (String.eqb v "medium") eqn:Hmed;
       [apply String.eqb_eq in Hmed; subst v|
        destruct (String.eqb v "high") eqn:Hhigh;
          [apply String.eqb_eq in Hhigh; subst v|
           destruct (String.eqb v "snoop") eqn:Hsnoop;
             [apply String.eqb_eq in Hsnoop; subst v|]]]].
  1-4: (split; [eexists; split; [reflexivity|]; split;
                  [apply verbosity_known; reflexivity|reflexivity]|];
        split; [reflexivity|]; split; [reflexivity|];
        intros i w; eexists; split; [reflexivity|]; split; [reflexivity|];
        first [reflexivity | discriminate]).
  split; [reflexivity|]. intros v' [= <-] Hin.
  apply verbosity_known in Hin. by rewrite Hlow, Hmed, Hhigh, Hsnoop in Hin.
Qed.

Lemma last_of_every (i e : Z) :
  (0 < e)%Z → (i `mod` e = e - 1 ↔ (i + 1) `mod` e = 0)%Z.
Proof.
  intros He.
  pose proof (Z.div_mod i e) as H1. pose proof (Z.mod_pos_bound i e He) as B1.
  pose proof (Z.div_mod (i + 1) e) as H2.
  pose proof (Z.mod_pos_bound (i + 1) e He) as B2.
  specialize (H1 ltac:(lia)). specialize (H2 ltac:(lia)).
  set (q1 := (i `div` e)%Z) in *. set (r1 := (i `mod` e)%Z) in *.
  set (q2 := ((i + 1) `div` e)%Z) in *. set (r2 := ((i + 1) `mod` e)%Z) in *.
  assert (Hd : (e * (q2 - q1) = r1 + 1 - r2)%Z) by lia.
  assert (Hq : (q2 - q1 = 0 ∨ q2 - q1 = 1)%Z) by nia.
  destruct Hq as [Hq|Hq]; rewrite Hq in Hd; lia.
Qed.

(** X17.  Which minibatches the training loop reports on, once
    [set_verbosity] has succeeded: none at low verbosity; above it, exactly
    those whose number counted from 1 is a multiple of the verbosity's
    cadence (2000 at medium, 100 at high, every one at snoop).  The test is
    the same for the line with the running loss and for the evaluation of
    the attack. *)
Theorem reported_minibatches (self self' : AdversarialTraining.t F) (v : string)
    (i : nat) (w : world F) :
  set_verbosity self (Some v) = inr self' →
  let report := bool_decide (v ≠ "low"%string
                             ∧ (Z.of_nat (S i) `mod` minibatch_cadence v = 0)%Z) in
  cadence (verbosity_level self') (verbosity_minibatch self') i w = ([], Ok report w) ∧
  cadence (verbosity_level self') (verbosity_adv self') i w = ([], Ok report w).
Proof.
  unfold set_verbosity.
  destruct (String.eqb v "low") eqn:Hlow;
    [apply String.eqb_eq in Hlow; subst v|
     destruct (String.eqb v "medium") eqn:Hmed;
       [apply String.eqb_eq in Hmed; subst v|
        destruct (String.eqb v "high") eqn:Hhigh;
          [apply String.eqb_eq in Hhigh; subst v|
           destruct (String.eqb v "snoop") eqn:Hsnoop;
             [apply String.eqb_eq in Hsnoop; subst v|done]]]];
    intros Heq; injection Heq as <-;
    cbn [verbosity_level verbosity_minibatch verbosity_adv];
    match goal with |- context [Ok ?b _] => set (report := b) end.
  - assert (Hr : report = false).
    { apply bool_decide_eq_false_2. by intros [Hne _]. }
    rewrite Hr. by split.
  - assert (Hr : report = bool_decide (Z.of_nat i `mod` 2000 = 2000 - 1)%Z).
    { apply bool_decide_ext. rewrite Nat2Z.inj_succ, <- Z.add_1_r.
      change (minibatch_cadence "medium") with 2000%Z.
      rewrite (last_of_every _ 2000) by lia. split; [by intros [_ ?]|by split]. }
    rewrite Hr. by split.
  - assert (Hr : report = bool_decide (Z.of_nat i `mod` 100 = 100 - 1)%Z).
    { apply bool_decide_ext. rewrite Nat2Z.inj_succ, <- Z.add_1_r.
      change (minibatch_cadence "high") with 100%Z.
      rewrite (last_of_every _ 100) by lia. split; [by intros [_ ?]|by split]. }
    rewrite Hr. by split.
  - assert (Hr : report = bool_decide (Z.of_nat i `mod` 1 = 1 - 1)%Z).
    { apply bool_decide_ext. rewrite Nat2Z.inj_succ, <- Z.add_1_r.
      change (minibatch_cadence "snoop") with 1%Z.
      rewrite (last_of_every _ 1) by lia. split; [by intros [_ ?]|by split]. }
    rewrite Hr. by split.
Qed.

Lemma train_cases (self : AdversarialTraining.t F)
    (data_loader : nat → list (tensor F * tensor F)) (num_epochs : Z)
    (loss_fxn : AdversarialTraining.Loss F) (optimizer : option (Optimizer F))
    (ap : AdversarialAttackParameters.t F) (use_gpu : bool)
    (verbosity : option string) (w : world F) :
  train self data_loader num_epochs loss_fxn optimizer (Some ap) use_gpu verbosity w
  = if decide (net_id (ao_classifier_net (adv_attack_obj ap))
               = net_id (classifier_net self))
    then if use_gpu && negb cuda_is_available
         then ([], Raise AssertionError (set_training true w))
         else match set_verbosity self verbosity with
              | inl e => ([EvSetGpu use_gpu], Raise e (set_training true w))
              | inr self' =>
                  let r := training_loop self' data_loader num_epochs loss_fxn optimizer
                             (Some ap) use_gpu (set_training true w) in
                  (EvSetGpu use_gpu :: r.1, r.2)
              end
    else ([], Raise AssertionError (set_training true w)).
Proof.
  unfold train.
  erewrite bind_silent by reflexivity.
  destruct (decide _) as [Hid|Hid]; [|reflexivity].
  erewrite bind_silent by reflexivity.
  destruct (use_gpu && negb cuda_is_available) eqn:Hgpu; [reflexivity|].
  erewrite bind_silent by reflexivity.
  erewrite bind_silent by (destruct use_gpu; reflexivity).
  erewrite bind_Ok by reflexivity.
  destruct (set_verbosity self verbosity) as [e|self'].
  - reflexivity.
  - erewrite bind_silent by reflexivity.
    reflexivity.
Qed.

(** X8.  [train] checks its arguments before it trains.  An attack bound to
    another classifier, or a GPU that is asked for and not there, is an
    AssertionError with nothing logged; a verbosity that is none of the four
    names ([None] included) is an AssertionError raised after the GPU flag
    has been handed to the attack.  In the three cases no minibatch is
    loaded, no tensor is created or changed, and the classifier is left in
    training mode. *)
Theorem train_checks_arguments (self : AdversarialTraining.t F)
    (data_loader : nat → list (tensor F * tensor F)) (num_epochs : Z)
    (loss_fxn : AdversarialTraining.Loss F) (optimizer : option (Optimizer F))
    (ap : AdversarialAttackParameters.t F) (use_gpu : bool)
    (verbosity : option string) (w : world F) :
  let run := train self data_loader num_epochs loss_fxn optimizer (Some ap) use_gpu
               verbosity w in
  let same_net := net_id (ao_classifier_net (adv_attack_obj ap))
                  = net_id (classifier_net self) in
  (¬ same_net → run = ([], Raise AssertionError (set_training true w))) ∧
  (same_net → use_gpu = true → cuda_is_available = false →
   run = ([], Raise AssertionError (set_training true w))) ∧
  (same_net → use_gpu && negb cuda_is_available = false →
   (∀ v, verbosity = Some v → v ∉ verbosity_names) →
   run = ([EvSetGpu use_gpu], Raise AssertionError (set_training true w))).
Proof.
  intros run same_net. unfold run. rewrite train_cases. fold same_net.
  split; [|split].
  - intros Hne. by rewrite decide_False.
  - intros He -> Hc. rewrite decide_True by done. by rewrite Hc.
  - intros He Hgpu Hv. rewrite decide_True by done. rewrite Hgpu.
    pose proof (set_verbosity_ok self verbosity) as Hset.
    destruct (set_verbosity self verbosity) as [e|self'].
    + by destruct Hset as [-> _].
    + destruct Hset as (v & -> & Hin & _). by destruct (Hv v eq_refl).
Qed.

(** X9.  With valid arguments and no epoch to run ([num_epochs] zero or
    negative), [train] returns at once: it has put the classifier in
    training mode and handed the GPU flag to the attack, it announces the end
    of training unless the verbosity is low, and it has loaded no minibatch
    and created or changed no tensor. *)
Theorem train_without_epochs (self : AdversarialTraining.t F)
    (data_loader : nat → list (tensor F * tensor F)) (num_epochs : Z)
    (loss_fxn : AdversarialTraining.Loss F) (optimizer : option (Optimizer F))
    (ap : AdversarialAttackParameters.t F) (use_gpu : bool) (v : string)
    (w : world F) :
  net_id (ao_classifier_net (adv_attack_obj ap)) = net_id (classifier_net self) →
  use_gpu && negb cuda_is_available = false →
  v ∈ verbosity_names →
  (num_epochs ≤ 0)%Z →
  train self data_loader num_epochs loss_fxn optimizer (Some ap) use_gpu (Some v) w
  = (EvSetGpu use_gpu
     :: (if String.eqb v "low" then [] else [EvPrint "Finished Training"]),
     Ok tt (set_training true w)).
Proof.
  intros Hid Hgpu Hv Hn. rewrite train_cases.
  rewrite decide_True by done. rewrite Hgpu.
  pose proof (set_verbosity_ok self (Some v)) as Hset.
  destruct (set_verbosity self (Some v)) as [e|self'].
  - destruct Hset as [_ Hbad]. by destruct (Hbad v eq_refl).
  - destruct Hset as (v' & [= <-] & _ & _ & Hge).
    unfold training_loop. replace (Z.to_nat num_epochs) with 0 by lia.
    cbn [for_range]. erewrite bind_silent by reflexivity.
    rewrite Hge. by destruct (String.eqb v "low").
Qed.

End Training.

(** ** What the training loop logs *)
Section Logs.
Context {F : Type} {HF : Float F} {HT : Torch F}.
Context (ψ : event → Prop).
Import AdversarialAttackParameters AdversarialTraining.

Lemma logs_of_respects {A} (m : M F A) (φ : A → Prop) :
  respects eq [] 0 ψ m φ → logs ψ m.
Proof. intros Hm w. apply (Hm w). lia. Qed.

Lemma logs_ret {A} (a : A) : logs ψ (mret a : M F A).
Proof. intros w. constructor. Qed.

Lemma logs_raise {A} (e : exn) : logs ψ (raise e : M F A).
Proof. intros w. constructor. Qed.

Lemma logs_emit (e : event) : ψ e → logs ψ (emit e : M F unit).
Proof. intros He w. by constructor. Qed.

Lemma logs_bind {A B} (m : M F A) (f : A → M F B) :
  logs ψ m → (∀ a, logs ψ (f a)) → logs ψ (m ≫= f).
Proof.
  intros Hm Hf w. specialize (Hm w). unfold mbind, M_bind, bind.
  destruct (m w) as [ev [a w1|e w1]]; simpl in *; [|done].
  specialize (Hf a w1). destruct (f a w1) as [ev' o]. simpl in *.
  by apply Forall_app.
Qed.

Lemma logs_for_each {A} (xs : list A) (body : A → M F unit) :
  (∀ x, logs ψ (body x)) → logs ψ (for_each xs body).
Proof.
  intros Hb. induction xs as [|x xs IH]; [apply logs_ret|].
  cbn [for_each]. apply logs_bind; [apply Hb|by intros _].
Qed.

Lemma logs_for_enum {A St} (xs : list A) (i : nat) (body : nat → A → St → M F St)
    (s : St) :
  (∀ i x s, logs ψ (body i x s)) → logs ψ (for_enum xs i body s).
Proof.
  intros Hb. revert i s. induction xs as [|x xs IH]; intros i s; [apply logs_ret|].
  cbn [for_enum]. apply logs_bind; [apply Hb|]. intros s'. apply IH.
Qed.

Lemma logs_for_range {St} (k start : nat) (body : nat → St → M F St) (s : St) :
  (∀ i s, start ≤ i < start + k → logs ψ (body i s)) →
  logs ψ (for_range k start body s).
Proof.
  revert start s. induction k as [|k IH]; intros start s Hb; [apply logs_ret|].
  cbn [for_range]. apply logs_bind; [apply Hb; lia|].
  intros s'. apply IH. intros i s'' Hi. apply Hb. lia.
Qed.

Lemma logs_select (ap : AdversarialAttackParameters.t F) (k : nat) :
  logs ψ (select ap k).
Proof.
  unfold select. apply logs_bind.
  - eapply logs_of_respects. frame_rule respects_random_sample.
  - intros s. apply logs_ret.
Qed.

Lemma logs_index_select (src : loc) (idx : option loc) :
  logs ψ (index_select src idx : M F loc).
Proof. eapply logs_of_respects. frame_rule respects_index_select. Qed.

Lemma logs_torch_cat (a b : option loc) : logs ψ (torch_cat a b : M F loc).
Proof. eapply logs_of_respects. frame_rule respects_torch_cat. Qed.

Lemma logs_alloc (t : tensor F) : logs ψ (alloc t).
Proof. eapply logs_of_respects. frame_rule respects_alloc. Qed.

Lemma logs_read (l : loc) : logs ψ (read l : M F (tensor F)).
Proof. eapply logs_of_respects. frame_rule respects_read. Qed.

Lemma logs_cuda (l : loc) : logs ψ (cuda l : M F loc).
Proof. eapply logs_of_respects. frame_rule respects_cuda. Qed.

Lemma logs_mk_Variable (x : option loc) : logs ψ (mk_Variable x : M F (var F)).
Proof. eapply logs_of_respects. frame_rule respects_mk_Variable. Qed.

Lemma logs_cadence (level every : option Z) (i : nat) :
  logs ψ (cadence level every i : M F bool).
Proof. eapply logs_of_respects. frame_rule respects_cadence. Qed.

Lemma logs_net_forward (net : Classifier F) (x : tensor F) :
  logs ψ (net_forward net x).
Proof. eapply logs_of_respects. frame_rule respects_net_forward. Qed.

Lemma logs_modify_cell (l : loc) (f : cell F → exn + cell F) :
  logs ψ (modify_cell l f).
Proof.
  eapply logs_of_respects. frame_rule respects_modify_cell. left. lia.
Qed.

Lemma logs_map_M_load (ls : list loc) : logs ψ (map_M load ls : M F (list (cell F))).
Proof.
  eapply logs_of_respects. frame_rule respects_map_M.
  intros l _. frame_rule respects_load.
Qed.

Lemma logs_attack (ap : AdversarialAttackParameters.t F) (inputs labels : loc) :
  attack_logs ψ ap → logs ψ (attack ap inputs labels).
Proof.
  intros (Hatt & Hfil & _). unfold attack.
  apply logs_bind; [apply logs_read|intros t].
  apply logs_bind; [apply logs_select|intros sel].
  apply logs_bind; [apply logs_alloc|intros idx].
  apply logs_bind; [apply logs_read|intros ti].
  case_decide; [apply logs_ret|].
  apply logs_bind; [apply logs_index_select|intros a].
  apply logs_bind; [apply logs_index_select|intros b].
  apply logs_bind; [apply Hatt|intros r].
  apply logs_bind; [apply Hfil|intros r'].
  apply logs_ret.
Qed.

Lemma logs_eval (ap : AdversarialAttackParameters.t F) (ground_inputs : loc)
    (adv_inputs : option loc) (labels : loc) (idxs : option loc) :
  attack_logs ψ ap → logs ψ (eval ap ground_inputs adv_inputs labels idxs).
Proof.
  intros (_ & _ & Heval & _). unfold eval.
  apply logs_bind; [apply logs_index_select|intros g].
  apply logs_bind; [apply logs_index_select|intros l].
  destruct adv_inputs; [apply Heval|apply logs_raise].
Qed.

Lemma logs_attack_subroutine (self : AdversarialTraining.t F)
    (attack_parameters : option (AdversarialAttackParameters.t F))
    (inputs labels : loc) (epoch_num minibatch_num : nat) :
  (∀ e, no_checkpoint e → ψ e) →
  (∀ ap, attack_parameters = Some ap → attack_logs ψ ap) →
  logs ψ (_attack_subroutine self attack_parameters inputs labels epoch_num
            minibatch_num).
Proof.
  intros Hψ Hap. unfold _attack_subroutine.
  destruct attack_parameters as [ap|]; [|apply logs_ret].
  specialize (Hap ap eq_refl).
  apply logs_bind; [by apply logs_attack|].
  intros [[adv_inputs adv_labels] adv_idxs].
  apply logs_bind; [apply logs_cadence|intros report].
  apply logs_bind.
  - destruct report; [|apply logs_ret].
    apply logs_bind; [by apply logs_eval|intros acc].
    by apply logs_emit, Hψ.
  - intros _.
    apply logs_bind; [apply logs_torch_cat|intros i'].
    apply logs_bind; [apply logs_torch_cat|intros l'].
    apply logs_ret.
Qed.

Lemma logs_minibatch_step (self : AdversarialTraining.t F)
    (loss_fxn : AdversarialTraining.Loss F)
    (attack_parameters : option (AdversarialAttackParameters.t F))
    (use_gpu : bool) (epoch i : nat) (data : tensor F * tensor F)
    (st : Optimizer F * F) :
  (∀ e, no_checkpoint e → ψ e) →
  (∀ ap, attack_parameters = Some ap → attack_logs ψ ap) →
  logs ψ (AdversarialTraining.minibatch_step self loss_fxn attack_parameters use_gpu
            epoch i data st).
Proof.
  intros Hψ Hap. unfold AdversarialTraining.minibatch_step.
  destruct st as [optimizer running_loss].
  apply logs_bind; [apply logs_alloc|intros inputs].
  apply logs_bind; [apply logs_alloc|intros labels].
  apply logs_bind; [destruct use_gpu; [apply logs_cuda|apply logs_ret]|intros inputs'].
  apply logs_bind; [destruct use_gpu; [apply logs_cuda|apply logs_ret]|intros labels'].
  apply logs_bind; [by apply logs_attack_subroutine|intros [inputs2 labels2]].
  apply logs_bind; [apply logs_ret|intros _].
  apply logs_bind; [by intros w|intros _].
  apply logs_bind; [apply logs_mk_Variable|intros vi].
  apply logs_bind; [apply logs_mk_Variable|intros vl].
  apply logs_bind.
  { unfold optimizer_zero_grad.
    apply logs_bind; [apply logs_for_each; intros l; apply logs_modify_cell|intros _].
    by apply logs_emit, Hψ. }
  intros _.
  apply logs_bind; [apply logs_net_forward|intros outputs].
  apply logs_bind.
  { unfold autograd_backward.
    apply logs_bind; [apply logs_for_each; intros l; apply logs_modify_cell|intros _].
    by apply logs_emit, Hψ. }
  intros _.
  apply logs_bind.
  { unfold optimizer_step.
    apply logs_bind; [apply logs_map_M_load|intros cs].
    apply logs_bind; [apply logs_for_each; intros l; apply logs_modify_cell|intros _].
    apply logs_bind; [by apply logs_emit, Hψ|intros _].
    apply logs_ret. }
  intros optimizer'.
  apply logs_bind; [apply logs_cadence|intros report].
  destruct report; [|apply logs_ret].
  apply logs_bind; [by apply logs_emit, Hψ|intros _]. apply logs_ret.
Qed.

Lemma logs_safe_var (x : loc + var F) : logs ψ (safe_var x).
Proof. eapply logs_of_respects. frame_rule respects_safe_var. Qed.

Lemma logs_engine_eval (engine : AdversarialAttack.t F)
    (ground_examples adversarials labels : loc + var F) :
  logs ψ (AdversarialAttack.eval engine ground_examples adversarials labels).
Proof.
  unfold AdversarialAttack.eval.
  do 3 (apply logs_bind; [apply logs_safe_var|intros ?]).
  do 2 (apply logs_bind; [apply logs_net_forward|intros ?]).
  apply logs_ret.
Qed.

Lemma logs_engine_eval_attack_only (engine : AdversarialAttack.t F)
    (adversarials labels : loc + var F) :
  logs ψ (AdversarialAttack.eval_attack_only engine adversarials labels).
Proof.
  unfold AdversarialAttack.eval_attack_only.
  do 2 (apply logs_bind; [apply logs_safe_var|intros ?]).
  apply logs_bind; [apply logs_net_forward|intros ?].
  apply logs_ret.
Qed.

End Logs.

Section Checkpoints.
Context {F : Type} {HF : Float F} {HT : Torch F}.
Import AdversarialAttackParameters AdversarialTraining.

Lemma attack_logs_weaken (ψ ψ' : event → Prop) (ap : AdversarialAttackParameters.t F) :
  (∀ e, ψ e → ψ' e) → attack_logs ψ ap → attack_logs ψ' ap.
Proof.
  intros Himp (H1 & H2 & H3 & H4).
  repeat split; intros; intros w; eapply Forall_impl; eauto;
    [apply H1|apply H2|apply H3|apply H4].
Qed.

(** A loop that returns has run its body at every index. *)
Lemma for_range_Ok_member {St} (E : nat → event) (P : nat → Prop)
    (body : nat → St → M F St) (k : nat) :
  (∀ i s w ev s' w', body i s w = (ev, Ok s' w') → P i → E i ∈ ev) →
  ∀ start s w ev s' w',
    for_range k start body s w = (ev, Ok s' w') →
    ∀ i, start ≤ i < start + k → P i → E i ∈ ev.
Proof.
  intros Hbody. induction k as [|k IH]; intros start s w ev s' w' Hrun i Hi HP; [lia|].
  cbn [for_range] in Hrun.
  apply bind_inv_Ok in Hrun as (ev1 & s1 & w1 & ev2 & Hfirst & Hrest & ->).
  apply elem_of_app.
  destruct (decide (i = start)) as [->|Hne].
  - left. by eapply Hbody.
  - right. eapply IH; [exact Hrest| |done]. lia.
Qed.

Lemma epoch_step_checkpoints (self : AdversarialTraining.t F)
    (data_loader : nat → list (tensor F * tensor F))
    (loss_fxn : AdversarialTraining.Loss F)
    (attack_parameters : option (AdversarialAttackParameters.t F)) (use_gpu : bool)
    (e : Z) (epoch : nat) (o o' : Optimizer F) (w w' : world F) (ev : list event) :
  verbosity_epoch self = Some e →
  epoch_step self data_loader loss_fxn attack_parameters use_gpu epoch o w
  = (ev, Ok o' w') →
  0 < epoch ∧ (Z.of_nat epoch `mod` e = 0)%Z ∧ e ≠ 0%Z → EvCheckpoint epoch ∈ ev.
Proof.
  intros He Hrun (Hpos & Hmod & Hne). unfold epoch_step in Hrun.
  apply bind_inv_Ok in Hrun as (ev1 & st & w1 & ev2 & _ & Hrest & ->).
  rewrite He in Hrest.
  rewrite decide_True in Hrest by done.
  rewrite decide_False in Hrest by done.
  rewrite decide_True in Hrest by done.
  injection Hrest as <- _ _.
  apply elem_of_app. right. simpl. apply list_elem_of_further, list_elem_of_here.
Qed.

(** X10.  When the attack object saves no checkpoint of its own, [train]
    saves checkpoints only at the end of epochs k (counted from 0) with k >= 1
    and k a multiple of the verbosity's epoch cadence (100 at low, 10 at
    medium, 1 above): never after the first epoch, and, the last epoch being
    num_epochs - 1, not at the end of training unless that number happens to
    be such a multiple.  A run of [train] that returns has saved every one of
    these. *)
Theorem train_checkpoints (self : AdversarialTraining.t F)
    (data_loader : nat → list (tensor F * tensor F)) (num_epochs : Z)
    (loss_fxn : AdversarialTraining.Loss F) (optimizer : option (Optimizer F))
    (ap : AdversarialAttackParameters.t F) (use_gpu : bool) (v : string)
    (w : world F) :
  attack_logs no_checkpoint ap →
  let run := train self data_loader num_epochs loss_fxn optimizer (Some ap) use_gpu
               (Some v) w in
  let due (k : nat) := 0 < k ∧ (Z.of_nat k < num_epochs)%Z
                       ∧ (Z.of_nat k `mod` epoch_cadence v = 0)%Z in
  (∀ k, EvCheckpoint k ∈ run.1 → due k) ∧
  (result_of run = Some tt → ∀ k, due k → EvCheckpoint k ∈ run.1).
Proof.
  intros Hquiet run due. unfold run. rewrite train_cases.
  case_decide as Hid; [|split; [by intros k ?%elem_of_nil|done]].
  destruct (use_gpu && negb cuda_is_available);
    [split; [by intros k ?%elem_of_nil|done]|].
  pose proof (set_verbosity_ok self (Some v)) as Hset.
  destruct (set_verbosity self (Some v)) as [e|self'].
  { split; [|done]. intros k Hk. apply list_elem_of_singleton in Hk. done. }
  destruct Hset as (v' & [= <-] & _ & Hepoch & _).
  assert (Hcad : epoch_cadence v ≠ 0%Z).
  { unfold epoch_cadence. by repeat case_match. }
  cbv zeta. split.
  - set (ψ := λ e, match e with EvCheckpoint k => due k | _ => True end).
    assert (Hψ : ∀ e, no_checkpoint e → ψ e) by (by intros []).
    assert (Hlogs : logs ψ (training_loop self' data_loader num_epochs loss_fxn optimizer
                              (Some ap) use_gpu)).
    { unfold training_loop. apply logs_bind.
      - apply logs_for_range. intros i o Hi. unfold epoch_step.
        apply logs_bind.
        + apply logs_for_enum. intros j x st.
          apply logs_minibatch_step; [done|].
          intros ap' [= <-]. by apply (attack_logs_weaken no_checkpoint).
        + intros st. apply logs_bind; [|intros _; apply logs_ret].
          rewrite Hepoch.
          case_decide as Hpos; [|apply logs_ret].
          rewrite decide_False by done.
          case_decide as Hmod; [|apply logs_ret].
          apply logs_bind; [by apply logs_emit|intros _].
          apply logs_emit. unfold ψ, due. split; [done|]. split; [lia|done].
      - intros _. destruct (ge_1 _); [by apply logs_emit|apply logs_ret]. }
    intros k Hk. simpl in Hk. apply elem_of_cons in Hk as [[=]|Hk].
    specialize (Hlogs (set_training true w)).
    eapply Forall_forall in Hlogs; [|exact Hk]. exact Hlogs.
  - intros Hret k (Hpos & Hlt & Hmod).
    destruct (training_loop self' data_loader num_epochs loss_fxn optimizer (Some ap)
                use_gpu (set_training true w)) as [ev [[] w'|e w']] eqn:Hrun;
      [|done].
    simpl. apply list_elem_of_further.
    unfold training_loop in Hrun.
    apply bind_inv_Ok in Hrun as (ev1 & o1 & w1 & ev2 & Hloop & _ & ->).
    apply elem_of_app. left.
    eapply (for_range_Ok_member EvCheckpoint
              (λ i, 0 < i ∧ (Z.of_nat i `mod` epoch_cadence v = 0)%Z
                    ∧ epoch_cadence v ≠ 0%Z));
      [|exact Hloop| |done].
    + intros i s w0 ev s' w0' Hstep HP.
      by eapply epoch_step_checkpoints.
    + lia.
Qed.

End Checkpoints.

(** The toy trainer at low verbosity with no epoch to run. *)
Lemma train_without_epochs_witness :
  AdversarialTraining.train Toy.trainer (λ _, []) 0 Toy.train_loss None
    (Some (Toy.params (1 # 2))) false (Some "low"%string) Toy.w0
  = ([EvSetGpu false], Ok tt (set_training true Toy.w0)).
Proof.
  apply (train_without_epochs Toy.trainer (λ _, []) 0 Toy.train_loss None
           (Toy.params (1 # 2)) false "low" Toy.w0).
  - reflexivity.
  - reflexivity.
  - apply verbosity_known. reflexivity.
  - lia.
Defined.

Lemma Toy_attack_logs (ψ : event → Prop) (proportion : Q) :
  attack_logs ψ (Toy.params proportion).
Proof.
  split; [|split; [|split]].
  - intros a b. simpl. apply logs_ret.
  - intros r. simpl. apply logs_ret.
  - intros g a l. simpl. apply logs_engine_eval.
  - intros a l. simpl. apply logs_engine_eval_attack_only.
Qed.

(** Three epochs of the toy trainer at high verbosity (a checkpoint after
    every epoch but the first). *)
Lemma train_checkpoints_witness :
  let run := AdversarialTraining.train Toy.trainer
               (λ _, [(Toy.batch_inputs, Toy.batch_labels)]) 3 Toy.train_loss None
               (Some (Toy.params (1 # 2))) false (Some "high"%string) Toy.w0 in
  let due (k : nat) := 0 < k ∧ (Z.of_nat k < 3)%Z
                       ∧ (Z.of_nat k `mod` epoch_cadence "high" = 0)%Z in
  (∀ k, EvCheckpoint k ∈ run.1 → due k) ∧
  (result_of run = Some tt → ∀ k, due k → EvCheckpoint k ∈ run.1).
Proof.
  exact (train_checkpoints Toy.trainer (λ _, [(Toy.batch_inputs, Toy.batch_labels)]) 3
           Toy.train_loss None (Toy.params (1 # 2)) false "high" Toy.w0
           (Toy_attack_logs no_checkpoint (1 # 2))).
Defined.

(** The toy trainer set to medium verbosity: minibatch 1999 (the 2000th) is
    reported on. *)
Lemma reported_minibatches_witness :
  ∃ self',
    AdversarialTraining.set_verbosity Toy.trainer (Some "medium"%string) = inr self' ∧
    cadence (AdversarialTraining.verbosity_level self')
            (AdversarialTraining.verbosity_minibatch self') 1999 Toy.w0
    = ([], Ok true Toy.w0).
Proof.
  eexists. split; [reflexivity|].
  apply (reported_minibatches Toy.trainer _ "medium" 1999 Toy.w0). reflexivity.
Defined.

(** ** The evaluation loop *)
Section Evaluation.
Context {F : Type} {HF : Float F} {HT : Torch F}.
Import AdversarialAttackParameters AdversarialEvaluation.

(** X11.  [evaluate] checks its arguments first: an ensemble with an attack
    named 'ground', or a GPU that is asked for and not there, is an
    AssertionError.  Nothing is logged, the GPU flag is handed to no attack,
    no minibatch is loaded; the classifier has been put in inference
    mode. *)
Theorem evaluate_checks_arguments (self : AdversarialEvaluation.t F)
    (data_loader : list (tensor F * tensor F))
    (attack_ensemble : list (string * AdversarialAttackParameters.t F))
    (use_gpu : bool) (num_minibatches : option Z) (w : world F) :
  "ground"%string ∈ attack_ensemble.*1 ∨ (use_gpu = true ∧ cuda_is_available = false) →
  evaluate self data_loader attack_ensemble use_gpu num_minibatches w
  = ([], Raise AssertionError (set_training false w)).
Proof.
  intros Hbad. unfold evaluate.
  erewrite bind_silent by reflexivity.
  destruct (decide ("ground"%string ∈ attack_ensemble.*1)) as [Hin|Hnin].
  - rewrite bool_decide_eq_true_2 by done. reflexivity.
  - rewrite bool_decide_eq_false_2 by done.
    erewrite bind_silent by reflexivity.
    destruct Hbad as [?|[-> ->]]; [done|]. reflexivity.
Qed.

Lemma minibatch_loop_break (self : AdversarialEvaluation.t F)
    (attack_ensemble : list (string * AdversarialAttackParameters.t F))
    (use_gpu : bool) (n : Z) (batches : list (tensor F * tensor F)) :
  ∀ (i : nat) (vr : gmap string AverageMeter.t) (w : world F),
    let r := minibatch_loop self attack_ensemble use_gpu None i
               (take (Z.to_nat n - i) batches) vr w in
    minibatch_loop self attack_ensemble use_gpu (Some n) i batches vr w
    = (r.1 ++ break_line r.2 (Z.to_nat n - i) batches, r.2).
Proof.
  induction batches as [|data rest IH]; intros i vr w.
  { rewrite take_nil. reflexivity. }
  cbn [minibatch_loop].
  destruct (decide (n ≤ Z.of_nat i)%Z) as [Hle|Hgt].
  - rewrite bool_decide_eq_true_2 by done.
    replace (Z.to_nat n - i) with 0 by lia. reflexivity.
  - rewrite bool_decide_eq_false_2 by done.
    replace (Z.to_nat n - i) with (S (Z.to_nat n - S i)) by lia.
    cbn [take minibatch_loop].
    erewrite !(bind_Ok (emit _)) by reflexivity. cbn [fst snd].
    destruct (AdversarialEvaluation.minibatch_step self attack_ensemble use_gpu i data
                vr w) as [ev1 [vr' w1|e w1]] eqn:Hstep.
    + rewrite !(bind_Ok _ _ _ _ _ _ Hstep). cbn [fst snd].
      rewrite (IH (S i) vr' w1). cbn zeta. cbn [fst snd].
      set (r' := minibatch_loop self attack_ensemble use_gpu None (S i)
                   (take (Z.to_nat n - S i) rest) vr' w1).
      rewrite <- !app_assoc. do 3 f_equal.
      unfold break_line. destruct (r'.2); [|done].
      cbn [length]. destruct (decide (Z.to_nat n - S i < length rest));
        [by rewrite decide_True by lia|by rewrite decide_False by lia].
    + rewrite !(bind_Raise _ _ _ _ _ _ Hstep). cbn [fst snd break_line].
      by rewrite !app_nil_r.
Qed.

(** X12.  Limiting [evaluate] to [n] minibatches gives what [evaluate]
    gives on the first [n] minibatches of the loader (none for [n <= 0]):
    the same averages or the same exception, the same final world.  The log
    is the same too, followed by one more opening line when the loader holds
    more than [n] minibatches: the loop prints before it tests the limit. *)
Theorem evaluate_limited (self : AdversarialEvaluation.t F)
    (data_loader : list (tensor F * tensor F))
    (attack_ensemble : list (string * AdversarialAttackParameters.t F))
    (use_gpu : bool) (n : Z) (w : world F) :
  let full := evaluate self (take (Z.to_nat n) data_loader) attack_ensemble use_gpu
                None w in
  evaluate self data_loader attack_ensemble use_gpu (Some n) w
  = (full.1 ++ break_line full.2 (Z.to_nat n) data_loader, full.2).
Proof.
  intros full. unfold full, evaluate.
  erewrite !(bind_Ok net_eval) by reflexivity. cbn [fst snd app].
  destruct (bool_decide _); [reflexivity|].
  erewrite !(bind_Ok (mret tt)) by reflexivity. cbn [fst snd app].
  destruct (use_gpu && negb cuda_is_available); [reflexivity|].
  erewrite !(bind_Ok (mret tt)) by reflexivity. cbn [fst snd app].
  set (w1 := set_training false w).
  destruct ((if use_gpu then net_cuda else mret tt) w1) as [ev0 [[] w2|e w2]] eqn:Hcuda;
    [|by destruct use_gpu].
  rewrite !(bind_Ok _ _ _ _ _ _ Hcuda). cbn [fst snd].
  destruct (for_each attack_ensemble.*2 (λ attack_params, set_gpu attack_params use_gpu) w2)
    as [ev1 [[] w3|e w3]] eqn:Hgpu.
  - rewrite !(bind_Ok _ _ _ _ _ _ Hgpu). cbn [fst snd].
    set (vr := list_to_map _).
    pose proof (minibatch_loop_break self attack_ensemble use_gpu n data_loader 0 vr w3)
      as Hloop.
    rewrite Nat.sub_0_r in Hloop. cbn zeta in Hloop.
    destruct (minibatch_loop self attack_ensemble use_gpu None 0
                (take (Z.to_nat n) data_loader) vr w3) as [ev2 [res w4|e w4]] eqn:Hfull.
    + rewrite (bind_Ok _ _ _ _ _ _ Hfull).
      cbn [fst snd] in Hloop. rewrite (bind_Ok _ _ _ _ _ _ Hloop).
      cbn [fst snd break_line]. by rewrite !app_nil_r, <- !app_assoc.
    + rewrite (bind_Raise _ _ _ _ _ _ Hfull).
      cbn [fst snd break_line] in Hloop. rewrite app_nil_r in Hloop.
      rewrite (bind_Raise _ _ _ _ _ _ Hloop).
      cbn [fst snd break_line]. by rewrite !app_nil_r.
  - rewrite !(bind_Raise _ _ _ _ _ _ Hgpu). cbn [fst snd break_line].
    by rewrite !app_nil_r.
Qed.

Lemma returns_lift {A} (r : exn + A) (φ : A → Prop) :
  (∀ a, r = inr a → φ a) → returns (lift r : M F A) φ.
Proof.
  intros Hr w a. destruct r as [e|a']; [done|].
  intros [= <-]. by apply Hr.
Qed.

Lemma returns_update_meter (K : gmap string AverageMeter.t → Prop)
    (vr : gmap string AverageMeter.t) (name : string) (val : Q) (n : Z) :
  (∀ m m', vr !! name = Some m → K (<[name := m']> vr)) →
  returns (update_meter vr name val n : M F _) K.
Proof.
  intros HK. unfold update_meter.
  destruct (vr !! name) as [m|] eqn:Hm; [|done].
  eapply returns_bind; [apply returns_any|].
  intros m' _. apply returns_ret. by eapply HK.
Qed.

Lemma same_keys_insert (keys : string → Prop) (vr : gmap string AverageMeter.t)
    (name : string) (m m' : AverageMeter.t) :
  (∀ k, is_Some (vr !! k) ↔ keys k) → vr !! name = Some m →
  ∀ k, is_Some (<[name := m']> vr !! k) ↔ keys k.
Proof.
  intros HK Hm k. rewrite <- HK.
  destruct (decide (k = name)) as [->|Hne].
  - rewrite lookup_insert_eq, Hm. split; eauto.
  - by rewrite lookup_insert_ne.
Qed.

(** X13.  Whenever [evaluate] returns, its report has exactly one entry per
    attack of the ensemble and one for 'ground': the meters are created
    before the loop, and the loop only ever updates a meter that exists. *)
Theorem evaluate_reports_every_attack (self : AdversarialEvaluation.t F)
    (data_loader : list (tensor F * tensor F))
    (attack_ensemble : list (string * AdversarialAttackParameters.t F))
    (use_gpu : bool) (num_minibatches : option Z) :
  returns (evaluate self data_loader attack_ensemble use_gpu num_minibatches)
          (λ report, ∀ name, is_Some (report !! name)
                             ↔ name = "ground"%string ∨ name ∈ attack_ensemble.*1).
Proof.
  set (keys := λ name : string, name = "ground"%string ∨ name ∈ attack_ensemble.*1).
  set (K := λ vr : gmap string AverageMeter.t, ∀ k, is_Some (vr !! k) ↔ keys k).
  assert (Hupd : ∀ vr name val n, K vr → returns (update_meter vr name val n : M F _) K).
  { intros vr name val n HK. apply returns_update_meter.
    intros m m' Hm. exact (same_keys_insert keys vr name m m' HK Hm). }
  assert (Hstep : ∀ i data vr, K vr →
            returns (AdversarialEvaluation.minibatch_step self attack_ensemble use_gpu i
                       data vr) K).
  { intros i data vr HK. unfold AdversarialEvaluation.minibatch_step.
    do 8 (eapply returns_bind; [apply returns_any|intros ? _]).
    eapply returns_bind; [by apply Hupd|]. intros vr' HK'.
    apply returns_for_enum; [done|].
    intros _ [name params] vr'' HK''. unfold attack_step.
    do 8 (eapply returns_bind; [apply returns_any|intros ? _]).
    by apply Hupd. }
  assert (Hloop : ∀ batches i vr, K vr →
            returns (minibatch_loop self attack_ensemble use_gpu num_minibatches i
                       batches vr) K).
  { induction batches as [|data rest IH]; intros i vr HK; [by apply returns_ret|].
    cbn [minibatch_loop].
    eapply returns_bind; [apply returns_any|intros _ _].
    case_match; [by apply returns_ret|].
    eapply returns_bind; [by apply Hstep|]. intros vr' HK'. by apply IH. }
  unfold evaluate.
  do 5 (eapply returns_bind; [apply returns_any|intros ? _]).
  eapply returns_bind.
  - apply Hloop. intros k. unfold keys.
    rewrite <- not_eq_None_Some, <- not_elem_of_list_to_map.
    rewrite <- list_fmap_compose.
    assert (Hfst : (fst ∘ (λ k0 : string, (k0, AverageMeter.init)) <$>
                      attack_ensemble.*1 ++ ["ground"%string])
                   = attack_ensemble.*1 ++ ["ground"%string]).
    { rewrite <- (list_fmap_id (_ ++ _)) at 2. by apply list_fmap_ext. }
    rewrite Hfst, elem_of_app, list_elem_of_singleton.
    split; [|tauto]. intros Hnn. destruct (decide (k = "ground"%string)); [by left|].
    right. destruct (decide (k ∈ attack_ensemble.*1)); [done|]. tauto.
  - intros vr HK. apply returns_ret. intros name.
    rewrite lookup_fmap, fmap_is_Some. apply HK.
Qed.

End Evaluation.

(** An ensemble with an attack named 'ground'. *)
Lemma evaluate_checks_arguments_witness :
  AdversarialEvaluation.evaluate Toy.evaluator [(Toy.batch_inputs, Toy.batch_labels)]
    [("ground"%string, Toy.params (1 # 2))] false None Toy.w0
  = ([], Raise AssertionError (set_training false Toy.w0)).
Proof.
  apply (evaluate_checks_arguments Toy.evaluator [(Toy.batch_inputs, Toy.batch_labels)]
           [("ground"%string, Toy.params (1 # 2))] false None Toy.w0).
  left. simpl. apply list_elem_of_here.
Defined.

(** ** The accuracy on clean examples that the evaluation loop reports *)
Section GroundAccuracy.
Context {F : Type} {HF : Float F} {HT : Torch F}.
Import AdversarialEvaluation.

Lemma grown_refl (w : world F) : grown w w.
Proof. split; [|done]. exists []. by rewrite app_nil_r. Qed.

Lemma grown_trans (w1 w2 w3 : world F) : grown w1 w2 → grown w2 w3 → grown w1 w3.
Proof.
  intros [[e1 H1] [T1 R1]] [[e2 H2] [T2 R2]]. split; [|split; congruence].
  exists (e1 ++ e2). by rewrite H2, H1, app_assoc.
Qed.

Lemma grown_lookup (w w' : world F) (l : loc) (c : cell F) :
  grown w w' → heap w !! l = Some c → heap w' !! l = Some c.
Proof. intros [[ext ->] _] Hl. by apply lookup_app_l_Some. Qed.

Lemma grown_reads (w w' : world F) (ls : list loc) (ts : list (tensor F)) :
  grown w w' → reads (heap w) ls ts → reads (heap w') ls ts.
Proof. intros [[ext ->] _] Hr. by apply reads_app_l. Qed.

Lemma alloc_grown (t : tensor F) (w : world F) :
  ∃ w', alloc t w = ([], Ok (length (heap w)) w') ∧
        heap w' !! length (heap w) = Some (Cell t None) ∧ grown w w'.
Proof.
  eexists. split; [reflexivity|]. split.
  - simpl. rewrite lookup_app_r by done. by rewrite Nat.sub_diag.
  - split; [by eexists|done].
Qed.

Lemma maybe_cuda_grown (use_gpu : bool) (l : loc) (t : tensor F) (w : world F) :
  heap w !! l = Some (Cell t None) →
  ∃ l' w', (if use_gpu then cuda l else mret l) w = ([], Ok l' w') ∧
           heap w' !! l' = Some (Cell t None) ∧ grown w w'.
Proof.
  intros Hl. destruct use_gpu.
  - unfold cuda. rewrite (bind_silent _ _ _ _ _ (read_run _ _ _ Hl)).
    destruct (alloc_grown t w) as (w' & Hrun & Hnew & Hgr). by exists (length (heap w)), w'.
  - exists l, w. split; [done|]. split; [done|apply grown_refl].
Qed.

Lemma py_int_inject (z : Z) : py_int (inject_Z z) = z.
Proof. unfold py_int, inject_Z. simpl. apply Z.quot_1_r. Qed.

(** One pass of the evaluation loop when the ensemble is empty. *)
Lemma ground_step_run (self : AdversarialEvaluation.t F) (use_gpu : bool) (i : nat)
    (batch : tensor F * tensor F) (m : AverageMeter.t) (ws : list (tensor F))
    (w : world F) :
  reads (heap w) (net_params (classifier_net self)) ws →
  training w = false →
  0 < shape0 batch.1 →
  (0 ≤ AverageMeter.am_count m)%Z →
  ∃ w',
    AdversarialEvaluation.minibatch_step self [] use_gpu i batch {["ground"%string := m]} w
    = ([], Ok {["ground"%string :=
                  {| AverageMeter.am_sum :=
                       AverageMeter.am_sum m
                       + inject_Z (correct_on self ws batch)
                         / inject_Z (Z.of_nat (shape0 batch.1))
                         * inject_Z (Z.of_nat (shape0 batch.1));
                     AverageMeter.am_count :=
                       AverageMeter.am_count m + Z.of_nat (shape0 batch.1);
                     AverageMeter.am_avg :=
                       (AverageMeter.am_sum m
                        + inject_Z (correct_on self ws batch)
                          / inject_Z (Z.of_nat (shape0 batch.1))
                          * inject_Z (Z.of_nat (shape0 batch.1)))
                       / inject_Z (AverageMeter.am_count m + Z.of_nat (shape0 batch.1))
                  |}]} w') ∧
    grown w w'.
Proof.
  intros Hws Hmode Hpos Hcount.
  unfold AdversarialEvaluation.minibatch_step.
  destruct (alloc_grown batch.1 w) as (w1 & Hrun1 & Hnew1 & Hgr1).
  rewrite (bind_silent _ _ _ _ _ Hrun1).
  destruct (alloc_grown batch.2 w1) as (w2 & Hrun2 & Hnew2 & Hgr2).
  rewrite (bind_silent _ _ _ _ _ Hrun2).
  pose proof (grown_lookup _ _ _ _ Hgr2 Hnew1) as Hin2.
  destruct (maybe_cuda_grown use_gpu _ _ w2 Hin2) as (inputs & w3 & Hrun3 & Hin3 & Hgr3).
  rewrite (bind_silent _ _ _ _ _ Hrun3).
  pose proof (grown_lookup _ _ _ _ Hgr3 Hnew2) as Hlab3.
  destruct (maybe_cuda_grown use_gpu _ _ w3 Hlab3) as (labels & w4 & Hrun4 & Hlab4 & Hgr4).
  rewrite (bind_silent _ _ _ _ _ Hrun4).
  pose proof (grown_lookup _ _ _ _ Hgr4 Hin3) as Hin4.
  rewrite (bind_silent _ _ _ _ _ (mk_Variable_run _ _ _ Hin4)).
  rewrite (bind_silent _ _ _ _ _ (mk_Variable_run _ _ _ Hlab4)).
  assert (Hgr : grown w w4) by (repeat (eapply grown_trans; [|eassumption]); apply grown_refl).
  pose proof (grown_reads _ _ _ _ Hgr Hws) as Hws4.
  rewrite (bind_silent _ _ _ _ _ (net_forward_run _ _ _ _ Hws4)).
  cbn [v_data data].
  replace (training w4) with false by (destruct Hgr as [_ [-> _]]; done).
  unfold py_div. rewrite decide_False by (simpl; lia).
  erewrite bind_silent by reflexivity.
  unfold update_meter. rewrite lookup_singleton_eq.
  unfold AverageMeter.update. rewrite py_int_inject.
  rewrite decide_False by lia.
  erewrite bind_silent by reflexivity.
  rewrite insert_singleton_eq.
  exists w4. split; [reflexivity|exact Hgr].
Qed.

Lemma ground_loop_run (self : AdversarialEvaluation.t F) (use_gpu : bool)
    (ws : list (tensor F)) (batches : list (tensor F * tensor F)) :
  Forall (λ b, 0 < shape0 b.1) batches →
  ∀ (i : nat) (m : AverageMeter.t) (w : world F),
    reads (heap w) (net_params (classifier_net self)) ws →
    training w = false →
    (0 ≤ AverageMeter.am_count m)%Z →
    ∃ m' w',
      minibatch_loop self [] use_gpu None i batches {["ground"%string := m]} w
      = (repeat starting (length batches), Ok {["ground"%string := m']} w') ∧
      grown w w' ∧
      (batches = [] → m' = m) ∧
      AverageMeter.am_count m'
      = (AverageMeter.am_count m + total_examples batches)%Z ∧
      (AverageMeter.am_sum m'
       == AverageMeter.am_sum m + inject_Z (total_correct self ws batches))%Q ∧
      (batches ≠ [] →
       AverageMeter.am_avg m'
       = (AverageMeter.am_sum m' / inject_Z (AverageMeter.am_count m'))%Q).
Proof.
  induction 1 as [|data rest Hpos Hrest IH]; intros i m w Hws Hmode Hcount.
  { exists m, w. split; [reflexivity|]. split; [apply grown_refl|].
    split; [done|]. split; [simpl; lia|]. split; [|done].
    simpl. unfold inject_Z. by rewrite Qplus_0_r. }
  cbn [minibatch_loop].
  erewrite bind_Ok by reflexivity. cbn [fst snd].
  destruct (ground_step_run self use_gpu i data m ws w Hws Hmode Hpos Hcount)
    as (w1 & Hstep & Hgr1).
  rewrite (bind_silent _ _ _ _ _ Hstep).
  set (m1 := {| AverageMeter.am_sum := _ |}) in *.
  destruct (IH (S i) m1 w1) as (m' & w' & Hrun & Hgr & Hnil & Hcnt & Hsum & Havg).
  { by eapply grown_reads. }
  { destruct Hgr1 as [_ [-> _]]. done. }
  { simpl. lia. }
  exists m', w'. rewrite Hrun. split; [reflexivity|].
  split; [by eapply grown_trans|]. split; [done|].
  split; [rewrite Hcnt; simpl; lia|]. split.
  - rewrite Hsum. simpl.
    rewrite (Qmult_comm (_ / _)), Qmult_div_r by (unfold Qeq; simpl; lia).
    rewrite <- Qplus_assoc. apply Qplus_comp; [reflexivity|].
    unfold Qeq, inject_Z. simpl. lia.
  - intros _. destruct rest as [|b rest'].
    + by rewrite (Hnil eq_refl).
    + by apply Havg.
Qed.

(** X14.  With an empty ensemble, the classifier's weights in the store and
    no empty minibatch, [evaluate] returns, and the accuracy it reports for
    'ground' is the number of examples of the whole loader that the
    classifier gets right, in inference mode, divided by the number of
    examples of the whole loader: minibatches of different sizes weigh in by
    their size.  On an empty loader the report is 0.  The loop prints one
    opening line per minibatch, changes no tensor that existed, and leaves
    the classifier in inference mode. *)
Theorem evaluate_ground_accuracy (self : AdversarialEvaluation.t F)
    (data_loader : list (tensor F * tensor F)) (use_gpu : bool)
    (ws : list (tensor F)) (w : world F) :
  reads (heap w) (net_params (classifier_net self)) ws →
  use_gpu && negb cuda_is_available = false →
  Forall (λ b, 0 < shape0 b.1) data_loader →
  ∃ q w',
    evaluate self data_loader [] use_gpu None w
    = (repeat starting (length data_loader), Ok {["ground"%string := q]} w') ∧
    (data_loader = [] → q = 0%Q) ∧
    (data_loader ≠ [] →
     (q == inject_Z (total_correct self ws data_loader)
           / inject_Z (total_examples data_loader))%Q) ∧
    training w' = false ∧
    (∀ l c, heap w !! l = Some c → heap w' !! l = Some c).
Proof.
  intros Hws Hgpu Hpos. unfold evaluate.
  erewrite bind_silent by reflexivity.
  erewrite bind_silent by reflexivity.
  rewrite Hgpu.
  erewrite bind_silent by reflexivity.
  erewrite bind_silent by (destruct use_gpu; reflexivity).
  erewrite bind_silent by reflexivity.
  destruct (ground_loop_run self use_gpu ws data_loader Hpos 0 AverageMeter.init
              (set_training false w))
    as (m' & w' & Hrun & Hgr & Hnil & Hcnt & Hsum & Havg); [done..|].
  change (list_to_map _) with ({["ground"%string := AverageMeter.init]}
                                : gmap string AverageMeter.t).
  eapply run_events in Hrun; [|reflexivity].
  exists (AverageMeter.am_avg m'), w'. split.
  - eapply run_events; [eapply bind_run; [exact Hrun|]|by rewrite app_nil_r].
    by rewrite map_fmap_singleton.
  - split; [intros ->; by rewrite (Hnil eq_refl)|].
    split.
    + intros Hne. rewrite (Havg Hne), Hsum, Hcnt. simpl.
      rewrite Qplus_0_l. reflexivity.
    + split; [by destruct Hgr as [_ [-> _]]|].
      intros l c Hl. by apply (grown_lookup (set_training false w) w').
Qed.

End GroundAccuracy.

(** The toy evaluator on the toy batch: both examples are right. *)
Lemma evaluate_ground_accuracy_witness :
  ∃ q w',
    AdversarialEvaluation.evaluate Toy.evaluator [(Toy.batch_inputs, Toy.batch_labels)]
      [] false None Toy.w0
    = ([starting], Ok {["ground"%string := q]} w') ∧ (q == 1)%Q.
Proof.
  destruct (evaluate_ground_accuracy Toy.evaluator [(Toy.batch_inputs, Toy.batch_labels)]
              false [FloatTensor [[1%Z]]] Toy.w0)
    as (q & w' & Hrun & _ & Hq & _).
  - repeat constructor.
  - reflexivity.
  - repeat constructor.
  - exists q, w'. split; [exact Hrun|]. by rewrite Hq.
Defined.

(** ** The multi-step attack runs every iteration *)
Section EveryIteration.
Context {F : Type} {HF : Float F} {HT : Torch F}.
Import AdversarialAttack.

Lemma same_size_refl (v : world F) : same_size v v.
Proof. done. Qed.

Lemma same_size_trans (v1 v2 v3 : world F) :
  same_size v1 v2 → same_size v2 v3 → same_size v1 v3.
Proof. intros (? & ? & ?) (? & ? & ?). repeat split; congruence. Qed.

Lemma loads_exist (h : list (cell F)) (ls : list loc) :
  Forall (λ l, l < length h) ls → ∃ cs, Forall2 (λ l c, h !! l = Some c) ls cs.
Proof.
  induction 1 as [|l ls Hl _ [cs Hcs]]; [by exists []|].
  destruct (lookup_lt_is_Some_2 h l Hl) as [c Hc].
  exists (c :: cs). by constructor.
Qed.

Lemma zero_grad_total (p : Perturbation F) (v : world F) :
  Forall (λ l, l < length (heap v)) (pert_params p) →
  ∃ v', zero_grad p v = ([], Ok tt v') ∧ same_size v v'.
Proof.
  intros Hps. eexists. split; [by apply zero_grad_run|].
  split; [|done]. simpl. unfold after_clear. apply alter_all_length.
Qed.

Lemma optimizer_step_total (o : Optimizer F) (v : world F) :
  Forall (λ l, l < length (heap v)) (opt_params o) →
  ∃ o' v', optimizer_step o v = ([EvOptimStep (opt_params o)], Ok o' v') ∧
           opt_params o' = opt_params o ∧ same_size v v'.
Proof.
  intros Hps. destruct (loads_exist _ _ Hps) as [cs Hcs].
  unfold optimizer_step.
  rewrite (bind_silent _ _ _ _ _ (map_M_load_run _ _ _ Hcs)).
  rewrite (bind_silent _ _ _ _ _ (set_data_run _ _ _ Hps)).
  eexists _, _. split; [reflexivity|]. split; [done|].
  split; [|done]. simpl. unfold after_assign. apply alter_all_length.
Qed.

Lemma graph_in_store (self : AdversarialAttack.t F) (ps : list loc)
    (ref : option (tensor F)) (mode : bool) (ws vals : list (tensor F))
    (x labels : tensor F) (n : nat) :
  Forall (λ l, l < n) ps →
  Forall (λ l, l < n) (net_params (classifier_net self)) →
  Forall (λ lg, lg.1 < n) (backward_graph self ps ref mode ws vals x labels).
Proof.
  intros Hps Hnet. unfold backward_graph.
  apply Forall_app. split; apply Forall_forall; intros [l g] Hl;
    apply elem_of_zip_l in Hl; simpl.
  - by eapply Forall_forall in Hps.
  - by eapply Forall_forall in Hnet.
Qed.

Lemma iteration_total (self : AdversarialAttack.t F) (p : Perturbation F)
    (x labels : var F) (fn : tensor F → tensor F) (signed verbose : bool) (i : nat)
    (o : Optimizer F) (v : world F) :
  pert_model p = threat_model self →
  opt_params o = pert_params p →
  Forall (λ l, l < length (heap v)) (pert_params p) →
  Forall (λ l, l < length (heap v)) (net_params (classifier_net self)) →
  (∀ vals t up, length (pert_params p) ≤ length (tm_vjp (threat_model self) vals t up)) →
  ∃ o' v',
    PGD.iteration self p x labels fn signed
      (if negb verbose then (λ ex label iter_no, mret tt) else validation_loop self)
      i o v
    = (iteration_log (pert_params p) signed verbose i, Ok o' v') ∧
    opt_params o' = pert_params p ∧ same_size v v'.
Proof.
  intros Hmodel Hopt Hps Hnet Hgrad. unfold PGD.iteration.
  destruct (zero_grad_total p v Hps) as (v1 & Hz & Hs1).
  rewrite (bind_silent _ _ _ _ _ Hz).
  assert (Hlen1 : length (heap v1) = length (heap v)) by apply Hs1.
  destruct (reads_exists (heap v1) (pert_params p)) as [vals Hvals];
    [by rewrite Hlen1|].
  destruct (reads_exists (heap v1) (net_params (classifier_net self))) as [ws Hws];
    [by rewrite Hlen1|].
  rewrite (bind_silent _ _ _ _ _ (perturbation_call_run p x vals v1 Hvals)).
  rewrite (bind_silent _ _ _ _ _ (loss_forward_run self p vals ws x labels v1 Hmodel Hws)).
  set (graph := backward_graph self (pert_params p) (reference v1) (training v1) ws vals
                  (v_data x) (v_data labels)).
  assert (Hgraph : Forall (λ lg, lg.1 < length (heap v1)) graph).
  { apply graph_in_store; by rewrite Hlen1. }
  rewrite (bind_Ok _ _ _ _ _ _ (autograd_backward_run _ graph v1 Hgraph)).
  set (v2 := set_heap (after_backward graph) v1).
  assert (Hlen2 : length (heap v2) = length (heap v)).
  { simpl. unfold after_backward. by rewrite alter_all_length. }
  assert (Hstep : ∃ o' v3,
             (if signed then update_params p fn;; mret o else optimizer_step o) v2
             = ([if signed then EvUpdateParams (pert_params p)
                 else EvOptimStep (pert_params p)], Ok o' v3) ∧
             opt_params o' = pert_params p ∧ same_size v2 v3).
  { destruct signed.
    - assert (Hgr : Forall (λ l, ∃ c, heap v2 !! l = Some c ∧ is_Some (grad c))
                      (pert_params p)).
      { apply Forall_forall. intros l Hl. simpl.
        apply after_backward_grad.
        - unfold graph, backward_graph. rewrite fmap_app. apply elem_of_app. left.
          rewrite fst_zip; [done|]. unfold parameter_gradients. apply Hgrad.
        - eapply Forall_forall in Hps; [|exact Hl]. by rewrite Hlen1. }
      exists o, (set_heap (after_update (pert_params p) fn) v2).
      split.
      + by rewrite (bind_Ok _ _ _ _ _ _ (update_params_run p fn v2 Hgr)).
      + split; [done|]. split; [|done]. simpl. unfold after_update.
        by rewrite alter_all_length.
    - destruct (optimizer_step_total o v2) as (o' & v3 & Hrun & Ho' & Hs3).
      { by rewrite Hopt, Hlen2. }
      exists o', v3. rewrite Hopt in Hrun. split; [done|]. split; [congruence|done]. }
  destruct Hstep as (o' & v3 & Hrun3 & Ho' & Hs3).
  rewrite (bind_Ok _ _ _ _ _ _ Hrun3).
  assert (Hlen3 : length (heap v3) = length (heap v)).
  { destruct Hs3 as [-> _]. exact Hlen2. }
  destruct (reads_exists (heap v3) (pert_params p)) as [vals3 Hvals3];
    [by rewrite Hlen3|].
  destruct (reads_exists (heap v3) (net_params (classifier_net self))) as [ws3 Hws3];
    [by rewrite Hlen3|].
  rewrite (bind_silent _ _ _ _ _ (perturbation_call_run p x vals3 v3 Hvals3)).
  rewrite (bind_Ok _ _ _ _ _ _ (validator_run self verbose _ _ (inl i) ws3 v3 Hws3)).
  exists o', v3. split; [|split; [done|]].
  - cbn [fst snd]. unfold iteration_log. simpl. by rewrite app_nil_r.
  - eapply same_size_trans; [exact Hs1|].
    eapply same_size_trans; [|exact Hs3]. split; [|done].
    simpl. unfold after_backward. by rewrite alter_all_length.
Qed.

Lemma iterations_total (self : AdversarialAttack.t F) (p : Perturbation F)
    (x labels : var F) (fn : tensor F → tensor F) (signed verbose : bool) (n : nat) :
  pert_model p = threat_model self →
  (∀ vals t up, length (pert_params p) ≤ length (tm_vjp (threat_model self) vals t up)) →
  ∀ (start : nat) (o : Optimizer F) (v : world F),
    opt_params o = pert_params p →
    Forall (λ l, l < length (heap v)) (pert_params p) →
    Forall (λ l, l < length (heap v)) (net_params (classifier_net self)) →
    ∃ o' v',
      for_range n start
        (PGD.iteration self p x labels fn signed
           (if negb verbose then (λ ex label iter_no, mret tt) else validation_loop self))
        o v
      = (concat (iteration_log (pert_params p) signed verbose <$> seq start n), Ok o' v') ∧
      same_size v v'.
Proof.
  intros Hmodel Hgrad. induction n as [|n IH]; intros start o v Hopt Hps Hnet.
  { exists o, v. by split. }
  cbn [for_range seq fmap list_fmap concat].
  destruct (iteration_total self p x labels fn signed verbose start o v
              Hmodel Hopt Hps Hnet Hgrad) as (o1 & v1 & Hrun1 & Hopt1 & Hs1).
  assert (Hlen1 : length (heap v1) = length (heap v)) by apply Hs1.
  destruct (IH (S start) o1 v1) as (o' & v' & Hrun & Hs); [done|by rewrite Hlen1..|].
  exists o', v'. split; [|by eapply same_size_trans].
  rewrite (bind_Ok _ _ _ _ _ _ Hrun1), Hrun. reflexivity.
Qed.

(** X15.  With the batch, the labels and the classifier's weights in the
    store, and a threat model that hands every parameter of the perturbation
    a gradient, the multi-step attack returns, whatever the number of
    iterations and the options, and it has run every iteration: its log is
    the validator's opening line(s) followed, for each iteration in turn, by
    exactly one backward pass, one update of the perturbation's parameters
    (its own sign step when signed, a step of its optimizer otherwise) and
    the validator's line.  A negative number of iterations counts as zero.
    The attack creates the perturbation's parameters and nothing else,
    leaves the classifier in inference mode, releases the reference batch of
    the loss, and changes the data of no tensor that existed. *)
Theorem PGD_runs_every_iteration (self : AdversarialAttack.t F) (examples labels : loc)
    (step_size : F) (num_iterations : Z) (random_init_flag signed verbose : bool)
    (w : world F) (cx cl : cell F) (ws : list (tensor F)) :
  heap w !! examples = Some cx → heap w !! labels = Some cl →
  reads (heap w) (net_params (classifier_net self)) ws →
  let tm := threat_model self in
  let init := tm_init tm (data cx) in
  let p := created tm (data cx) w in
  (∀ vals t up, length init ≤ length (tm_vjp tm vals t up)) →
  ∃ w',
    PGD.attack self examples labels step_size num_iterations random_init_flag signed
      verbose w
    = (PGD_log (parameters p) (Z.to_nat num_iterations) random_init_flag signed verbose,
       Ok (attach_originals p examples) w') ∧
    length (heap w') = length (heap w) + length init ∧
    training w' = false ∧ reference w' = None ∧
    (∀ l c, heap w !! l = Some c → ∃ c', heap w' !! l = Some c' ∧ data c' = data c).
Proof.
  intros Hex Hlab Hws tm init p Hgrad.
  assert (Hframe := PGD_attack_frame self examples labels step_size num_iterations
                      random_init_flag signed verbose w).
  cbv zeta in Hframe. destruct Hframe as [[_ Hframe] _].
  cut (∃ w', PGD.attack self examples labels step_size num_iterations random_init_flag
               signed verbose w
             = (PGD_log (parameters p) (Z.to_nat num_iterations) random_init_flag signed
                  verbose, Ok (attach_originals p examples) w') ∧
             length (heap w') = length (heap w) + length init ∧
             training w' = false ∧ reference w' = None).
  { intros (w' & Hrun & Hlen & Hmode & Href). exists w'.
    rewrite Hrun in Hframe. cbn [final snd] in Hframe.
    repeat (split; [done|]). intros l c Hl.
    destruct (Hframe l c) as (c' & Hc' & Hd);
      [by eapply lookup_lt_Some|apply not_elem_of_nil|done|].
    exists c'. split; [done|]. by symmetry. }
  rewrite PGD_attack_unfold, Hex. fold tm init p.
  unfold PGD_after_creation. cbv zeta.
  set (w1 := set_heap (λ h, h ++ fresh_cells init) (set_training false w)).
  assert (Hx1 : heap w1 !! examples = Some cx) by (by apply lookup_app_l_Some).
  assert (Hl1 : heap w1 !! labels = Some cl) by (by apply lookup_app_l_Some).
  assert (Hlen1 : length (heap w1) = length (heap w) + length init).
  { simpl. rewrite length_app. unfold fresh_cells. by rewrite length_fmap. }
  assert (Hps1 : Forall (λ l, l < length (heap w1)) (pert_params p)).
  { apply Forall_forall. intros l Hl. apply elem_of_seq in Hl. fold init in Hl. lia. }
  assert (Hnet1 : Forall (λ l, l < length (heap w1)) (net_params (classifier_net self))).
  { pose proof (reads_lt _ _ _ Hws) as Hlt. eapply Forall_impl; [exact Hlt|].
    intros l Hl. simpl in Hl. lia. }
  rewrite (bind_silent _ _ _ _ _ (mk_Variable_run _ _ _ Hx1)).
  rewrite (bind_silent _ _ _ _ _ (mk_Variable_run _ _ _ Hl1)).
  erewrite bind_silent by reflexivity.
  set (v0 := set_reference (Some (data cx)) w1).
  set (vx := Var (data cx) (Some examples) [] (λ _, [])).
  set (vl := Var (data cl) (Some labels) [] (λ _, [])).
  assert (Hws0 : reads (heap v0) (net_params (classifier_net self)) ws)
    by (by apply reads_app_l).
  rewrite (bind_Ok _ _ _ _ _ _ (validator_run self verbose vx vl (inr "START"%string)
                                  ws v0 Hws0)).
  assert (Hinit : ∃ v1,
            (if random_init_flag
             then random_init p;;
                  adv ← perturbation_call p vx;
                  (if negb verbose then (λ ex label iter_no, mret tt)
                   else validation_loop self) adv vl (inr "RANDOM"%string)
             else mret tt) v0
            = (if random_init_flag then validator_log verbose (inr "RANDOM"%string)
               else [], Ok tt v1) ∧ same_size v0 v1).
  { destruct random_init_flag; [|by exists v0].
    pose proof (random_init_run p init v0 (reads_fresh _ _)) as Hri.
    set (v1 := set_heap _ _) in Hri.
    assert (Hlenv : length (heap v1) = length (heap v0)).
    { simpl. unfold after_assign. by rewrite alter_all_length. }
    destruct (reads_exists (heap v1) (pert_params p)) as [vals Hvals];
      [by rewrite Hlenv|].
    destruct (reads_exists (heap v1) (net_params (classifier_net self))) as [ws1 Hws1];
      [by rewrite Hlenv|].
    exists v1. split; [|done].
    rewrite (bind_silent _ _ _ _ _ Hri).
    rewrite (bind_silent _ _ _ _ _ (perturbation_call_run p vx vals v1 Hvals)).
    apply (validator_run self verbose _ _ _ ws1 v1 Hws1). }
  destruct Hinit as (v1 & Hrun1 & Hs1).
  rewrite (bind_Ok _ _ _ _ _ _ Hrun1).
  assert (Hlenv1 : length (heap v1) = length (heap w1)) by apply Hs1.
  assert (Hgrad' : ∀ vals t up,
            length (pert_params p) ≤ length (tm_vjp (threat_model self) vals t up)).
  { intros vals t up. simpl. rewrite length_seq. apply Hgrad. }
  destruct (iterations_total self p vx vl (λ grad_data, scale step_size (torch_sign grad_data))
              signed verbose (Z.to_nat num_iterations) eq_refl Hgrad' 0
              (optim_Adam (parameters p) (5 # 10000)) v1)
    as (o' & v2 & Hrun2 & Hs2); [done|by rewrite Hlenv1..|].
  rewrite (bind_Ok _ _ _ _ _ _ Hrun2).
  assert (Hlenv2 : length (heap v2) = length (heap w1)).
  { destruct Hs2 as [-> _]. exact Hlenv1. }
  destruct (zero_grad_total p v2) as (v3 & Hrun3 & Hs3); [by rewrite Hlenv2|].
  rewrite (bind_silent _ _ _ _ _ Hrun3).
  erewrite bind_silent by reflexivity.
  exists (set_reference None v3). split; [|split; [|split]].
  - cbn [fst snd]. unfold PGD_log. f_equal.
    unfold parameters. by rewrite !app_nil_r.
  - simpl. destruct Hs3 as [-> _]. by rewrite Hlenv2, Hlen1.
  - simpl. destruct Hs3 as (_ & -> & _). destruct Hs2 as (_ & -> & _).
    by destruct Hs1 as (_ & -> & _).
  - reflexivity.
Qed.

(** X18.  With [signed = False] the multi-step attack never looks at
    [step_size]: the update function built from it is only called in the
    signed branch of the loop, and the optimizer that takes the unsigned
    steps is built with its own fixed learning rate.  Two runs that differ
    only in [step_size] log the same events, return the same perturbation or
    raise the same exception, and end in the same world. *)
Theorem PGD_unsigned_ignores_step_size (self : AdversarialAttack.t F)
    (examples labels : loc) (step_size step_size' : F) (num_iterations : Z)
    (random_init_flag verbose : bool) (w : world F) :
  PGD.attack self examples labels step_size num_iterations random_init_flag false
    verbose w
  = PGD.attack self examples labels step_size' num_iterations random_init_flag false
      verbose w.
Proof.
  assert (Hbody : ∀ (p : Perturbation F) (x l : var F) fn fn' validator,
            PGD.iteration self p x l fn false validator
            = PGD.iteration self p x l fn' false validator) by reflexivity.
  unfold PGD.attack.
  destruct (net_eval w) as [ev0 [[] w0|e w0]] eqn:Hnet.
  2: by rewrite !(bind_Raise _ _ _ _ _ _ Hnet).
  rewrite !(bind_Ok _ _ _ _ _ _ Hnet). f_equal.
  all: destruct (threat_model_call (threat_model self) examples w0)
         as [ev1 [p w1|e w1]] eqn:Hp;
    [rewrite !(bind_Ok _ _ _ _ _ _ Hp)|by rewrite !(bind_Raise _ _ _ _ _ _ Hp)].
  all: destruct (mk_Variable (Some examples) w1) as [ev2 [x w2|e w2]] eqn:Hx;
    [rewrite !(bind_Ok _ _ _ _ _ _ Hx)|by rewrite !(bind_Raise _ _ _ _ _ _ Hx)].
  all: destruct (mk_Variable (Some labels) w2) as [ev3 [l w3|e w3]] eqn:Hl;
    [rewrite !(bind_Ok _ _ _ _ _ _ Hl)|by rewrite !(bind_Raise _ _ _ _ _ _ Hl)].
  all: by rewrite (Hbody p x l (λ grad_data, scale step_size (torch_sign grad_data))
                     (λ grad_data, scale step_size' (torch_sign grad_data))).
Qed.

End EveryIteration.

(** Three unsigned iterations of the toy engine on the toy batch, with a
    random start and the validator on. *)
Lemma PGD_runs_every_iteration_witness :
  ∃ w',
    PGD.attack Toy.engine 1 2 2%Z 3 true false true Toy.w0
    = (PGD_log [3] 3 true false true,
       Ok (attach_originals (created Toy.additive Toy.batch_inputs Toy.w0) 1) w') ∧
    length (heap w') = 4 ∧ training w' = false ∧ reference w' = None.
Proof.
  destruct (PGD_runs_every_iteration Toy.engine 1 2 2%Z 3 true false true Toy.w0
              (Cell Toy.batch_inputs None) (Cell Toy.batch_labels None)
              [FloatTensor [[1%Z]]])
    as (w' & Hrun & Hlen & Hmode & Href & _).
  - reflexivity.
  - reflexivity.
  - repeat constructor.
  - intros vals t up. simpl. lia.
  - exists w'. split; [exact Hrun|]. split; [exact Hlen|]. split; [exact Hmode|exact Href].
Defined.

(** ** One step of adversarial training *)
Section TrainingStep.
Context {F : Type} {HF : Float F} {HT : Torch F}.
Import AdversarialAttackParameters AdversarialTraining.

Lemma optimizer_zero_grad_total (o : Optimizer F) (v : world F) :
  Forall (λ l, l < length (heap v)) (opt_params o) →
  ∃ v', optimizer_zero_grad o v = ([EvOptimZeroGrad (opt_params o)], Ok tt v') ∧
        same_size v v' ∧ data <$> heap v' = data <$> heap v.
Proof.
  intros Hps. unfold optimizer_zero_grad.
  pose proof (for_each_modify_run (opt_params o) id (λ _, cleared) v Hps) as Hrun.
  eexists. split; [|split].
  - eapply (bind_run _ _ _ [] tt _ [EvOptimZeroGrad _]); [exact Hrun|reflexivity].
  - split; [|done]. simpl. apply alter_all_length.
  - simpl. apply alter_all_data. apply Forall_forall.
    intros [l f] Hin c. apply list_elem_of_fmap in Hin as (l' & [= -> ->] & _). done.
Qed.

(** X16.  One pass of the training loop on a minibatch of N examples that is
    not reported on by the attack, with a sample size k = int(proportion * N)
    between 1 and N, a selection that [random.sample] came back with, and an
    attack object that, given a batch and its labels while the weights of
    its classifier are in the store, returns as many examples as it is
    given: the step returns, and it trains on N + k examples.  After the
    attack it puts the classifier back in training mode, clears the
    gradients of the optimizer's parameters, runs one forward pass on the
    clean examples followed by the adversarial ones, against the clean
    labels followed by the labels of the attacked examples, one backward
    pass and one optimizer step, in that order.  The loss of that batch is
    added to the running loss, which restarts from zero when the minibatch
    is reported on.  The optimizer keeps its parameter group. *)
Theorem adversarial_training_step (self : AdversarialTraining.t F)
    (loss_fxn : AdversarialTraining.Loss F) (ap : AdversarialAttackParameters.t F)
    (use_gpu : bool) (epoch i : nat) (rows : list (list F)) (ys : list Z)
    (optimizer : Optimizer F) (running_loss : F) (report : bool)
    (ws aws : list (tensor F)) (w : world F) (s : list nat) (t : nat) :
  length ys = length rows →
  shape_preserving ap →
  (∀ v : world F, cadence (verbosity_level self) (verbosity_adv self) i v
                  = ([], Ok false v)) →
  (∀ v : world F, cadence (verbosity_level self) (verbosity_minibatch self) i v
                  = ([], Ok report v)) →
  reads (heap w) (net_params (classifier_net self)) ws →
  reads (heap w) (net_params (ao_classifier_net (adv_attack_obj ap))) aws →
  Forall (λ l, l < length (heap w)) (opt_params optimizer) →
  let N := length rows in
  let k := py_int (float_times_int (proportion_attacked ap) (Z.of_nat N)) in
  (1 ≤ k ≤ Z.of_nat N)%Z →
  sample (range N) (Z.to_nat k) (py_rng w) = Some (s, t) →
  let sel := sorted s in
  ∃ ev advs ls o' w',
    let logits := net_fn (classifier_net self) true ws
                    (norm_fn (normalizer self) (FloatTensor (rows ++ advs))) in
    let value := loss_value loss_fxn logits (LongTensor (ys ++ ls)) in
    AdversarialTraining.minibatch_step self loss_fxn (Some ap) use_gpu epoch i
      (FloatTensor rows, LongTensor ys) (optimizer, running_loss) w
    = (ev ++ [EvOptimZeroGrad (opt_params optimizer); EvBackward;
              EvOptimStep (opt_params optimizer)]
          ++ (if report then [EvPrint "[%d, %5d] loss: %.3f"] else []),
       Ok (o', if report then f_zero else f_add running_loss value) w') ∧
    length advs = Z.to_nat k ∧ rows_at ys sel ls ∧
    opt_params o' = opt_params optimizer ∧
    training w' = true.
Proof.
  intros Hlen Hshape Hquiet Hrep Hws Haws Hopt N k Hk Hs sel.
  unfold AdversarialTraining.minibatch_step. cbn [fst snd].
  destruct (alloc_grown (FloatTensor rows) w) as (w1 & Hrun1 & Hnew1 & Hgr1).
  rewrite (bind_silent _ _ _ _ _ Hrun1).
  destruct (alloc_grown (LongTensor ys) w1) as (w2 & Hrun2 & Hnew2 & Hgr2).
  rewrite (bind_silent _ _ _ _ _ Hrun2).
  pose proof (grown_lookup _ _ _ _ Hgr2 Hnew1) as Hin2.
  destruct (maybe_cuda_grown use_gpu _ _ w2 Hin2) as (inputs & w3 & Hrun3 & Hin3 & Hgr3).
  rewrite (bind_silent _ _ _ _ _ Hrun3).
  pose proof (grown_lookup _ _ _ _ Hgr3 Hnew2) as Hlab3.
  destruct (maybe_cuda_grown use_gpu _ _ w3 Hlab3) as (labels & w4 & Hrun4 & Hlab4 & Hgr4).
  rewrite (bind_silent _ _ _ _ _ Hrun4).
  pose proof (grown_lookup _ _ _ _ Hgr4 Hin3) as Hin4.
  assert (Hgr : grown w w4)
    by (repeat (eapply grown_trans; [|eassumption]); apply grown_refl).
  assert (Hs4 : sample (range N) (Z.to_nat k) (py_rng w4) = Some (s, t)).
  { by replace (py_rng w4) with (py_rng w) by (by destruct Hgr as (_ & _ & ->)). }
  destruct (attack_subroutine_run self ap inputs labels rows ys None None epoch i aws w4
              s t Hin4 Hlab4 Hlen Hshape (grown_reads _ _ _ _ Hgr Haws) Hquiet Hk Hs4)
    as (ev & i' & l' & w5 & advs & ls & Hsub & Hi5 & Hl5 & Hadvs & Hls & Hkeep).
  fold sel in Hls.
  rewrite (bind_Ok _ _ _ _ _ _ Hsub). cbn [fst snd].
  erewrite bind_silent by reflexivity.
  erewrite bind_silent by reflexivity.
  set (w6 := set_training true w5).
  rewrite (bind_silent _ _ _ _ _ (mk_Variable_run i' _ w6 Hi5)).
  rewrite (bind_silent _ _ _ _ _ (mk_Variable_run l' _ w6 Hl5)).
  cbn [data].
  assert (Hreads6 : ∀ ls' ts, reads (heap w) ls' ts → reads (heap w6) ls' ts).
  { intros ls' ts Hr. apply Hkeep. by eapply grown_reads. }
  assert (Hopt6 : Forall (λ l, l < length (heap w6)) (opt_params optimizer)).
  { destruct (reads_exists _ _ Hopt) as [ts Hts]. eapply reads_lt. by apply Hreads6. }
  destruct (optimizer_zero_grad_total optimizer w6 Hopt6) as (v7 & Hrun7 & Hs7 & Hd7).
  rewrite (bind_Ok _ _ _ _ _ _ Hrun7). cbn [fst snd].
  assert (Hws7 : reads (heap v7) (net_params (classifier_net self)) ws).
  { unfold reads. rewrite Hd7. by apply Hreads6. }
  rewrite (bind_silent _ _ _ _ _ (net_forward_run _ _ _ _ Hws7)).
  replace (training v7) with true by (by destruct Hs7 as (_ & -> & _)).
  unfold AdversarialTraining.loss_forward. cbn [v_data v_leaves v_vjp].
  set (logits := net_fn (classifier_net self) true ws
                   (norm_fn (normalizer self) (FloatTensor (rows ++ advs)))).
  set (graph := zip (net_params (classifier_net self)) _).
  assert (Hgraph : Forall (λ lg, lg.1 < length (heap v7)) graph).
  { apply Forall_forall. intros [l g] Hl. apply elem_of_zip_l in Hl. simpl.
    pose proof (reads_lt _ _ _ Hws7) as Hlt. by eapply Forall_forall in Hlt. }
  rewrite (bind_Ok _ _ _ _ _ _ (autograd_backward_run _ graph v7 Hgraph)).
  cbn [fst snd].
  set (v8 := set_heap (after_backward graph) v7).
  assert (Hlen8 : length (heap v8) = length (heap w6)).
  { simpl. unfold after_backward. rewrite alter_all_length. apply Hs7. }
  destruct (optimizer_step_total optimizer v8) as (o' & v9 & Hrun9 & Ho' & Hs9);
    [by rewrite Hlen8|].
  rewrite (bind_Ok _ _ _ _ _ _ Hrun9). cbn [fst snd s_value].
  rewrite (bind_silent _ _ _ _ _ (Hrep v9)).
  exists ev, advs, ls, o', v9. cbv zeta. fold logits.
  split; [|split; [done|split; [done|split; [done|]]]].
  - destruct report; simpl; by rewrite ?app_nil_r.
  - destruct Hs9 as (_ & -> & _). simpl. by destruct Hs7 as (_ & -> & _).
Qed.

End TrainingStep.

(** The toy trainer (verbosity not set) on the toy batch, half of it
    attacked with the single-step attack. *)
Lemma adversarial_training_step_witness :
  ∃ ev (advs : list (list Z)) (ls : list Z) o' w',
    AdversarialTraining.minibatch_step Toy.trainer Toy.train_loss
      (Some (Toy.fgsm_params (1 # 2))) false 0 0
      (FloatTensor [[0%Z]; [1%Z]], LongTensor [0%Z; 1%Z])
      (AdversarialTraining.outer_optimizer Toy.trainer None, 0%Z) Toy.w0
    = (ev ++ [EvOptimZeroGrad [0]; EvBackward; EvOptimStep [0]], Ok (o', 0%Z) w') ∧
    length advs = 1 ∧ length ls = 1 ∧ training w' = true.
Proof.
  destruct (adversarial_training_step Toy.trainer Toy.train_loss (Toy.fgsm_params (1 # 2))
              false 0 0 [[0%Z]; [1%Z]] [0%Z; 1%Z]
              (AdversarialTraining.outer_optimizer Toy.trainer None) 0%Z false
              [FloatTensor [[1%Z]]] [FloatTensor [[1%Z]]] Toy.w0 [0] 1)
    as (ev & advs & ls & o' & w' & Hrun & Hadvs & Hls & _ & Hmode).
  - reflexivity.
  - apply Toy_fgsm_shape_preserving.
  - reflexivity.
  - reflexivity.
  - repeat constructor.
  - repeat constructor.
  - repeat constructor.
  - vm_compute. split; discriminate.
  - reflexivity.
  - exists ev, advs, ls, o', w'.
    split; [rewrite Hrun; by rewrite app_nil_r|].
    split; [exact Hadvs|]. split; [|exact Hmode].
    apply Forall2_length in Hls. rewrite <- Hls. reflexivity.
Defined.

(** ** The parameters of the multi-step attack in closed form *)
Section Segments.
Context {F : Type} {HF : Float F} {HT : Torch F}.

Lemma segment_lookup (L k : nat) (h : list (cell F)) (i : nat) :
  segment L k h !! i = if decide (i < k) then h !! (L + i) else None.
Proof.
  unfold segment. case_decide.
  - by rewrite lookup_take_lt, lookup_drop.
  - by rewrite lookup_take_ge by lia.
Qed.

Lemma segment_length (L k : nat) (h : list (cell F)) :
  L + k ≤ length h → length (segment L k h) = k.
Proof. intros Hl. unfold segment. rewrite length_take, length_drop. lia. Qed.

Lemma apply_each_lookup (fs : list (cell F → cell F)) (cs : list (cell F)) (i : nat) :
  apply_each fs cs !! i
  = match fs !! i with Some f => f <$> cs !! i | None => cs !! i end.
Proof.
  revert cs i. induction fs as [|f fs IH]; intros cs i; [by destruct cs|].
  destruct cs as [|c cs], i as [|i]; simpl; [done|by destruct (fs !! i)|done|apply IH].
Qed.

Lemma apply_each_length (fs : list (cell F → cell F)) (cs : list (cell F)) :
  length (apply_each fs cs) = length cs.
Proof.
  revert cs. induction fs as [|f fs IH]; intros [|c cs]; simpl; [done..|].
  by rewrite IH.
Qed.

Lemma segment_other ops (L k : nat) (h : list (cell F)) :
  Forall (λ l, l < L) ops.*1 → segment L k (alter_all ops h) = segment L k h.
Proof.
  intros Hops. apply list_eq. intros i. rewrite !segment_lookup.
  case_decide; [|done]. apply alter_all_other.
  intros Hin. eapply Forall_forall in Hops; [|exact Hin]. simpl in Hops. lia.
Qed.

Lemma segment_uniform (f : cell F → cell F) (L k : nat) (h : list (cell F)) :
  segment L k (alter_all ((λ l, (l, f)) <$> seq L k) h) = f <$> segment L k h.
Proof.
  apply list_eq. intros i. rewrite list_lookup_fmap, !segment_lookup.
  case_decide; [|done]. apply alter_all_at.
  - rewrite fst_tagged. apply NoDup_seq.
  - apply list_elem_of_fmap. exists (L + i). split; [done|]. apply elem_of_seq. lia.
Qed.

Lemma alter_zip_lookup {X} (g : X → cell F → cell F) (xs : list X) :
  ∀ (L k : nat) (h : list (cell F)) (i : nat), i < k →
    alter_all ((λ lx, (lx.1, g lx.2)) <$> zip (seq L k) xs) h !! (L + i)
    = match xs !! i with Some x => g x <$> h !! (L + i) | None => h !! (L + i) end.
Proof.
  induction xs as [|x xs IH]; intros L k h i Hi.
  - by rewrite zip_with_nil_r.
  - destruct k as [|k]; [lia|]. cbn [seq zip_with fmap list_fmap fst snd].
    unfold alter_all. cbn [foldl fst snd].
    fold (alter_all ((λ lx, (lx.1, g lx.2)) <$> zip (seq (S L) k) xs) (alter (g x) L h)).
    destruct i as [|i].
    + rewrite Nat.add_0_r, alter_all_other; [apply list_lookup_alter_eq|].
      intros Hin. apply list_elem_of_fmap in Hin as ([l f] & -> & Hin). simpl in Hin.
      apply list_elem_of_fmap in Hin as ([l' x'] & [= -> ->] & Hin).
      apply elem_of_zip_l in Hin. apply elem_of_seq in Hin. lia.
    + replace (L + S i) with (S L + i) by lia. rewrite IH by lia. simpl.
      by rewrite list_lookup_alter_ne by lia.
Qed.

Lemma segment_zip {X} (g : X → cell F → cell F) (xs : list X) (L k : nat)
    (h : list (cell F)) :
  segment L k (alter_all ((λ lx, (lx.1, g lx.2)) <$> zip (seq L k) xs) h)
  = apply_each (g <$> xs) (segment L k h).
Proof.
  apply list_eq. intros i. rewrite apply_each_lookup, !segment_lookup, list_lookup_fmap.
  case_decide.
  - rewrite alter_zip_lookup by done. by destruct (xs !! i).
  - by destruct (xs !! i).
Qed.

Lemma reads_segment (L k : nat) (h : list (cell F)) :
  L + k ≤ length h → reads h (seq L k) (data <$> segment L k h).
Proof.
  intros Hl. apply Forall2_same_length_lookup.
  split; [by rewrite length_seq, length_fmap, segment_length|].
  intros i l t Hi Ht. apply lookup_seq in Hi as [-> Hi].
  rewrite list_lookup_fmap, segment_lookup, decide_True in Ht by done.
  by rewrite list_lookup_fmap.
Qed.

Lemma loads_segment (L k : nat) (h : list (cell F)) :
  L + k ≤ length h → Forall2 (λ l c, h !! l = Some c) (seq L k) (segment L k h).
Proof.
  intros Hl. apply Forall2_same_length_lookup.
  split; [by rewrite length_seq, segment_length|].
  intros i l c Hi Hc. apply lookup_seq in Hi as [-> Hi].
  by rewrite segment_lookup, decide_True in Hc.
Qed.

(** Reads are kept by changes to other objects. *)
Lemma reads_other ops (h : list (cell F)) (L : nat) ls ts :
  Forall (λ l, L ≤ l) ops.*1 → Forall (λ l, l < L) ls →
  reads h ls ts → reads (alter_all ops h) ls ts.
Proof.
  intros Hops Hls Hr. unfold reads in *.
  apply Forall2_same_length_lookup. apply Forall2_same_length_lookup in Hr as [Hlen Hr].
  split; [done|]. intros i l t Hl Ht. rewrite <- (Hr i l t Hl Ht).
  rewrite !list_lookup_fmap. f_equal. apply alter_all_other.
  intros Hin. eapply Forall_forall in Hops; [|exact Hin].
  eapply Forall_forall in Hls; [|by eapply list_elem_of_lookup_2]. simpl in *. lia.
Qed.

Lemma reads_same_data (h h' : list (cell F)) ls ts :
  data <$> h' = data <$> h → reads h ls ts → reads h' ls ts.
Proof. intros Hd. unfold reads. by rewrite Hd. Qed.

End Segments.

Section ClosedFormRuns.
Context {F : Type} {HF : Float F} {HT : Torch F}.
Import AdversarialAttack.

Lemma segment_fresh (h cs : list (cell F)) : segment (length h) (length cs) (h ++ cs) = cs.
Proof. unfold segment. rewrite drop_app_length. by apply take_ge. Qed.

Section Loop.
Context (self : AdversarialAttack.t F) (p : Perturbation F) (x labels : var F).
Context (fn : tensor F → tensor F) (signed verbose : bool) (ws : list (tensor F)).
Context (L k : nat).
Context (Hmodel : pert_model p = threat_model self) (Hps : pert_params p = seq L k).
Context (Hnet : Forall (λ l, l < L) (net_params (classifier_net self))).
Context (Hgrad : ∀ vals t up, k ≤ length (tm_vjp (threat_model self) vals t up)).

Let pass := attack_pass self (v_data x) (v_data labels) ws fn signed.

Lemma keys_of_params {X} (g : X → cell F → cell F) (xs : list X) :
  Forall (λ l, L ≤ l) ((λ lx, (lx.1, g lx.2)) <$> zip (seq L k) xs).*1.
Proof.
  rewrite fst_mapped. apply Forall_forall. intros l Hl.
  apply list_elem_of_fmap in Hl as ([l' x'] & -> & Hin).
  apply elem_of_zip_l in Hin. apply elem_of_seq in Hin. simpl. lia.
Qed.

Lemma keys_of_weights {X} (g : X → cell F → cell F) (xs : list X) :
  Forall (λ l, l < L)
    ((λ lx, (lx.1, g lx.2)) <$> zip (net_params (classifier_net self)) xs).*1.
Proof.
  rewrite fst_mapped. apply Forall_forall. intros l Hl.
  apply list_elem_of_fmap in Hl as ([l' x'] & -> & Hin).
  apply elem_of_zip_l in Hin. by eapply Forall_forall in Hnet.
Qed.

Lemma iteration_run (i : nat) (o : Optimizer F) (v : world F) :
  opt_params o = seq L k → opt_rule o = adam_rule (5 # 10000) →
  L + k ≤ length (heap v) →
  reads (heap v) (net_params (classifier_net self)) ws →
  reference v = Some (v_data x) → training v = false →
  ∃ o' v',
    PGD.iteration self p x labels fn signed
      (if negb verbose then (λ ex label iter_no, mret tt) else validation_loop self)
      i o v
    = (iteration_log (pert_params p) signed verbose i, Ok o' v') ∧
    (segment L k (heap v'), opt_seen o') = pass (segment L k (heap v), opt_seen o) ∧
    opt_params o' = seq L k ∧ opt_rule o' = adam_rule (5 # 10000) ∧
    reads (heap v') (net_params (classifier_net self)) ws ∧
    same_size v v'.
Proof.
  intros Hopt Hrule Hlen Hws Href Hmode. unfold PGD.iteration.
  set (cs := segment L k (heap v)).
  assert (Hps_lt : ∀ n, L + k ≤ n → Forall (λ l, l < n) (pert_params p)).
  { intros n Hn. rewrite Hps. apply Forall_forall. intros l Hl.
    apply elem_of_seq in Hl. lia. }
  rewrite (bind_silent _ _ _ _ _ (zero_grad_run p v (Hps_lt _ Hlen))).
  set (v1 := set_heap (after_clear (pert_params p)) v).
  assert (Hh1 : heap v1 = after_clear (seq L k) (heap v)) by (by rewrite <- Hps).
  assert (Hlen1 : length (heap v1) = length (heap v)).
  { rewrite Hh1. unfold after_clear. apply alter_all_length. }
  assert (Hseg1 : segment L k (heap v1) = cleared <$> cs).
  { rewrite Hh1. apply segment_uniform. }
  assert (Hvals1 : reads (heap v1) (pert_params p) (data <$> (cleared <$> cs))).
  { rewrite Hps, <- Hseg1. apply reads_segment. lia. }
  assert (Hws1 : reads (heap v1) (net_params (classifier_net self)) ws).
  { eapply reads_same_data; [|exact Hws]. rewrite Hh1. apply after_clear_data. }
  rewrite (bind_silent _ _ _ _ _ (perturbation_call_run p x _ v1 Hvals1)).
  rewrite (bind_silent _ _ _ _ _ (loss_forward_run self p _ ws x labels v1 Hmodel Hws1)).
  change (reference v1) with (reference v). change (training v1) with (training v).
  rewrite Href, Hmode.
  set (gs := parameter_gradients self (Some (v_data x)) false ws (data <$> (cleared <$> cs))
               (v_data x) (v_data labels)).
  set (graph := backward_graph self (pert_params p) (Some (v_data x)) false ws
                  (data <$> (cleared <$> cs)) (v_data x) (v_data labels)).
  assert (Hgraph : Forall (λ lg, lg.1 < length (heap v1)) graph).
  { apply graph_in_store; [apply Hps_lt; lia|].
    eapply Forall_impl; [exact Hnet|]. intros l Hl. simpl in Hl. lia. }
  rewrite (bind_Ok _ _ _ _ _ _ (autograd_backward_run _ graph v1 Hgraph)).
  set (v2 := set_heap (after_backward graph) v1).
  assert (Hh2 : heap v2 = after_backward graph (heap v1)) by done.
  assert (Hlen2 : length (heap v2) = length (heap v)).
  { rewrite Hh2. unfold after_backward. by rewrite alter_all_length. }
  assert (Hseg2 : segment L k (heap v2) = apply_each (accumulated <$> gs) (cleared <$> cs)).
  { rewrite Hh2. unfold after_backward, graph, backward_graph.
    rewrite fmap_app, alter_all_app, segment_other by apply keys_of_weights.
    rewrite Hps. fold gs. rewrite (segment_zip accumulated). by rewrite Hseg1. }
  assert (Hws2 : reads (heap v2) (net_params (classifier_net self)) ws).
  { eapply reads_same_data; [|exact Hws1]. rewrite Hh2. apply after_backward_data. }
  assert (Hstep : ∃ o' v3,
             (if signed then update_params p fn;; mret o else optimizer_step o) v2
             = ([if signed then EvUpdateParams (pert_params p)
                 else EvOptimStep (pert_params p)], Ok o' v3) ∧
             (segment L k (heap v3), opt_seen o') = pass (cs, opt_seen o) ∧
             opt_params o' = seq L k ∧ opt_rule o' = adam_rule (5 # 10000) ∧
             reads (heap v3) (net_params (classifier_net self)) ws ∧
             same_size v2 v3).
  { unfold pass, attack_pass. cbn [fst snd]. fold gs. rewrite <- Hseg2.
    destruct signed.
    - assert (Hgr : Forall (λ l, ∃ c, heap v2 !! l = Some c ∧ is_Some (grad c))
                      (pert_params p)).
      { apply Forall_forall. intros l Hl. rewrite Hh2.
        apply after_backward_grad.
        - unfold graph, backward_graph. rewrite fmap_app. apply elem_of_app. left.
          rewrite fst_zip; [done|]. unfold parameter_gradients.
          rewrite Hps, length_seq. apply Hgrad.
        - pose proof (Hps_lt (length (heap v1)) ltac:(lia)) as Hlt.
          by eapply Forall_forall in Hlt. }
      exists o, (set_heap (after_update (pert_params p) fn) v2).
      split; [by rewrite (bind_Ok _ _ _ _ _ _ (update_params_run p fn v2 Hgr))|].
      split; [|split; [done|split; [done|split]]].
      + f_equal. cbn [heap set_heap]. rewrite Hps. unfold after_update.
        apply segment_uniform.
      + cbn [heap set_heap]. unfold after_update.
        eapply (reads_other _ _ L); [|exact Hnet|exact Hws2].
        rewrite fst_tagged, Hps. apply Forall_forall. intros l Hl.
        apply elem_of_seq in Hl. lia.
      + split; [|done]. cbn [heap set_heap]. unfold after_update.
        by rewrite alter_all_length.
    - unfold optimizer_step. rewrite Hopt, Hrule.
      rewrite (bind_silent _ _ _ _ _
                 (map_M_load_run _ _ v2 (loads_segment L k (heap v2) ltac:(lia)))).
      set (seen := opt_seen o ++ [grad <$> segment L k (heap v2)]).
      set (ts := adam_rule (5 # 10000) seen (data <$> segment L k (heap v2))).
      assert (Hlt2 : Forall (λ l, l < length (heap v2)) (seq L k)).
      { apply Forall_forall. intros l Hl. apply elem_of_seq in Hl. lia. }
      rewrite (bind_silent _ _ _ _ _ (set_data_run (seq L k) ts v2 Hlt2)).
      eexists _, _. split; [by rewrite Hps|].
      split; [|split; [done|split; [done|split]]].
      + cbn [opt_seen]. f_equal. cbn [heap set_heap]. unfold after_assign.
        apply (segment_zip with_data).
      + cbn [heap set_heap]. unfold after_assign.
        eapply (reads_other _ _ L); [apply keys_of_params|exact Hnet|exact Hws2].
      + split; [|done]. cbn [heap set_heap]. unfold after_assign.
        by rewrite alter_all_length. }
  destruct Hstep as (o' & v3 & Hrun3 & Hst & Ho' & Hr' & Hws3 & Hs3).
  rewrite (bind_Ok _ _ _ _ _ _ Hrun3).
  assert (Hlen3 : length (heap v3) = length (heap v)).
  { destruct Hs3 as [-> _]. exact Hlen2. }
  destruct (reads_exists (heap v3) (pert_params p)) as [vals3 Hvals3];
    [apply Hps_lt; lia|].
  rewrite (bind_silent _ _ _ _ _ (perturbation_call_run p x vals3 v3 Hvals3)).
  rewrite (bind_Ok _ _ _ _ _ _ (validator_run self verbose _ _ (inl i) ws v3 Hws3)).
  exists o', v3. split; [|split; [done|split; [done|split; [done|split; [done|]]]]].
  - cbn [fst snd]. unfold iteration_log. simpl. by rewrite app_nil_r.
  - destruct Hs3 as (Hl3 & Ht3 & Hr3). split; [|split].
    + by rewrite Hlen3.
    + by rewrite Ht3.
    + by rewrite Hr3.
Qed.

Lemma iterations_run (n : nat) :
  ∀ (start : nat) (o : Optimizer F) (v : world F),
    opt_params o = seq L k → opt_rule o = adam_rule (5 # 10000) →
    L + k ≤ length (heap v) →
    reads (heap v) (net_params (classifier_net self)) ws →
    reference v = Some (v_data x) → training v = false →
    ∃ o' v',
      for_range n start
        (PGD.iteration self p x labels fn signed
           (if negb verbose then (λ ex label iter_no, mret tt) else validation_loop self))
        o v
      = (concat (iteration_log (pert_params p) signed verbose <$> seq start n), Ok o' v') ∧
      (segment L k (heap v'), opt_seen o')
      = Nat.iter n pass (segment L k (heap v), opt_seen o) ∧
      reads (heap v') (net_params (classifier_net self)) ws ∧
      same_size v v'.
Proof.
  induction n as [|n IH]; intros start o v Hopt Hrule Hlen Hws Href Hmode.
  { exists o, v. by repeat split. }
  cbn [for_range seq fmap list_fmap concat].
  destruct (iteration_run start o v Hopt Hrule Hlen Hws Href Hmode)
    as (o1 & v1 & Hrun1 & Hst1 & Hopt1 & Hrule1 & Hws1 & Hs1).
  destruct Hs1 as (Hl1 & Ht1 & Hr1).
  destruct (IH (S start) o1 v1) as (o' & v' & Hrun & Hst & Hws' & Hs);
    [done|done|by rewrite Hl1|done|by rewrite Hr1|by rewrite Ht1|].
  exists o', v'. split; [|split; [|split; [done|]]].
  - rewrite (bind_Ok _ _ _ _ _ _ Hrun1), Hrun. reflexivity.
  - rewrite Hst, Hst1. symmetry. apply Nat.iter_succ_r.
  - destruct Hs as (Hl & Ht & Hr). split; [|split]; congruence.
Qed.

End Loop.
End ClosedFormRuns.

Section ClosedFormAttack.
Context {F : Type} {HF : Float F} {HT : Torch F}.
Import AdversarialAttack.

(** The multi-step attack returns, and the parameters it leaves are
    [attack_cells]. *)
Lemma PGD_closed_form (self : AdversarialAttack.t F) (examples labels : loc)
    (step_size : F) (num_iterations : Z) (random_init_flag signed verbose : bool)
    (w : world F) (cx cl : cell F) (ws : list (tensor F)) :
  heap w !! examples = Some cx → heap w !! labels = Some cl →
  reads (heap w) (net_params (classifier_net self)) ws →
  let tm := threat_model self in
  let init := tm_init tm (data cx) in
  let p := created tm (data cx) w in
  (∀ vals t up, length init ≤ length (tm_vjp tm vals t up)) →
  ∃ w',
    PGD.attack self examples labels step_size num_iterations random_init_flag signed
      verbose w
    = (PGD_log (parameters p) (Z.to_nat num_iterations) random_init_flag signed verbose,
       Ok (attach_originals p examples) w') ∧
    length (heap w) + length init ≤ length (heap w') ∧
    segment (length (heap w)) (length init) (heap w')
    = attack_cells self (data cx) (data cl) ws step_size (Z.to_nat num_iterations) signed
        (if random_init_flag then Some (torch_rng w 0) else None).
Proof.
  intros Hex Hlab Hws tm init p Hgrad.
  set (L := length (heap w)). set (k := length init).
  assert (Hnet : Forall (λ l, l < L) (net_params (classifier_net self)))
    by (by eapply reads_lt).
  assert (Hps : pert_params p = seq L k) by done.
  rewrite PGD_attack_unfold, Hex. fold tm init p.
  unfold PGD_after_creation. cbv zeta.
  set (w1 := set_heap (λ h, h ++ fresh_cells init) (set_training false w)).
  assert (Hh1 : heap w1 = heap w ++ fresh_cells init) by done.
  assert (Hx1 : heap w1 !! examples = Some cx) by (by apply lookup_app_l_Some).
  assert (Hl1 : heap w1 !! labels = Some cl) by (by apply lookup_app_l_Some).
  assert (Hkf : length (fresh_cells init) = k) by (unfold fresh_cells; by rewrite length_fmap).
  assert (Hlen1 : length (heap w1) = L + k) by (rewrite Hh1, length_app; lia).
  rewrite (bind_silent _ _ _ _ _ (mk_Variable_run _ _ _ Hx1)).
  rewrite (bind_silent _ _ _ _ _ (mk_Variable_run _ _ _ Hl1)).
  erewrite bind_silent by reflexivity.
  set (v0 := set_reference (Some (data cx)) w1).
  set (vx := Var (data cx) (Some examples) [] (λ _, [])).
  set (vl := Var (data cl) (Some labels) [] (λ _, [])).
  assert (Hws0 : reads (heap v0) (net_params (classifier_net self)) ws)
    by (by apply reads_app_l).
  rewrite (bind_Ok _ _ _ _ _ _ (validator_run self verbose vx vl (inr "START"%string)
                                  ws v0 Hws0)).
  assert (Hseg0 : segment L k (heap v0) = fresh_cells init).
  { change (heap v0) with (heap w ++ fresh_cells init). rewrite <- Hkf.
    apply segment_fresh. }
  assert (Hinit : ∃ v1,
            (if random_init_flag
             then random_init p;;
                  adv ← perturbation_call p vx;
                  (if negb verbose then (λ ex label iter_no, mret tt)
                   else validation_loop self) adv vl (inr "RANDOM"%string)
             else mret tt) v0
            = (if random_init_flag then validator_log verbose (inr "RANDOM"%string)
               else [], Ok tt v1) ∧
            segment L k (heap v1)
            = initial_cells tm (data cx)
                (if random_init_flag then Some (torch_rng w 0) else None) ∧
            length (heap v1) = L + k ∧
            reads (heap v1) (net_params (classifier_net self)) ws ∧
            reference v1 = Some (data cx) ∧ training v1 = false).
  { destruct random_init_flag; [|by exists v0].
    pose proof (random_init_run p init v0 (reads_fresh _ _)) as Hri.
    set (v1 := set_heap _ _) in Hri.
    assert (Hhv : heap v1 = after_assign (seq L k) (tm_random tm (torch_rng w 0) init)
                              (heap v0)) by done.
    assert (Hlenv : length (heap v1) = L + k).
    { rewrite Hhv. unfold after_assign. by rewrite alter_all_length. }
    assert (Hws1 : reads (heap v1) (net_params (classifier_net self)) ws).
    { rewrite Hhv. unfold after_assign.
      eapply (reads_other _ _ L); [apply keys_of_params|exact Hnet|exact Hws0]. }
    destruct (reads_exists (heap v1) (pert_params p)) as [vals Hvals].
    { rewrite Hps. apply Forall_forall. intros l Hl. apply elem_of_seq in Hl. lia. }
    exists v1. split; [|split; [|done]].
    - rewrite (bind_silent _ _ _ _ _ Hri).
      rewrite (bind_silent _ _ _ _ _ (perturbation_call_run p vx vals v1 Hvals)).
      apply (validator_run self verbose _ _ _ ws v1 Hws1).
    - rewrite Hhv. unfold after_assign. rewrite (segment_zip with_data).
      by rewrite Hseg0. }
  destruct Hinit as (v1 & Hrun1 & Hseg1 & Hlenv1 & Hws1 & Href1 & Hmode1).
  rewrite (bind_Ok _ _ _ _ _ _ Hrun1).
  assert (Hgrad' : ∀ vals t up, k ≤ length (tm_vjp (threat_model self) vals t up))
    by apply Hgrad.
  destruct (iterations_run self p vx vl (λ grad_data, scale step_size (torch_sign grad_data))
              signed verbose ws L k eq_refl Hps Hnet Hgrad' (Z.to_nat num_iterations) 0
              (optim_Adam (parameters p) (5 # 10000)) v1)
    as (o' & v2 & Hrun2 & Hst2 & Hws2 & Hs2); [done|done|lia|done|done|done|].
  rewrite (bind_Ok _ _ _ _ _ _ Hrun2).
  assert (Hlenv2 : length (heap v2) = L + k).
  { destruct Hs2 as [-> _]. exact Hlenv1. }
  assert (Hlt2 : Forall (λ l, l < length (heap v2)) (pert_params p)).
  { rewrite Hps. apply Forall_forall. intros l Hl. apply elem_of_seq in Hl. lia. }
  rewrite (bind_silent _ _ _ _ _ (zero_grad_run p v2 Hlt2)).
  erewrite bind_silent by reflexivity.
  eexists. split; [|split].
  - cbn [fst snd]. unfold PGD_log. f_equal.
    unfold parameters. by rewrite !app_nil_r.
  - cbn [heap set_heap set_reference]. unfold after_clear.
    rewrite alter_all_length. fold L k. lia.
  - cbn [heap set_heap set_reference]. unfold after_clear. rewrite Hps.
    rewrite segment_uniform. unfold attack_cells. f_equal.
    apply (f_equal fst) in Hst2. cbn [fst] in Hst2. rewrite Hst2.
    cbn [optim_Adam opt_seen]. by rewrite Hseg1.
Qed.

(** The values the single-step attack leaves. *)
Lemma FGSM_closed_form (self : AdversarialAttack.t F) (examples labels : loc)
    (step_size : F) (verbose : bool) (w : world F) (cx cl : cell F)
    (ws : list (tensor F)) :
  heap w !! examples = Some cx → heap w !! labels = Some cl →
  reads (heap w) (net_params (classifier_net self)) ws →
  let tm := threat_model self in
  let init := tm_init tm (data cx) in
  let p := created tm (data cx) w in
  (∀ vals t up, length init ≤ length (tm_vjp tm vals t up)) →
  ∃ ev w',
    FGSM.attack self examples labels step_size verbose w
    = (ev, Ok (attach_originals p examples) w') ∧
    reads (heap w') (parameters p) (FGSM_values self (data cx) (data cl) ws step_size).
Proof.
  intros Hex Hlab Hws tm init p Hgrad.
  assert (Hg0 : length init
                ≤ length (parameter_gradients self (Some (data cx)) false ws init
                            (data cx) (data cl))) by apply Hgrad.
  eexists _, _. split; [by apply (FGSM_run self examples labels w cx cl ws)|].
  unfold FGSM_values. fold tm init.
  set (g0 := parameter_gradients self (Some (data cx)) false ws init (data cx) (data cl))
    in *.
  apply Forall2_same_length_lookup. split.
  { unfold parameters, p, created. cbn [pert_params].
    rewrite length_seq, length_zip_with. fold init. lia. }
  intros i l t Hl Ht. apply lookup_seq in Hl as [-> Hi].
  apply lookup_zip_with_Some in Ht as (d & g & -> & Hd & Hg).
  rewrite list_lookup_fmap.
  by rewrite (FGSM_final_param self w cx cl ws Hws step_size Hg0 i d g Hd Hg).
Qed.

(** Parameters that hold given values perturb every batch accordingly. *)
Lemma same_parameters_intro (run1 run2 : list event * outcome F (Perturbation F))
    (p1 p2 : Perturbation F) (vals : list (tensor F)) :
  result_of run1 = Some p1 → result_of run2 = Some p2 →
  pert_model p1 = pert_model p2 →
  reads (heap (final run1)) (parameters p1) vals →
  reads (heap (final run2)) (parameters p2) vals →
  same_parameters run1 run2 vals.
Proof.
  intros Hr1 Hr2 Hm Hv1 Hv2. exists p1, p2. repeat (split; [done|]).
  intros x. split.
  - by rewrite (perturbation_call_run p1 x vals _ Hv1).
  - rewrite (perturbation_call_run p2 x vals _ Hv2). by rewrite Hm.
Qed.

End ClosedFormAttack.

(** ** The attacks are functions of the batch, the labels and the weights *)
Section DeterminismClaim.
Context {F : Type} {HF : Float F} {HT : Torch F}.
Import AdversarialAttack.

Lemma held_cell (w : world F) (l : loc) (t : tensor F) :
  data <$> heap w !! l = Some t → ∃ c, heap w !! l = Some c ∧ data c = t.
Proof. destruct (heap w !! l) as [c|]; [|done]. intros [= <-]. by exists c. Qed.

Lemma PGD_values (self : AdversarialAttack.t F) (examples labels : loc)
    (step_size : F) (num_iterations : Z) (random_init_flag signed verbose : bool)
    (w : world F) (tx tl : tensor F) (ws : list (tensor F)) :
  data <$> heap w !! examples = Some tx → data <$> heap w !! labels = Some tl →
  reads (heap w) (net_params (classifier_net self)) ws →
  (∀ vals t up, length (tm_init (threat_model self) tx)
                ≤ length (tm_vjp (threat_model self) vals t up)) →
  let run := PGD.attack self examples labels step_size num_iterations random_init_flag
               signed verbose w in
  ∃ p, result_of run = Some p ∧ pert_model p = threat_model self ∧
       reads (heap (final run)) (parameters p)
         (attack_values self tx tl ws step_size (Z.to_nat num_iterations) signed
            (if random_init_flag then Some (torch_rng w 0) else None)).
Proof.
  intros Hx Hl Hws Hgrad run.
  destruct (held_cell _ _ _ Hx) as (cx & Hcx & <-).
  destruct (held_cell _ _ _ Hl) as (cl & Hcl & <-).
  destruct (PGD_closed_form self examples labels step_size num_iterations random_init_flag
              signed verbose w cx cl ws Hcx Hcl Hws Hgrad) as (w' & Hrun & Hlen & Hseg).
  unfold run. rewrite Hrun. eexists. split; [reflexivity|]. split; [reflexivity|].
  cbn [final snd]. unfold attack_values. rewrite <- Hseg.
  by apply reads_segment.
Qed.

Lemma FGSM_values_run (self : AdversarialAttack.t F) (examples labels : loc)
    (step_size : F) (verbose : bool) (w : world F) (tx tl : tensor F)
    (ws : list (tensor F)) :
  data <$> heap w !! examples = Some tx → data <$> heap w !! labels = Some tl →
  reads (heap w) (net_params (classifier_net self)) ws →
  (∀ vals t up, length (tm_init (threat_model self) tx)
                ≤ length (tm_vjp (threat_model self) vals t up)) →
  let run := FGSM.attack self examples labels step_size verbose w in
  ∃ p, result_of run = Some p ∧ pert_model p = threat_model self ∧
       reads (heap (final run)) (parameters p) (FGSM_values self tx tl ws step_size).
Proof.
  intros Hx Hl Hws Hgrad run.
  destruct (held_cell _ _ _ Hx) as (cx & Hcx & <-).
  destruct (held_cell _ _ _ Hl) as (cl & Hcl & <-).
  destruct (FGSM_closed_form self examples labels step_size verbose w cx cl ws
              Hcx Hcl Hws Hgrad) as (ev & w' & Hrun & Hvals).
  unfold run. rewrite Hrun. eexists. split; [reflexivity|]. by split.
Qed.

(** C8.  The parameters that a run of the multi-step attack leaves are a
    function of the data of the batch, of the labels and of the classifier's
    weights, of the options and, only with [random_init = True], of the
    next draw of torch's generator.  So two calls with the same arguments,
    made in any two states of the program in which the batch, the labels and
    the weights hold the same data (whatever the generators, the mode of
    the classifier, the reference batch left in the loss, the gradient
    buffers and the other objects are at either call), both return, with
    parameters that hold the same values and so perturb every batch
    identically; a second call right after the first is such a pair.  The
    same holds for the single-step attack.  Neither attack reads or advances
    a generator without [random_init]; with it, two runs agree when the
    draw is the same, and on the toy batch two different draws give
    different parameters.  (The threat model is assumed to hand every
    parameter a gradient.) *)
Theorem C8_deterministic_without_random_init (self : AdversarialAttack.t F)
    (examples labels : loc) (step_size : F) (num_iterations : Z)
    (signed verbose : bool) (w1 w2 : world F) (tx tl : tensor F) (ws : list (tensor F)) :
  data <$> heap w1 !! examples = Some tx → data <$> heap w2 !! examples = Some tx →
  data <$> heap w1 !! labels = Some tl → data <$> heap w2 !! labels = Some tl →
  reads (heap w1) (net_params (classifier_net self)) ws →
  reads (heap w2) (net_params (classifier_net self)) ws →
  (∀ vals t up, length (tm_init (threat_model self) tx)
                ≤ length (tm_vjp (threat_model self) vals t up)) →
  let n := Z.to_nat num_iterations in
  let PGD_attack := λ random_init_flag,
    PGD.attack self examples labels step_size num_iterations random_init_flag signed
      verbose in
  let FGSM_attack := FGSM.attack self examples labels step_size verbose in
  same_parameters (PGD_attack false w1) (PGD_attack false w2)
    (attack_values self tx tl ws step_size n signed None) ∧
  same_parameters (PGD_attack false w1) (PGD_attack false (final (PGD_attack false w1)))
    (attack_values self tx tl ws step_size n signed None) ∧
  same_parameters (FGSM_attack w1) (FGSM_attack w2)
    (FGSM_values self tx tl ws step_size) ∧
  rng_free (PGD_attack false) ∧ rng_free FGSM_attack ∧
  (torch_rng w1 0 = torch_rng w2 0 →
   same_parameters (PGD_attack true w1) (PGD_attack true w2)
     (attack_values self tx tl ws step_size n signed (Some (torch_rng w1 0)))) ∧
  (let attack := PGD.attack Toy.engine 1 2 2%Z 0 true true false in
   data_at (final (attack Toy.w0)) [3]
   ≠ data_at (final (attack (with_rngs (λ _, 0) (λ _, 7) Toy.w0))) [3]).
Proof.
  intros Hx1 Hx2 Hl1 Hl2 Hws1 Hws2 Hgrad n PGD_attack FGSM_attack.
  assert (Hpair : ∀ flag v1 v2,
            data <$> heap v1 !! examples = Some tx → data <$> heap v2 !! examples = Some tx →
            data <$> heap v1 !! labels = Some tl → data <$> heap v2 !! labels = Some tl →
            reads (heap v1) (net_params (classifier_net self)) ws →
            reads (heap v2) (net_params (classifier_net self)) ws →
            (flag = true → torch_rng v1 0 = torch_rng v2 0) →
            same_parameters (PGD_attack flag v1) (PGD_attack flag v2)
              (attack_values self tx tl ws step_size n signed
                 (if flag then Some (torch_rng v1 0) else None))).
  { intros flag v1 v2 Ha1 Ha2 Hb1 Hb2 Hc1 Hc2 Hdraw.
    destruct (PGD_values self examples labels step_size num_iterations flag signed verbose
                v1 tx tl ws Ha1 Hb1 Hc1 Hgrad) as (p1 & Hr1 & Hm1 & Hv1).
    destruct (PGD_values self examples labels step_size num_iterations flag signed verbose
                v2 tx tl ws Ha2 Hb2 Hc2 Hgrad) as (p2 & Hr2 & Hm2 & Hv2).
    apply (same_parameters_intro _ _ p1 p2); [done|done|congruence|done|].
    destruct flag; [|done]. by rewrite (Hdraw eq_refl). }
  split; [by apply (Hpair false)|]. split; [|split; [|split; [|split; [|split]]]].
  - pose proof (PGD_attack_frame self examples labels step_size num_iterations false
                  signed verbose w1) as [Hfr _].
    cbv zeta in Hfr. fold (PGD_attack false w1) in Hfr.
    apply (Hpair false); try done.
    + apply reads_one. eapply frame_reads; [exact Hfr| |by apply reads_one].
      eapply reads_lt. by apply reads_one.
    + apply reads_one. eapply frame_reads; [exact Hfr| |by apply reads_one].
      eapply reads_lt. by apply reads_one.
    + eapply frame_reads; [exact Hfr|by eapply reads_lt|done].
  - destruct (FGSM_values_run self examples labels step_size verbose w1 tx tl ws
                Hx1 Hl1 Hws1 Hgrad) as (p1 & Hr1 & Hm1 & Hv1).
    destruct (FGSM_values_run self examples labels step_size verbose w2 tx tl ws
                Hx2 Hl2 Hws2 Hgrad) as (p2 & Hr2 & Hm2 & Hv2).
    apply (same_parameters_intro _ _ p1 p2); [done|done|congruence|done|done].
  - exact (rng_free_PGD_attack self examples labels step_size num_iterations signed
             verbose).
  - exact (rng_free_FGSM_attack self examples labels step_size verbose).
  - intros Hdraw. by apply (Hpair true).
  - vm_compute. discriminate.
Qed.

End DeterminismClaim.

(** The toy engine, three unsigned iterations, called in the toy store and
    in a store where the generators, the classifier's mode, the reference
    batch of the loss, the gradient on the weight and the number of objects
    are different. *)
Lemma C8_deterministic_without_random_init_witness :
  let w2 := World [Cell (FloatTensor [[1%Z]]) (Some (FloatTensor [[5%Z]]));
                   Cell Toy.batch_inputs None; Cell Toy.batch_labels None;
                   Cell (FloatTensor [[9%Z]]) None]
                  false (Some (FloatTensor [[7%Z]])) (λ _, 3) (λ _, 4) in
  let attack := PGD.attack Toy.engine 1 2 2%Z 3 false false true in
  same_parameters (attack Toy.w0) (attack w2)
    (attack_values Toy.engine Toy.batch_inputs Toy.batch_labels [FloatTensor [[1%Z]]]
       2%Z 3 false None) ∧
  result_of (attack Toy.w0)
  = Some (attach_originals (created Toy.additive Toy.batch_inputs Toy.w0) 1) ∧
  result_of (attack w2)
  = Some (attach_originals (created Toy.additive Toy.batch_inputs w2) 1).
Proof.
  intros w2 attack.
  destruct (C8_deterministic_without_random_init Toy.engine 1 2 2%Z 3 false true
              Toy.w0 w2 Toy.batch_inputs Toy.batch_labels [FloatTensor [[1%Z]]])
    as (Hsame & _).
  - reflexivity.
  - reflexivity.
  - reflexivity.
  - reflexivity.
  - by repeat constructor.
  - by repeat constructor.
  - intros vals t up. simpl. lia.
  - split; [exact Hsame|]. split; reflexivity.
Defined.
